(** * 99tech-challenge: a verification development

    Shallow embedding of the repository's code:
    - [Problem4]: the three [sum_to_n] implementations;
    - [Auth]: the [authenticateToken] middleware of problem 5;
    - [Controllers]: the user and auth controllers of problem 5;
    - [ScoreBoard]: the score update handler, the lock service and the
      rate-limit middleware of problem 6, and the leaderboard order. *)

From Stdlib Require Import ZArith Lia List String Ascii Bool.
From Stdlib Require Import Sorting.Sorted Sorting.Permutation.
From stdpp Require Import base gmap strings list sorting.

Local Open Scope Z_scope.
#[local] Set Warnings "-register-all,-clear-no-such-hyp".

(** * Problem 4: three ways to sum to n *)

Module Problem4.

(** ** Numbers

    A TypeScript [number] is an IEEE-754 double.  The functions below are
    applied to integers, and every operation of a double is correctly
    rounded: when the exact result of an operation on integers is an integer
    a double represents, the operation returns it.  [fl r] is that result;
    [None] stands for every other outcome (a rounded result, a fraction,
    NaN or undefined), which this integer model does not follow further. *)

Definition MAX_SAFE_INTEGER : Z := 2 ^ 53 - 1.

(** An integer of magnitude above 2^53 is a double exactly when its low bits,
    below the 53 bits of the significand, are zero (the exponent range is not
    reached by the sums here and is left out). *)
Definition representable (m : Z) : bool :=
  let a := Z.abs m in
  if a <=? 2 ^ 53 then true
  else a mod 2 ^ (Z.log2 a - 52) =? 0.

Definition fl (r : Z) : option Z :=
  if representable r then Some r else None.

Definition num_add (a b : Z) : option Z := fl (a + b).
Definition num_sub (a b : Z) : option Z := fl (a - b).
Definition num_mul (a b : Z) : option Z := fl (a * b).
Definition num_div (a b : Z) : option Z :=
  if (b =? 0) || negb (a mod b =? 0) then None else fl (a / b).

(** ** sum_to_n_a: recursion

    [fuel] bounds the depth of the call stack; [None] is also the outcome
    of a stack that runs out. *)
Fixpoint sum_to_n_a (fuel : nat) (n : Z) : option Z :=
  match fuel with
  | O => None
  | S fuel' =>
      if n =? 0 then Some 0
      else if n =? 1 then Some 1
      else
        m ← num_sub n 1;
        r ← sum_to_n_a fuel' m;
        num_add n r
  end.

(** ** sum_to_n_b: a table of partial sums

    A JS array: a cell is [None] when it is a hole (it reads as undefined).
    Writing at or past the end extends the array. *)
Abbreviation js_array := (list (option Z)).

Definition js_get (a : js_array) (i : Z) : option Z :=
  if i <? 0 then None else mjoin (a !! Z.to_nat i).

Definition js_set (a : js_array) (i : Z) (v : option Z) : js_array :=
  let k := Z.to_nat i in
  if (k <? length a)%nat then <[k := v]> a
  else a ++ replicate (k - length a) None ++ [v].

(** [for (let i = 2; i <= n; i++) sum[i] = sum[i - 1] + i] *)
Fixpoint sum_to_n_b_loop (fuel : nat) (i n : Z) (sum : js_array)
  : option js_array :=
  match fuel with
  | O => None
  | S fuel' =>
      if i <=? n then
        let cell := (j ← num_sub i 1; prev ← js_get sum j; num_add prev i) in
        i' ← num_add i 1;
        sum_to_n_b_loop fuel' i' n (js_set sum i cell)
      else Some sum
  end.

Definition sum_to_n_b (fuel : nat) (n : Z) : option Z :=
  let sum : js_array := [] in
  let sum := js_set sum 0 (Some 0) in
  let sum := js_set sum 1 (Some 1) in
  sum ← sum_to_n_b_loop fuel 2 n sum;
  js_get sum n.

(** ** sum_to_n_c: the closed form *)
Definition sum_to_n_c (n : Z) : option Z :=
  s ← num_add n 1;
  p ← num_mul n s;
  num_div p 2.

(** The value all three are meant to return. *)
Definition triangular (n : Z) : Z := n * (n + 1) / 2.

(** ** Proofs *)

Lemma representable_small m : Z.abs m <= 2 ^ 53 → representable m = true.
Proof.
  intros H. unfold representable. cbv zeta.
  destruct (Z.leb_spec (Z.abs m) (2 ^ 53)); [done | lia].
Qed.

Lemma fl_small m : Z.abs m <= 2 ^ 53 → fl m = Some m.
Proof. intros H. unfold fl. by rewrite representable_small. Qed.

Lemma representable_even m :
  0 <= m <= 2 ^ 54 → m mod 2 = 0 → representable m = true.
Proof.
  intros [H0 H1] Hev. unfold representable. cbv zeta.
  rewrite Z.abs_eq by lia.
  destruct (Z.leb_spec m (2 ^ 53)) as [|Hbig]; [done |].
  apply Z.eqb_eq.
  destruct (Z.eq_dec m (2 ^ 54)) as [-> | Hne]; [reflexivity |].
  assert (Hlog : Z.log2 m = 53).
  { apply Z.log2_unique; [lia |]. change (2 ^ (53 + 1)) with (2 ^ 54). lia. }
  rewrite Hlog. exact Hev.
Qed.

Lemma triangular_double n : 2 * triangular n = n * (n + 1).
Proof.
  unfold triangular.
  assert (H : (n * (n + 1)) mod 2 = 0).
  { rewrite Z.mul_mod by lia.
    assert (Hn : n mod 2 = 0 ∨ n mod 2 = 1) by (pose proof (Z.mod_pos_bound n 2); lia).
    destruct Hn as [Hn | Hn].
    - rewrite Hn. reflexivity.
    - replace ((n + 1) mod 2) with 0; [by rewrite Z.mul_0_r |].
      rewrite Z.add_mod by lia. rewrite Hn. reflexivity. }
  pose proof (Z.div_mod (n * (n + 1)) 2). lia.
Qed.

Lemma triangular_succ n : triangular (n + 1) = triangular n + (n + 1).
Proof.
  pose proof (triangular_double n). pose proof (triangular_double (n + 1)). nia.
Qed.

Lemma triangular_mono a b : 0 <= a <= b → triangular a <= triangular b.
Proof.
  intros H. pose proof (triangular_double a). pose proof (triangular_double b). nia.
Qed.

Lemma triangular_ge n : 0 <= n → n <= triangular n.
Proof. intros H. pose proof (triangular_double n). nia. Qed.

Lemma sum_to_n_a_enough fuel n :
  0 <= n → triangular n <= MAX_SAFE_INTEGER → (Z.to_nat n < fuel)%nat →
  sum_to_n_a fuel n = Some (triangular n).
Proof.
  unfold MAX_SAFE_INTEGER.
  revert n. induction fuel as [| fuel IH]; intros n Hn Hsafe Hfuel; [lia |].
  cbn [sum_to_n_a].
  destruct (Z.eqb_spec n 0) as [-> | Hn0]; [reflexivity |].
  destruct (Z.eqb_spec n 1) as [-> | Hn1]; [reflexivity |].
  pose proof (triangular_ge n Hn) as Hge.
  pose proof (triangular_succ (n - 1)) as Hs.
  replace (n - 1 + 1) with n in Hs by lia.
  pose proof (triangular_ge (n - 1) ltac:(lia)) as Hge'.
  unfold num_sub. rewrite fl_small by lia. cbn [mbind option_bind].
  rewrite IH by lia. cbn [mbind option_bind].
  unfold num_add. rewrite fl_small by lia. f_equal. lia.
Qed.

(** The table after the cells 0 .. k-1 have been written. *)
Definition table (k : nat) : js_array :=
  (λ j : nat, Some (triangular (Z.of_nat j))) <$> seq 0 k.

Lemma table_length k : length (table k) = k.
Proof. unfold table. by rewrite length_fmap, length_seq. Qed.

Lemma table_snoc k : table (S k) = table k ++ [Some (triangular (Z.of_nat k))].
Proof. unfold table. by rewrite seq_S, fmap_app. Qed.

Lemma table_lookup k j :
  (j < k)%nat → table k !! j = Some (Some (triangular (Z.of_nat j))).
Proof.
  intros H. unfold table. rewrite list_lookup_fmap, lookup_seq_lt by done.
  reflexivity.
Qed.

Lemma js_get_table k j :
  0 <= j < Z.of_nat k → js_get (table k) j = Some (triangular j).
Proof.
  intros H. unfold js_get.
  destruct (Z.ltb_spec j 0); [lia |].
  rewrite table_lookup by lia. cbn. f_equal. f_equal. lia.
Qed.

Lemma js_set_table k v :
  js_set (table k) (Z.of_nat k) v = table k ++ [v].
Proof.
  unfold js_set. cbv zeta. rewrite Nat2Z.id, table_length.
  destruct (Nat.ltb_spec k k); [lia |].
  by rewrite Nat.sub_diag.
Qed.

Lemma sum_to_n_b_loop_enough fuel k n :
  (2 <= k)%nat → Z.of_nat k <= n + 1 → triangular n <= MAX_SAFE_INTEGER →
  (Z.to_nat (n + 1) - k < fuel)%nat →
  sum_to_n_b_loop fuel (Z.of_nat k) n (table k) = Some (table (Z.to_nat (n + 1))).
Proof.
  unfold MAX_SAFE_INTEGER.
  revert k. induction fuel as [| fuel IH]; intros k Hk Hle Hsafe Hfuel; [lia |].
  cbn [sum_to_n_b_loop].
  destruct (Z.leb_spec (Z.of_nat k) n) as [Hin | Hout].
  - pose proof (triangular_ge n ltac:(lia)) as Hge.
    pose proof (triangular_mono (Z.of_nat k) n ltac:(lia)) as Hmono.
    pose proof (triangular_succ (Z.of_nat k - 1)) as Hs.
    replace (Z.of_nat k - 1 + 1) with (Z.of_nat k) in Hs by lia.
    pose proof (triangular_ge (Z.of_nat k - 1) ltac:(lia)) as Hge'.
    pose proof (triangular_succ (n - 1)) as Hsn.
    replace (n - 1 + 1) with n in Hsn by lia.
    pose proof (triangular_ge (n - 1) ltac:(lia)) as Hgen.
    unfold num_sub, num_add.
    rewrite (fl_small (Z.of_nat k + 1)) by lia. cbn [mbind option_bind].
    rewrite (fl_small (Z.of_nat k - 1)) by lia. cbn [mbind option_bind].
    rewrite js_get_table by lia. cbn [mbind option_bind].
    rewrite fl_small by lia.
    rewrite js_set_table.
    replace (triangular (Z.of_nat k - 1) + Z.of_nat k) with (triangular (Z.of_nat k)) by lia.
    rewrite <- table_snoc.
    replace (Z.of_nat k + 1) with (Z.of_nat (S k)) by lia.
    apply IH; lia.
  - f_equal. f_equal. lia.
Qed.

Lemma sum_to_n_b_enough fuel n :
  0 <= n → triangular n <= MAX_SAFE_INTEGER → (Z.to_nat n < fuel)%nat →
  sum_to_n_b fuel n = Some (triangular n).
Proof.
  intros Hn Hsafe Hfuel. unfold sum_to_n_b. cbv zeta.
  change (js_set (js_set [] 0 (Some 0)) 1 (Some 1)) with (table 2).
  destruct (Z.leb_spec 2 n) as [Hbig | Hsmall].
  - change 2 with (Z.of_nat 2) at 1.
    rewrite sum_to_n_b_loop_enough by lia. cbn [mbind option_bind].
    apply js_get_table. lia.
  - destruct fuel as [| fuel]; [lia |]. cbn [sum_to_n_b_loop].
    destruct (Z.leb_spec 2 n); [lia |]. cbn [mbind option_bind].
    apply js_get_table. cbn. lia.
Qed.

Lemma sum_to_n_c_exact n :
  0 <= n → triangular n <= MAX_SAFE_INTEGER → sum_to_n_c n = Some (triangular n).
Proof.
  unfold MAX_SAFE_INTEGER. intros Hn Hsafe.
  pose proof (triangular_double n) as Hd.
  pose proof (triangular_ge n Hn) as Hge.
  unfold sum_to_n_c, num_add, num_mul, num_div.
  rewrite fl_small by lia. cbn [mbind option_bind].
  assert (Hmod : (n * (n + 1)) mod 2 = 0).
  { rewrite <- Hd. rewrite Z.mul_comm. apply Z.mod_mul. lia. }
  assert (Hp : fl (n * (n + 1)) = Some (n * (n + 1))).
  { unfold fl. rewrite representable_even; [done | lia | done]. }
  rewrite Hp. cbn [mbind option_bind]. rewrite Hmod. cbn [Z.eqb orb negb].
  fold (triangular n). apply fl_small. lia.
Qed.

(** C8: on every nonnegative integer whose sum is a safe integer the three
    implementations return the same value, n(n+1)/2; the recursion and the
    loop do so as soon as the fuel exceeds n. *)
Theorem sum_to_n_agree (fuel : nat) (n : Z) :
  0 <= n → triangular n <= MAX_SAFE_INTEGER → (Z.to_nat n < fuel)%nat →
  sum_to_n_a fuel n = Some (n * (n + 1) / 2) ∧
  sum_to_n_b fuel n = Some (n * (n + 1) / 2) ∧
  sum_to_n_c n = Some (n * (n + 1) / 2).
Proof.
  intros Hn Hsafe Hfuel. fold (triangular n).
  split; [by apply sum_to_n_a_enough |].
  split; [by apply sum_to_n_b_enough | by apply sum_to_n_c_exact].
Qed.

Lemma sum_to_n_agree_witness :
  sum_to_n_a 11 10 = Some 55 ∧ sum_to_n_b 11 10 = Some 55 ∧ sum_to_n_c 10 = Some 55.
Proof.
  apply (sum_to_n_agree 11 10); [lia | vm_compute; discriminate | vm_compute; lia].
Defined.

(** ** Further properties: the depth of the recursion, negative input *)

Lemma sum_to_n_a_tight fuel n :
  0 <= n → triangular n <= MAX_SAFE_INTEGER → (Nat.max 1 (Z.to_nat n) ≤ fuel)%nat →
  sum_to_n_a fuel n = Some (triangular n).
Proof.
  unfold MAX_SAFE_INTEGER.
  revert n. induction fuel as [| fuel IH]; intros n Hn Hsafe Hfuel; [lia |].
  cbn [sum_to_n_a].
  destruct (Z.eqb_spec n 0) as [-> | Hn0]; [reflexivity |].
  destruct (Z.eqb_spec n 1) as [-> | Hn1]; [reflexivity |].
  pose proof (triangular_ge n Hn) as Hge.
  pose proof (triangular_succ (n - 1)) as Hs.
  replace (n - 1 + 1) with n in Hs by lia.
  pose proof (triangular_ge (n - 1) ltac:(lia)) as Hge'.
  unfold num_sub. rewrite fl_small by lia. cbn [mbind option_bind].
  rewrite IH by lia. cbn [mbind option_bind].
  unfold num_add. rewrite fl_small by lia. f_equal. lia.
Qed.

Lemma sum_to_n_a_shallow fuel n :
  0 <= n → (fuel < Nat.max 1 (Z.to_nat n))%nat → sum_to_n_a fuel n = None.
Proof.
  revert n. induction fuel as [| fuel IH]; intros n Hn Hfuel; [done |].
  cbn [sum_to_n_a].
  destruct (Z.eqb_spec n 0) as [-> | Hn0]; [cbn in Hfuel; lia |].
  destruct (Z.eqb_spec n 1) as [-> | Hn1]; [cbn in Hfuel; lia |].
  destruct (num_sub n 1) as [m |] eqn:Hm; [| done]. cbn [mbind option_bind].
  assert (m = n - 1) as ->.
  { unfold num_sub, fl in Hm. destruct (representable _); by inversion Hm. }
  rewrite IH by lia. done.
Qed.

(** X1: the recursion of sum_to_n_a is exactly n calls deep (one call for
    n = 0): it returns, on a nonnegative n whose sum is a safe integer, if and
    only if the stack allows max(1, n) nested calls. *)
Theorem sum_to_n_a_depth (fuel : nat) (n : Z) :
  0 <= n → triangular n <= MAX_SAFE_INTEGER →
  (sum_to_n_a fuel n = Some (n * (n + 1) / 2) ↔ (Nat.max 1 (Z.to_nat n) ≤ fuel)%nat) ∧
  (sum_to_n_a fuel n = None ↔ (fuel < Nat.max 1 (Z.to_nat n))%nat).
Proof.
  intros Hn Hsafe. fold (triangular n).
  destruct (Nat.le_gt_cases (Nat.max 1 (Z.to_nat n)) fuel) as [Hle | Hlt].
  - rewrite (sum_to_n_a_tight fuel n Hn Hsafe Hle). split; split; try done; lia.
  - rewrite (sum_to_n_a_shallow fuel n Hn Hlt). split; split; try done; lia.
Qed.

Lemma sum_to_n_a_depth_witness :
  (sum_to_n_a 10 10 = Some (10 * (10 + 1) / 2) ↔ (Nat.max 1 (Z.to_nat 10) ≤ 10)%nat) ∧
  (sum_to_n_a 10 10 = None ↔ (10 < Nat.max 1 (Z.to_nat 10))%nat).
Proof. apply (sum_to_n_a_depth 10 10); [lia | vm_compute; discriminate]. Defined.

Lemma sum_to_n_a_negative fuel n : n < 0 → sum_to_n_a fuel n = None.
Proof.
  revert n. induction fuel as [| fuel IH]; intros n Hn; [done |].
  cbn [sum_to_n_a].
  destruct (Z.eqb_spec n 0); [lia |]. destruct (Z.eqb_spec n 1); [lia |].
  destruct (num_sub n 1) as [m |] eqn:Hm; [| done]. cbn [mbind option_bind].
  assert (m = n - 1) as ->.
  { unfold num_sub, fl in Hm. destruct (representable _); by inversion Hm. }
  rewrite IH by lia. done.
Qed.

Lemma sum_to_n_b_negative fuel n : n < 0 → sum_to_n_b fuel n = None.
Proof.
  intros Hn. unfold sum_to_n_b. cbv zeta.
  destruct fuel as [| fuel]; [done |]. cbn [sum_to_n_b_loop].
  destruct (Z.leb_spec 2 n); [lia |]. cbn [mbind option_bind].
  unfold js_get. destruct (Z.ltb_spec n 0); [done | lia].
Qed.

(** X2: on a negative integer the three implementations part ways:
    sum_to_n_a never reaches a base case, whatever the stack; sum_to_n_b
    skips its loop and reads a cell that was never written; sum_to_n_c still
    evaluates its closed form n(n+1)/2 (a safe integer assumed), which is 0
    for -1 and positive below. *)
Theorem sum_to_n_negative (fuel : nat) (n : Z) :
  n < 0 → triangular n <= MAX_SAFE_INTEGER →
  sum_to_n_a fuel n = None ∧
  sum_to_n_b fuel n = None ∧
  sum_to_n_c n = Some (n * (n + 1) / 2) ∧
  0 <= n * (n + 1) / 2.
Proof.
  unfold MAX_SAFE_INTEGER. intros Hn Hsafe.
  split; [by apply sum_to_n_a_negative |]. split; [by apply sum_to_n_b_negative |].
  fold (triangular n). pose proof (triangular_double n) as Hd.
  assert (Hpos : 0 <= triangular n) by nia.
  split; [| done].
  assert (Hsmall : Z.abs (n + 1) <= 2 ^ 53) by nia.
  unfold sum_to_n_c, num_add, num_mul, num_div.
  rewrite fl_small by done. cbn [mbind option_bind].
  assert (Hmod : (n * (n + 1)) mod 2 = 0).
  { rewrite <- Hd. rewrite Z.mul_comm. apply Z.mod_mul. lia. }
  assert (Hp : fl (n * (n + 1)) = Some (n * (n + 1))).
  { unfold fl. rewrite representable_even; [done | lia | done]. }
  rewrite Hp. cbn [mbind option_bind]. rewrite Hmod. cbn [Z.eqb orb negb].
  fold (triangular n). apply fl_small. lia.
Qed.

Lemma sum_to_n_negative_witness :
  sum_to_n_a 100 (-3) = None ∧ sum_to_n_b 100 (-3) = None ∧
  sum_to_n_c (-3) = Some (-3 * (-3 + 1) / 2) ∧ 0 <= -3 * (-3 + 1) / 2.
Proof. apply (sum_to_n_negative 100 (-3)); [lia | vm_compute; discriminate]. Defined.

End Problem4.

(** * Problem 5: the ExpressJS user service *)

Module Problem5.

Local Open Scope string_scope.

(** ** Shared data *)

(** models/User.ts: the columns of the [users] entity. *)
Record User := mkUser {
  id : Z;
  name : string;
  email : string;
  password : string;
  age : option Z;
  city : option string;
  createdAt : Z;
  updatedAt : Z
}.

(** JSON bodies passed to [res.json]. *)
Inductive json :=
| JNull
| JBool (b : bool)
| JNum (z : Z)
| JStr (s : string)
| JArr (items : list json)
| JObj (fields : list (string * json)).

(** What a handler did with the response object: [res.status(c).json(b)];
    [res.json(b)] alone answers with status 200. *)
Record Reply := mkReply { status : Z; body : json }.

(** A value thrown inside a handler.  [JsonWebTokenError] is the base class of
    the jsonwebtoken library; [TokenExpiredError] and [NotBeforeError] extend
    it. *)
Inductive Exn :=
| JsonWebTokenError (message : string)
| TokenExpiredError (message : string)
| NotBeforeError (message : string)
| OtherError (code : option string) (message : string).

Definition exn_message (e : Exn) : string :=
  match e with
  | JsonWebTokenError m | TokenExpiredError m | NotBeforeError m => m
  | OtherError _ m => m
  end.

Definition exn_code (e : Exn) : option string :=
  match e with
  | OtherError c _ => c
  | _ => None
  end.

(** [error instanceof jwt.JsonWebTokenError] *)
Definition instanceof_JsonWebTokenError (e : Exn) : bool :=
  match e with
  | JsonWebTokenError _ | TokenExpiredError _ | NotBeforeError _ => true
  | OtherError _ _ => false
  end.

(** [s.split(' ')]: the pieces between the separators, empty pieces kept. *)
Fixpoint split_on (sep : ascii) (s : string) : list string :=
  match s with
  | EmptyString => [EmptyString]
  | String c rest =>
      if Ascii.eqb c sep then EmptyString :: split_on sep rest
      else
        match split_on sep rest with
        | [] => [String c EmptyString]
        | piece :: pieces => String c piece :: pieces
        end
  end.

(** JS truthiness of a string that may be undefined. *)
Definition truthy_string (s : option string) : bool :=
  match s with
  | None | Some EmptyString => false
  | Some _ => true
  end.

(** The string behind a value known to be a string. *)
Definition the_string (s : option string) : string :=
  match s with Some t => t | None => "" end.

(** ** middleware/auth.ts *)

Module Auth.
Section Middleware.

(** The collaborators: the process environment, [jwt.verify] and the user
    repository.  A call either returns or throws. *)
Variable env_JWT_SECRET : option string.
Variable jwt_verify : string → string → Exn + (Z * string).
Variable findOne_by_id : Z → Exn + option User.

(** [process.env.JWT_SECRET || 'your-secret-key-here'] *)
Definition JWT_SECRET : string :=
  if truthy_string env_JWT_SECRET then the_string env_JWT_SECRET
  else "your-secret-key-here".

(** What one run of the middleware did: the reply it sent (if any), whether
    it called [next], and the user it attached to the request. *)
Record Outcome := mkOutcome {
  reply : option Reply;
  next_called : bool;
  req_user : option User
}.

Definition respond (code : Z) (b : json) : Outcome :=
  {| reply := Some (mkReply code b); next_called := false; req_user := None |}.

(** [authHeader && authHeader.split(' ')[1]] *)
Definition bearer_token (authHeader : option string) : option string :=
  match authHeader with
  | None => None
  | Some h => if truthy_string (Some h) then split_on " " h !! 1%nat else Some h
  end.

(** The [catch] block. *)
Definition auth_catch (e : Exn) : Outcome :=
  if instanceof_JsonWebTokenError e then
    respond 403 (JObj [("success", JBool false);
                       ("message", JStr "Invalid or expired token")])
  else
    respond 500 (JObj [("success", JBool false);
                       ("message", JStr "Authentication error");
                       ("error", JStr (exn_message e))]).

Definition authenticateToken (authHeader : option string) : Outcome :=
  let token := bearer_token authHeader in
  if negb (truthy_string token) then
    respond 401 (JObj [("success", JBool false);
                       ("message", JStr "Access token is required")])
  else
    match jwt_verify (the_string token) JWT_SECRET with
    | inl e => auth_catch e
    | inr (userId, _) =>
        match findOne_by_id userId with
        | inl e => auth_catch e
        | inr None =>
            respond 401 (JObj [("success", JBool false);
                               ("message", JStr "User not found")])
        | inr (Some user) =>
            {| reply := None; next_called := true; req_user := Some user |}
        end
    end.

(** routes/userRoutes.ts: [router.use(authenticateToken)] stands before
    every route, so a route handler runs exactly when the middleware called
    [next], and it sees the request with the attached user. *)
Definition protected_route {A} (handler : option User → A)
    (authHeader : option string) : Reply + A :=
  let o := authenticateToken authHeader in
  if next_called o then inr (handler (req_user o))
  else inl (default (mkReply 0 JNull) (reply o)).

(** The request is authenticated: its header yields a token, the token
    verifies against the secret, and its user id resolves to a user. *)
Definition authenticated (authHeader : option string) (user : User) : Prop :=
  ∃ token userId mail,
    bearer_token authHeader = Some token ∧ token ≠ "" ∧
    jwt_verify token JWT_SECRET = inr (userId, mail) ∧
    findOne_by_id userId = inr (Some user).

(** *** The token taken from the header *)

Example split_bearer : split_on " " "Bearer abc.def" = ["Bearer"; "abc.def"].
Proof. reflexivity. Qed.

Example split_keeps_empty_pieces :
  split_on " " "Bearer  x" = ["Bearer"; ""; "x"] ∧ split_on " " "" = [""] ∧
  split_on " " "Bearer " = ["Bearer"; ""].
Proof. done. Qed.

(** The second word of the header is the token; the first word, the scheme,
    is not looked at.  A header with no second word, or an empty one, yields
    no token. *)
Example bearer_token_examples :
  bearer_token (Some "Bearer abc.def") = Some "abc.def" ∧
  bearer_token (Some "Token abc.def") = Some "abc.def" ∧
  bearer_token (Some "Bearer") = None ∧
  truthy_string (bearer_token (Some "Bearer ")) = false ∧
  truthy_string (bearer_token (Some "")) = false ∧
  bearer_token None = None.
Proof. done. Qed.

(** *** Proofs *)

Lemma truthy_string_Some (s : option string) :
  truthy_string s = true ↔ ∃ t, s = Some t ∧ t ≠ "".
Proof.
  destruct s as [[| c t] |]; cbn; split; try done.
  - intros (t & [= <-] & Hne). done.
  - intros _. by eexists.
  - intros (t & [=] & _).
Qed.

Lemma auth_catch_blocks e :
  next_called (auth_catch e) = false ∧
  ∃ b, reply (auth_catch e) =
       Some (mkReply (if instanceof_JsonWebTokenError e then 403 else 500) b).
Proof.
  unfold auth_catch. destruct (instanceof_JsonWebTokenError e); cbn; eauto.
Qed.

Lemma authenticateToken_next_iff authHeader :
  next_called (authenticateToken authHeader) = true ↔
  ∃ user, authenticated authHeader user ∧
          req_user (authenticateToken authHeader) = Some user ∧
          reply (authenticateToken authHeader) = None.
Proof.
  unfold authenticateToken, authenticated. cbv zeta.
  destruct (truthy_string (bearer_token authHeader)) eqn:Htok; cbn [negb].
  - apply truthy_string_Some in Htok as (t & Ht & Hne). rewrite Ht. cbn [the_string].
    destruct (jwt_verify t JWT_SECRET) as [e | [uid mail]] eqn:Hv; cbv beta iota.
    { destruct (auth_catch_blocks e) as [Hn _]. rewrite Hn. split; [done |].
      intros (u & (t' & uid & mail & [= <-] & _ & Hv' & _) & _). congruence. }
    destruct (findOne_by_id uid) as [e | [u |]] eqn:Hf; cbv beta iota.
    + destruct (auth_catch_blocks e) as [Hn _]. rewrite Hn. split; [done |].
      intros (u & (t' & uid' & mail' & [= <-] & _ & Hv' & Hf') & _). congruence.
    + cbn. split; [| done]. intros _. exists u. split; [| done].
      by exists t, uid, mail.
    + cbn. split; [done |].
      intros (u & (t' & uid' & mail' & [= <-] & _ & Hv' & Hf') & _). congruence.
  - cbn. split; [done |].
    intros (u & (t & uid & mail & Ht & Hne & _) & _).
    assert (truthy_string (bearer_token authHeader) = true) as Hc
      by (apply truthy_string_Some; eauto).
    congruence.
Qed.

(** C10, amended: the middleware calls [next] exactly for an authenticated
    request, that is, when the second word of the Authorization header,
    whatever the scheme word before it, is a token that verifies and resolves
    to a user (it then attaches the user and sends nothing itself); in every
    other case
    it sends a reply and does not call [next]: 401 when the token is missing,
    403 when verification throws a JsonWebTokenError (invalid or expired),
    401 when the user is not found; and a protected route handler runs only
    for an authenticated request. *)
Theorem authenticateToken_gate (authHeader : option string) :
  let o := authenticateToken authHeader in
  (next_called o = true ↔
     ∃ user, authenticated authHeader user ∧ req_user o = Some user ∧ reply o = None) ∧
  (next_called o = false ↔ ∃ r, reply o = Some r) ∧
  (truthy_string (bearer_token authHeader) = false →
     next_called o = false ∧ ∃ b, reply o = Some (mkReply 401 b)) ∧
  (∀ token e, bearer_token authHeader = Some token → token ≠ "" →
     jwt_verify token JWT_SECRET = inl e → instanceof_JsonWebTokenError e = true →
     next_called o = false ∧ ∃ b, reply o = Some (mkReply 403 b)) ∧
  (∀ token userId mail, bearer_token authHeader = Some token → token ≠ "" →
     jwt_verify token JWT_SECRET = inr (userId, mail) →
     findOne_by_id userId = inr None →
     next_called o = false ∧ ∃ b, reply o = Some (mkReply 401 b)) ∧
  (∀ (A : Type) (handler : option User → A) (a : A),
     protected_route handler authHeader = inr a →
     ∃ user, authenticated authHeader user ∧ a = handler (Some user)).
Proof.
  cbv zeta. split; [apply authenticateToken_next_iff |]. split.
  { unfold authenticateToken. cbv zeta.
    destruct (truthy_string (bearer_token authHeader)); cbn [negb];
      [| cbn; split; eauto].
    destruct (jwt_verify _ _) as [e | [uid mail]]; cbv beta iota.
    { destruct (auth_catch_blocks e) as [Hn [b Hb]]. rewrite Hn, Hb. split; eauto. }
    destruct (findOne_by_id uid) as [e | [u |]]; cbv beta iota.
    - destruct (auth_catch_blocks e) as [Hn [b Hb]]. rewrite Hn, Hb. split; eauto.
    - cbn. split; [done | intros [r [=]]].
    - cbn. split; eauto. }
  split.
  { intros Htok. unfold authenticateToken. cbv zeta. rewrite Htok. cbn. eauto. }
  split.
  { intros t e Ht Hne Hv He. unfold authenticateToken. cbv zeta.
    assert (truthy_string (bearer_token authHeader) = true) as ->
      by (apply truthy_string_Some; eauto).
    rewrite Ht. cbn [negb the_string]. rewrite Hv.
    destruct (auth_catch_blocks e) as [Hn [b Hb]]. rewrite Hn, Hb, He. eauto. }
  split.
  { intros t uid mail Ht Hne Hv Hf. unfold authenticateToken. cbv zeta.
    assert (truthy_string (bearer_token authHeader) = true) as ->
      by (apply truthy_string_Some; eauto).
    rewrite Ht. cbn [negb the_string]. rewrite Hv, Hf. cbn. eauto. }
  intros A handler a. unfold protected_route. cbv zeta.
  destruct (next_called (authenticateToken authHeader)) eqn:Hn; [| done].
  intros [= <-]. apply authenticateToken_next_iff in Hn as (u & Ha & Hu & _).
  rewrite Hu. eauto.
Qed.

(** *** Further properties: the header, the issued token, other errors *)

(** [jwt.sign(payload, secret, { expiresIn: '24h' })] *)
Variable jwt_sign : Z * string → string → string.

Definition generateToken (userId : Z) (mail : string) : string :=
  jwt_sign (userId, mail) JWT_SECRET.

Fixpoint no_space (s : string) : bool :=
  match s with
  | EmptyString => true
  | String c rest => negb (Ascii.eqb c " ") && no_space rest
  end.

Lemma split_on_no_space s : no_space s = true → split_on " " s = [s].
Proof.
  induction s as [| c s IH]; [done |]. cbn [no_space split_on].
  intros H. apply andb_true_iff in H as [Hc Hs].
  apply negb_true_iff in Hc. rewrite Hc, (IH Hs). done.
Qed.

Lemma split_on_word s1 s2 :
  no_space s1 = true → split_on " " (s1 ++ String " " s2) = s1 :: split_on " " s2.
Proof.
  induction s1 as [| c s1 IH]; [done |].
  change (String c s1 ++ String " " s2) with (String c (s1 ++ String " " s2)).
  cbn [no_space split_on].
  intros H. apply andb_true_iff in H as [Hc Hs].
  apply negb_true_iff in Hc. rewrite Hc, (IH Hs). done.
Qed.

Lemma bearer_token_word scheme token :
  no_space scheme = true → no_space token = true →
  bearer_token (Some (scheme ++ String " " token)) = Some token.
Proof.
  intros Hs Ht. unfold bearer_token.
  assert (truthy_string (Some (scheme ++ String " " token)) = true) as ->
    by by destruct scheme.
  by rewrite split_on_word, split_on_no_space.
Qed.

(** X3: the middleware takes the second word of the Authorization header
    as the token and never looks at the first: with any scheme word in place
    of Bearer the outcome is the same. *)
Theorem scheme_is_ignored (scheme token : string) :
  no_space scheme = true → no_space token = true →
  bearer_token (Some (scheme ++ String " " token)) = Some token ∧
  authenticateToken (Some (scheme ++ String " " token)) =
  authenticateToken (Some ("Bearer" ++ String " " token)).
Proof.
  intros Hs Ht. split; [by apply bearer_token_word |].
  unfold authenticateToken. cbv zeta. by rewrite !bearer_token_word.
Qed.

(** X4: a token issued by generateToken for a stored user, sent back as
    "Bearer <token>" while jwt.verify still accepts it under the same secret,
    passes the middleware: next is called, nothing is sent, and the stored
    user is attached to the request. *)
Theorem issued_token_authenticates (user : User) :
  let token := generateToken (id user) (email user) in
  token ≠ "" → no_space token = true →
  jwt_verify token JWT_SECRET = inr (id user, email user) →
  findOne_by_id (id user) = inr (Some user) →
  authenticateToken (Some ("Bearer" ++ String " " token)) =
    {| reply := None; next_called := true; req_user := Some user |}.
Proof.
  cbv zeta. intros Hne Hns Hv Hf. unfold authenticateToken. cbv zeta.
  rewrite bearer_token_word by done.
  assert (truthy_string (Some (generateToken (id user) (email user))) = true) as ->.
  { apply truthy_string_Some. eauto. }
  cbn [negb the_string]. by rewrite Hv, Hf.
Qed.

(** X5: when jwt.verify or the repository throws anything that is not a
    JsonWebTokenError, the middleware answers 500 "Authentication error",
    puts the message of the error into the body, and does not call next. *)
Theorem other_errors_answer_500 (authHeader : option string) (token : string) (e : Exn) :
  bearer_token authHeader = Some token → token ≠ "" →
  instanceof_JsonWebTokenError e = false →
  jwt_verify token JWT_SECRET = inl e ∨
  (∃ userId mail, jwt_verify token JWT_SECRET = inr (userId, mail) ∧
                  findOne_by_id userId = inl e) →
  authenticateToken authHeader =
    respond 500 (JObj [("success", JBool false);
                       ("message", JStr "Authentication error");
                       ("error", JStr (exn_message e))]).
Proof.
  intros Ht Hne He Hthrow. unfold authenticateToken. cbv zeta.
  assert (truthy_string (bearer_token authHeader) = true) as ->
    by (apply truthy_string_Some; eauto).
  rewrite Ht. cbn [negb the_string].
  destruct Hthrow as [-> | (uid & mail & -> & ->)]; unfold auth_catch; by rewrite He.
Qed.

End Middleware.

(** A toy signer for the examples: the token is the decimal user id behind
    a fixed prefix, and it verifies for user 7 only. *)
Definition toy_user : User := mkUser 7 "Ann" "ann@example.com" "hash" None None 0 0.
Definition toy_sign (payload : Z * string) (secret : string) : string := "tok.7".
Definition toy_verify (token secret : string) : Exn + (Z * string) :=
  if String.eqb token "tok.7" then inr (7, "ann@example.com")
  else inl (JsonWebTokenError "invalid token").
Definition toy_find (userId : Z) : Exn + option User :=
  if (userId =? 7)%Z then inr (Some toy_user) else inr None.
Definition failing_find (userId : Z) : Exn + option User :=
  inl (OtherError None "SQLITE_BUSY: database is locked").

Lemma scheme_is_ignored_witness :
  bearer_token (Some ("Token" ++ String " " "tok.7")) = Some "tok.7" ∧
  authenticateToken None toy_verify toy_find (Some ("Token" ++ String " " "tok.7")) =
  authenticateToken None toy_verify toy_find (Some ("Bearer" ++ String " " "tok.7")).
Proof.
  apply (scheme_is_ignored None toy_verify toy_find "Token" "tok.7"); reflexivity.
Defined.

Lemma issued_token_authenticates_witness :
  authenticateToken None toy_verify toy_find
    (Some ("Bearer" ++ String " " (generateToken None toy_sign 7 "ann@example.com"))) =
    {| reply := None; next_called := true; req_user := Some toy_user |}.
Proof.
  apply (issued_token_authenticates None toy_verify toy_find toy_sign toy_user);
    [discriminate | reflexivity | reflexivity | reflexivity].
Defined.

Lemma other_errors_answer_500_witness :
  authenticateToken None toy_verify failing_find (Some "Bearer tok.7") =
    respond 500 (JObj [("success", JBool false);
                       ("message", JStr "Authentication error");
                       ("error", JStr (exn_message
                          (OtherError None "SQLITE_BUSY: database is locked")))]).
Proof.
  apply (other_errors_answer_500 None toy_verify failing_find (Some "Bearer tok.7") "tok.7");
    [reflexivity | discriminate | reflexivity |].
  right. exists 7, "ann@example.com". split; reflexivity.
Defined.

(** The request carries a Bearer token, in the words of the claim: the
    scheme word of its Authorization header is [Bearer]. *)
Definition carries_bearer (authHeader : option string) : bool :=
  match authHeader with
  | Some h =>
      match split_on " " h !! 0%nat with
      | Some scheme => String.eqb scheme "Bearer"
      | None => false
      end
  | None => false
  end.

(** C10, as stated, fails: the middleware never reads the scheme word.  A
    header with the scheme Basic, or with nothing before the space, carries
    no Bearer token, and the middleware calls [next] for it all the same, as
    long as its second word is a token that verifies for a stored user. *)
Lemma other_schemes_reach_next :
  carries_bearer (Some "Basic tok.7") = false ∧
  authenticateToken None toy_verify toy_find (Some "Basic tok.7") =
    {| reply := None; next_called := true; req_user := Some toy_user |} ∧
  carries_bearer (Some " tok.7") = false ∧
  authenticateToken None toy_verify toy_find (Some " tok.7") =
    {| reply := None; next_called := true; req_user := Some toy_user |} ∧
  carries_bearer (Some "Bearer tok.7") = true.
Proof. vm_compute. done. Qed.

End Auth.

(** ** controllers/userController.ts and controllers/authController.ts *)

Module Controllers.

(** A JS object as the list of its own enumerable properties. *)
Abbreviation object := (list (string * json)).

Definition get_prop (k : string) (o : object) : option json :=
  snd <$> List.find (λ kv, String.eqb (fst kv) k) o.

(** [const { password: _, ...rest } = o]: the rest pattern copies every own
    property but the one named. *)
Definition omit (k : string) (o : object) : object :=
  List.filter (λ kv, negb (String.eqb (fst kv) k)) o.

(** [{ ...a, ...b }]: the properties of [b] override those of [a]. *)
Definition spread (a b : object) : object :=
  (List.filter (λ kv, negb (existsb (λ kv', String.eqb (fst kv') (fst kv)) b)) a ++ b)%list.

Definition opt_json {A} (f : A → json) (o : option A) : json :=
  match o with Some a => f a | None => JNull end.

(** A [User] entity as the repository hands it out: one property per column. *)
Definition entity_object (u : User) : object :=
  [("id", JNum (id u)); ("name", JStr (name u)); ("email", JStr (email u));
   ("password", JStr (password u)); ("age", opt_json JNum (age u));
   ("city", opt_json JStr (city u)); ("createdAt", JNum (createdAt u));
   ("updatedAt", JNum (updatedAt u))].

(** JS truthiness of a property value that may be undefined. *)
Definition js_truthy (v : option json) : bool :=
  match v with
  | None | Some JNull | Some (JBool false) | Some (JNum 0) | Some (JStr "") => false
  | Some _ => true
  end.

(** A number that may be NaN or infinite, as [JSON.stringify] prints it. *)
Definition num_json (n : option Z) : json := opt_json JNum n.

(** [Math.ceil(total / limitNum)] *)
Definition ceil_div (total : Z) (limitNum : option Z) : option Z :=
  match limitNum with
  | None | Some 0 => None
  | Some l => Some (- ((- total) / l))
  end.

(** Does a property named [k] occur anywhere inside a JSON value? *)
Fixpoint has_key (k : string) (j : json) : bool :=
  match j with
  | JArr items => existsb (has_key k) items
  | JObj fields =>
      existsb (λ kv, match kv with (k', v) => String.eqb k' k || has_key k v end) fields
  | _ => false
  end.

(** [success: true] in a reply body. *)
Definition is_success (r : Reply) : bool :=
  match body r with
  | JObj (("success", JBool true) :: _) => true
  | _ => false
  end.

Section Handlers.

(** The collaborators.  [DB] is the state of the database behind
    [userRepository]; a repository call returns or throws. *)
Variable DB : Type.
Variable validate : object → list (list string).
Variable parseInt : string → option Z.
Variable repo_save : DB → object → Exn + (DB * User).
Variable repo_update : DB → option Z → object → Exn + DB.
Variable findOne_by_id : DB → option Z → Exn + option User.
Variable findOne_by_email : DB → option json → Exn + option User.
Variable getManyAndCount : DB → list (string * string) → option Z → option Z → Exn + (list User * Z).
Variable bcrypt_hash : option json → Exn + string.
Variable bcrypt_compare : option json → string → Exn + bool.
Variable generateToken : Z → string → string.

Definition send (code : Z) (fields : object) : Reply := mkReply code (JObj fields).

(** [errors.map(e => Object.values(e.constraints || {}).join(', ')).join('; ')] *)
Definition errorMessages (errors : list (list string)) : string :=
  String.concat "; " (List.map (String.concat ", ") errors).

Definition validation_failed (errors : list (list string)) : Reply :=
  send 400 [("success", JBool false); ("message", JStr "Validation failed");
            ("errors", JStr (errorMessages errors))].

Definition failure (code : Z) (msg : string) : Reply :=
  send code [("success", JBool false); ("message", JStr msg)].

Definition failure_with (msg : string) (e : Exn) : Reply :=
  send 500 [("success", JBool false); ("message", JStr msg);
            ("error", JStr (exn_message e))].

(** The [catch] block of [createUser] and [updateUser]. *)
Definition unique_or (msg : string) (e : Exn) : Reply :=
  if decide (exn_code e = Some "SQLITE_CONSTRAINT_UNIQUE")
  then failure 400 "Email already exists"
  else failure_with msg e.

(** [const { password: _, ...userResponse } = user] *)
Definition userResponse (u : User) : json := JObj (omit "password" (entity_object u)).

Definition createUser (db : DB) (req_body : object) : DB * Reply :=
  let userData := req_body in
  let errors := validate userData in
  if (0 <? length errors)%nat then (db, validation_failed errors)
  else
    match repo_save db userData with
    | inl e => (db, unique_or "Failed to create user" e)
    | inr (db', savedUser) =>
        (db', send 201 [("success", JBool true);
                        ("message", JStr "User created successfully");
                        ("data", userResponse savedUser)])
    end.

Definition getUsers (db : DB) (req_query : list (string * string)) : DB * Reply :=
  let param k := snd <$> List.find (λ kv, String.eqb (fst kv) k) req_query in
  let pageNum := match param "page" with Some p => parseInt p | None => Some 1 end in
  let limitNum := match param "limit" with Some l => parseInt l | None => Some 10 end in
  match getManyAndCount db req_query pageNum limitNum with
  | inl e => (db, failure_with "Failed to fetch users" e)
  | inr (users, total) =>
      let usersWithoutPasswords := List.map userResponse users in
      (db, send 200 [("success", JBool true);
                     ("data", JArr usersWithoutPasswords);
                     ("pagination", JObj [("page", num_json pageNum);
                                          ("limit", num_json limitNum);
                                          ("total", JNum total);
                                          ("totalPages", num_json (ceil_div total limitNum))])])
  end.

Definition getUserById (db : DB) (id_param : string) : DB * Reply :=
  match findOne_by_id db (parseInt id_param) with
  | inl e => (db, failure_with "Failed to fetch user" e)
  | inr None => (db, failure 404 "User not found")
  | inr (Some user) =>
      (db, send 200 [("success", JBool true); ("data", userResponse user)])
  end.

Definition updateUser (db : DB) (id_param : string) (req_body : object) : DB * Reply :=
  match findOne_by_id db (parseInt id_param) with
  | inl e => (db, unique_or "Failed to update user" e)
  | inr None => (db, failure 404 "User not found")
  | inr (Some user) =>
      let updatedUserData := spread (entity_object user) req_body in
      let errors := validate updatedUserData in
      if (0 <? length errors)%nat then (db, validation_failed errors)
      else
        match repo_update db (parseInt id_param) req_body with
        | inl e => (db, unique_or "Failed to update user" e)
        | inr db' =>
            match findOne_by_id db' (parseInt id_param) with
            | inl e => (db', unique_or "Failed to update user" e)
            | inr None =>
                (* destructuring null throws a TypeError *)
                (db', failure_with "Failed to update user"
                        (OtherError None "Cannot destructure property of null"))
            | inr (Some updatedUser) =>
                (db', send 200 [("success", JBool true);
                                ("message", JStr "User updated successfully");
                                ("data", userResponse updatedUser)])
            end
        end
  end.

Definition auth_data (u : User) (token : string) : json :=
  JObj [("user", userResponse u); ("token", JStr token)].

Definition register (db : DB) (req_body : object) : DB * Reply :=
  let email := get_prop "email" req_body in
  let password := get_prop "password" req_body in
  match findOne_by_email db email with
  | inl e => (db, failure_with "Failed to register user" e)
  | inr (Some existingUser) => (db, failure 400 "User with this email already exists")
  | inr None =>
      match bcrypt_hash password with
      | inl e => (db, failure_with "Failed to register user" e)
      | inr hashedPassword =>
          let prop k := match get_prop k req_body with Some v => [(k, v)] | None => [] end in
          let userData :=
            (prop "email" ++ [("password", JStr hashedPassword)] ++
             prop "name" ++ prop "age" ++ prop "city")%list in
          let errors := validate userData in
          if (0 <? length errors)%nat then (db, validation_failed errors)
          else
            match repo_save db userData with
            | inl e => (db, failure_with "Failed to register user" e)
            | inr (db', savedUser) =>
                let token := generateToken (id savedUser) (Problem5.email savedUser) in
                (db', send 201 [("success", JBool true);
                                ("message", JStr "User registered successfully");
                                ("data", auth_data savedUser token)])
            end
      end
  end.

Definition login (db : DB) (req_body : object) : DB * Reply :=
  let email := get_prop "email" req_body in
  let password := get_prop "password" req_body in
  if negb (js_truthy email) || negb (js_truthy password) then
    (db, failure 400 "Email and password are required")
  else
    match findOne_by_email db email with
    | inl e => (db, failure_with "Failed to login" e)
    | inr None => (db, failure 401 "Invalid email or password")
    | inr (Some user) =>
        match bcrypt_compare password (Problem5.password user) with
        | inl e => (db, failure_with "Failed to login" e)
        | inr false => (db, failure 401 "Invalid email or password")
        | inr true =>
            let token := generateToken (id user) (Problem5.email user) in
            (db, send 200 [("success", JBool true);
                           ("message", JStr "Login successful");
                           ("data", auth_data user token)])
        end
    end.

Definition getProfile (db : DB) (req_user : option User) : DB * Reply :=
  match req_user with
  | None => (db, failure 401 "User not authenticated")
  | Some user =>
      (db, send 200 [("success", JBool true); ("data", userResponse user)])
  end.

(** *** Proofs *)

(** The rest pattern drops the named property from any object. *)
Lemma omit_removes k (o : object) : get_prop k (omit k o) = None.
Proof.
  unfold get_prop, omit. induction o as [| [k' v] o IH]; [done |].
  cbn [List.filter fst]. destruct (String.eqb k' k) eqn:Hk; cbn [negb]; [done |].
  cbn [List.find fst]. by rewrite Hk.
Qed.

Lemma omit_keeps k k' (o : object) : k' ≠ k → get_prop k' (omit k o) = get_prop k' o.
Proof.
  intros Hne. unfold get_prop, omit. induction o as [| [k1 v] o IH]; [done |].
  cbn [List.filter List.find fst].
  destruct (String.eqb_spec k1 k) as [-> | Hk]; cbn [negb].
  - destruct (String.eqb_spec k k') as [-> | _]; [done | exact IH].
  - cbn [List.find fst]. destruct (String.eqb k1 k'); [done | exact IH].
Qed.

Lemma has_key_userResponse u : has_key "password" (userResponse u) = false.
Proof. destruct u as [? ? ? ? [a |] [c |] ? ?]; reflexivity. Qed.

Lemma userResponse_keeps u :
  userResponse u =
  JObj [("id", JNum (id u)); ("name", JStr (name u)); ("email", JStr (email u));
        ("age", opt_json JNum (age u)); ("city", opt_json JStr (city u));
        ("createdAt", JNum (createdAt u)); ("updatedAt", JNum (updatedAt u))].
Proof. reflexivity. Qed.

Lemma has_key_obj_cons k k' v fields :
  has_key k (JObj ((k', v) :: fields)) =
  (String.eqb k' k || has_key k v) || has_key k (JObj fields).
Proof. reflexivity. Qed.

Lemma has_key_users users :
  has_key "password" (JArr (List.map userResponse users)) = false.
Proof.
  cbn [has_key]. induction users as [| u users IH]; [reflexivity |].
  cbn [List.map existsb]. by rewrite has_key_userResponse, IH.
Qed.

Lemma has_key_num_json k n : has_key k (num_json n) = false.
Proof. by destruct n. Qed.

Lemma has_key_auth_data u token : has_key "password" (auth_data u token) = false.
Proof.
  unfold auth_data. cbn -[userResponse]. by rewrite has_key_userResponse.
Qed.

Lemma unique_or_not_success msg e : is_success (unique_or msg e) = false.
Proof. unfold unique_or. by case_decide. Qed.

Ltac password_free :=
  cbn -[userResponse auth_data num_json];
  rewrite ?has_key_userResponse, ?has_key_auth_data, ?has_key_num_json;
  reflexivity.

Lemma createUser_omits db req_body :
  is_success (createUser db req_body).2 = true →
  has_key "password" (body (createUser db req_body).2) = false.
Proof.
  unfold createUser. cbv zeta.
  destruct (0 <? length _)%nat; [done |].
  destruct (repo_save db req_body) as [e | [db' u]]; cbn [snd].
  - by rewrite unique_or_not_success.
  - intros _. password_free.
Qed.

Lemma getUsers_omits db req_query :
  is_success (getUsers db req_query).2 = true →
  has_key "password" (body (getUsers db req_query).2) = false.
Proof.
  unfold getUsers. cbv zeta.
  destruct (getManyAndCount _ _ _ _) as [e | [users total]]; [done |].
  intros _. cbn [snd send body].
  rewrite !has_key_obj_cons, has_key_users. password_free.
Qed.

Lemma getUserById_omits db id_param :
  is_success (getUserById db id_param).2 = true →
  has_key "password" (body (getUserById db id_param).2) = false.
Proof.
  unfold getUserById.
  destruct (findOne_by_id _ _) as [e | [u |]]; [done | | done].
  intros _. password_free.
Qed.

Lemma updateUser_omits db id_param req_body :
  is_success (updateUser db id_param req_body).2 = true →
  has_key "password" (body (updateUser db id_param req_body).2) = false.
Proof.
  unfold updateUser. cbv zeta.
  destruct (findOne_by_id db _) as [e | [u |]]; cbn [snd];
    [by rewrite unique_or_not_success | | done].
  destruct (0 <? length _)%nat; [done |].
  destruct (repo_update _ _ _) as [e | db']; cbn [snd];
    [by rewrite unique_or_not_success |].
  destruct (findOne_by_id db' _) as [e | [u' |]]; cbn [snd];
    [by rewrite unique_or_not_success | | done].
  intros _. password_free.
Qed.

Lemma register_omits db req_body :
  is_success (register db req_body).2 = true →
  has_key "password" (body (register db req_body).2) = false.
Proof.
  unfold register. cbv zeta.
  destruct (findOne_by_email _ _) as [e | [u |]]; [done | done |].
  destruct (bcrypt_hash _) as [e | h]; [done |].
  destruct (0 <? length _)%nat; [done |].
  destruct (repo_save _ _) as [e | [db' u]]; [done |].
  intros _. password_free.
Qed.

Lemma login_omits db req_body :
  is_success (login db req_body).2 = true →
  has_key "password" (body (login db req_body).2) = false.
Proof.
  unfold login. cbv zeta.
  destruct (negb _ || negb _); [done |].
  destruct (findOne_by_email _ _) as [e | [u |]]; [done | | done].
  destruct (bcrypt_compare _ _) as [e | [|]]; [done | | done].
  intros _. password_free.
Qed.

Lemma getProfile_omits db req_user :
  is_success (getProfile db req_user).2 = true →
  has_key "password" (body (getProfile db req_user).2) = false.
Proof.
  destruct req_user as [u |]; [| done]. intros _. password_free.
Qed.

(** C9: whatever the request and whatever the repository returns, a success
    reply of createUser, getUsers, getUserById, updateUser, register, login
    or getProfile has no property named password anywhere in its body. *)
Theorem success_replies_omit_password
    (db : DB) (req_body : object) (req_query : list (string * string))
    (id_param : string) (req_user : option User) :
  let password_free (r : DB * Reply) :=
    is_success r.2 = true → has_key "password" (body r.2) = false in
  password_free (createUser db req_body) ∧
  password_free (getUsers db req_query) ∧
  password_free (getUserById db id_param) ∧
  password_free (updateUser db id_param req_body) ∧
  password_free (register db req_body) ∧
  password_free (login db req_body) ∧
  password_free (getProfile db req_user).
Proof.
  cbv zeta. repeat split.
  - apply createUser_omits.
  - apply getUsers_omits.
  - apply getUserById_omits.
  - apply updateUser_omits.
  - apply register_omits.
  - apply login_omits.
  - apply getProfile_omits.
Qed.

(** *** Further properties: deleteUser, status codes, writes, login *)

Variable repo_remove : DB → User → Exn + DB.

Definition deleteUser (db : DB) (id_param : string) : DB * Reply :=
  match findOne_by_id db (parseInt id_param) with
  | inl e => (db, failure_with "Failed to delete user" e)
  | inr None => (db, failure 404 "User not found")
  | inr (Some user) =>
      match repo_remove db user with
      | inl e => (db, failure_with "Failed to delete user" e)
      | inr db' =>
          (db', send 200 [("success", JBool true);
                          ("message", JStr "User deleted successfully")])
      end
  end.

(** The status is one the controllers use, and [success: true] goes with
    200 and 201 only. *)
Definition well_formed (r : Reply) : Prop :=
  In (status r) [200; 201; 400; 401; 404; 500]%Z ∧
  (is_success r = true ↔ (status r = 200 ∨ status r = 201)%Z).

Lemma well_formed_failure code msg :
  In code [400; 401; 404; 500]%Z → well_formed (failure code msg).
Proof.
  intros Hin. split.
  - cbn in *. intuition.
  - cbn. split; [done |]. cbn in Hin. intros [-> | ->]; intuition; discriminate.
Qed.

Lemma well_formed_failure_with msg e : well_formed (failure_with msg e).
Proof. split; cbn; [intuition | split; [done | intros [? | ?]; discriminate]]. Qed.

Lemma well_formed_unique_or msg e : well_formed (unique_or msg e).
Proof.
  unfold unique_or. case_decide.
  - apply well_formed_failure. cbn. intuition.
  - apply well_formed_failure_with.
Qed.

Lemma well_formed_validation errors : well_formed (validation_failed errors).
Proof. split; cbn; [intuition | split; [done | intros [? | ?]; discriminate]]. Qed.

Lemma well_formed_success code fields :
  (code = 200 ∨ code = 201)%Z →
  well_formed (send code (("success", JBool true) :: fields)).
Proof. intros [-> | ->]; split; cbn; intuition. Qed.

Ltac shape :=
  first [ apply well_formed_failure_with
        | apply well_formed_unique_or
        | apply well_formed_validation
        | apply well_formed_success; auto
        | apply well_formed_failure; cbn; intuition ].

(** X6: every reply of the eight controllers carries one of the statuses
    200, 201, 400, 401, 404, 500, and its body says [success: true] exactly
    when the status is 200 or 201. *)
Theorem replies_are_well_formed
    (db : DB) (req_body : object) (req_query : list (string * string))
    (id_param : string) (req_user : option User) :
  well_formed (createUser db req_body).2 ∧
  well_formed (getUsers db req_query).2 ∧
  well_formed (getUserById db id_param).2 ∧
  well_formed (updateUser db id_param req_body).2 ∧
  well_formed (deleteUser db id_param).2 ∧
  well_formed (register db req_body).2 ∧
  well_formed (login db req_body).2 ∧
  well_formed (getProfile db req_user).2.
Proof.
  split_and!.
  - unfold createUser. cbv zeta. destruct (0 <? length _)%nat; [shape |].
    destruct (repo_save _ _) as [e | [db' u]]; shape.
  - unfold getUsers. cbv zeta.
    destruct (getManyAndCount _ _ _ _) as [e | [users total]]; shape.
  - unfold getUserById. destruct (findOne_by_id _ _) as [e | [u |]]; shape.
  - unfold updateUser. cbv zeta.
    destruct (findOne_by_id db _) as [e | [u |]]; [shape | | shape].
    destruct (0 <? length _)%nat; [shape |].
    destruct (repo_update _ _ _) as [e | db']; [shape |].
    destruct (findOne_by_id db' _) as [e | [u' |]]; shape.
  - unfold deleteUser. destruct (findOne_by_id _ _) as [e | [u |]]; [shape | | shape].
    destruct (repo_remove _ _) as [e | db']; shape.
  - unfold register. cbv zeta.
    destruct (findOne_by_email _ _) as [e | [u |]]; [shape | shape |].
    destruct (bcrypt_hash _) as [e | h]; [shape |].
    destruct (0 <? length _)%nat; [shape |].
    destruct (repo_save _ _) as [e | [db' u]]; shape.
  - unfold login. cbv zeta. destruct (negb _ || negb _); [shape |].
    destruct (findOne_by_email _ _) as [e | [u |]]; [shape | | shape].
    destruct (bcrypt_compare _ _) as [e | [|]]; shape.
  - destruct req_user as [u |]; cbn [getProfile snd]; shape.
Qed.

(** X7: the controllers that read never write, whatever they answer; a
    create, a registration or a deletion that does not answer success leaves
    the database as it was; and the only database an update can leave behind
    is the one [userRepository.update] returned for the request. *)
Theorem only_successful_writes
    (db : DB) (req_body : object) (req_query : list (string * string))
    (id_param : string) (req_user : option User) :
  (getUsers db req_query).1 = db ∧
  (getUserById db id_param).1 = db ∧
  (login db req_body).1 = db ∧
  (getProfile db req_user).1 = db ∧
  (is_success (createUser db req_body).2 = false → (createUser db req_body).1 = db) ∧
  (is_success (register db req_body).2 = false → (register db req_body).1 = db) ∧
  (is_success (deleteUser db id_param).2 = false → (deleteUser db id_param).1 = db) ∧
  ((updateUser db id_param req_body).1 = db ∨
   repo_update db (parseInt id_param) req_body = inr (updateUser db id_param req_body).1) ∧
  (is_success (updateUser db id_param req_body).2 = true →
   repo_update db (parseInt id_param) req_body = inr (updateUser db id_param req_body).1).
Proof.
  split_and!.
  - unfold getUsers. cbv zeta. by destruct (getManyAndCount _ _ _ _) as [e | [users total]].
  - unfold getUserById. by destruct (findOne_by_id _ _) as [e | [u |]].
  - unfold login. cbv zeta. destruct (negb _ || negb _); [done |].
    destruct (findOne_by_email _ _) as [e | [u |]]; [done | | done].
    by destruct (bcrypt_compare _ _) as [e | [|]].
  - by destruct req_user.
  - unfold createUser. cbv zeta. destruct (0 <? length _)%nat; [done |].
    by destruct (repo_save _ _) as [e | [db' u]].
  - unfold register. cbv zeta.
    destruct (findOne_by_email _ _) as [e | [u |]]; [done | done |].
    destruct (bcrypt_hash _) as [e | h]; [done |].
    destruct (0 <? length _)%nat; [done |].
    by destruct (repo_save _ _) as [e | [db' u]].
  - unfold deleteUser. destruct (findOne_by_id _ _) as [e | [u |]]; [done | | done].
    by destruct (repo_remove _ _) as [e | db'].
  - unfold updateUser. cbv zeta.
    destruct (findOne_by_id db _) as [e | [u |]]; [by left | | by left].
    destruct (0 <? length _)%nat; [by left |].
    destruct (repo_update _ _ _) as [e | db']; [by left |]. right.
    by destruct (findOne_by_id db' _) as [e | [u' |]].
  - unfold updateUser. cbv zeta.
    destruct (findOne_by_id db _) as [e | [u |]]; cbn [snd];
      [by rewrite unique_or_not_success | | done].
    destruct (0 <? length _)%nat; [done |].
    destruct (repo_update _ _ _) as [e | db']; cbn [snd];
      [by rewrite unique_or_not_success |].
    by destruct (findOne_by_id db' _) as [e | [u' |]].
Qed.

(** X8: login answers an unknown email and a wrong password alike: the
    same status 401 and the same body, so the reply does not tell which
    emails are registered. *)
Theorem login_does_not_tell (db : DB) (unknown wrong : object) (user : User) :
  js_truthy (get_prop "email" unknown) = true →
  js_truthy (get_prop "password" unknown) = true →
  js_truthy (get_prop "email" wrong) = true →
  js_truthy (get_prop "password" wrong) = true →
  findOne_by_email db (get_prop "email" unknown) = inr None →
  findOne_by_email db (get_prop "email" wrong) = inr (Some user) →
  bcrypt_compare (get_prop "password" wrong) (password user) = inr false →
  login db unknown = login db wrong ∧
  (login db unknown).2 = failure 401 "Invalid email or password".
Proof.
  intros He1 Hp1 He2 Hp2 Hnone Hsome Hcmp. unfold login. cbv zeta.
  rewrite He1, Hp1, He2, Hp2. cbn [negb orb]. by rewrite Hnone, Hsome, Hcmp.
Qed.

(** X9: the spread [{ ...user, ...req.body }] that updateUser validates
    reads, for every property, the value of the body when the body has the
    property and the stored value otherwise. *)
Theorem spread_lookup (k : string) (stored given : object) :
  get_prop k (spread stored given) =
  match get_prop k given with
  | Some v => Some v
  | None => get_prop k stored
  end.
Proof.
  unfold spread, get_prop.
  assert (Hfind : ∀ (l1 l2 : object),
            List.find (λ kv, String.eqb (fst kv) k) (l1 ++ l2)%list =
            match List.find (λ kv, String.eqb (fst kv) k) l1 with
            | Some x => Some x
            | None => List.find (λ kv, String.eqb (fst kv) k) l2
            end).
  { intros l1 l2. induction l1 as [| x l1 IH]; [done |]. cbn [app List.find].
    by destruct (String.eqb (fst x) k). }
  rewrite Hfind.
  destruct (List.find (λ kv, String.eqb (fst kv) k) given) as [[k' v] |] eqn:Hg.
  - assert (Hk : k' = k).
    { apply find_some in Hg as [_ Hk]. by apply String.eqb_eq in Hk. }
    subst k'.
    assert (List.find (λ kv, String.eqb (fst kv) k)
              (List.filter (λ kv, negb (existsb (λ kv', String.eqb (fst kv') (fst kv)) given))
                 stored) = None) as ->; [| done].
    assert (Hex : existsb (λ kv', String.eqb (fst kv') k) given = true).
    { apply existsb_exists. exists (k, v). apply find_some in Hg as [Hin' _].
      split; [done | apply String.eqb_refl]. }
    clear Hg. induction stored as [| [k1 v1] stored IH]; [done |].
    cbn [List.filter fst].
    destruct (existsb (λ kv', String.eqb (fst kv') k1) given) eqn:Hex1; cbn [negb];
      [exact IH |].
    cbn [List.find fst]. destruct (String.eqb_spec k1 k) as [-> | ?]; [congruence | exact IH].
  - cbn [fmap option_fmap option_map].
    assert (Hnone : ∀ kv, In kv given → String.eqb (fst kv) k = false)
      by (intros kv Hin; exact (find_none _ _ Hg kv Hin)).
    assert (List.find (λ kv, String.eqb (fst kv) k)
              (List.filter (λ kv, negb (existsb (λ kv', String.eqb (fst kv') (fst kv)) given))
                 stored) = List.find (λ kv, String.eqb (fst kv) k) stored) as ->.
    { clear Hg. induction stored as [| [k1 v1] stored IH]; [done |].
      cbn [List.filter List.find fst].
      destruct (existsb (λ kv', String.eqb (fst kv') k1) given) eqn:Hex; cbn [negb].
      - destruct (String.eqb_spec k1 k) as [-> | ?]; [| exact IH].
        apply existsb_exists in Hex as (kv & Hin & Hk). rewrite (Hnone kv Hin) in Hk. done.
      - cbn [List.find fst]. destruct (String.eqb k1 k); [done | exact IH]. }
    by destruct (List.find (λ kv, String.eqb (fst kv) k) stored).
Qed.

(** X10: [Math.ceil(total / limitNum)] in the pagination of getUsers: for a
    positive limit totalPages is the least number of pages that hold all
    users; for the limit 0, or one that does not parse, it is no number
    (JSON null). *)
Theorem totalPages_covers (total limitNum : Z) :
  (0 < limitNum)%Z →
  (∃ pages, ceil_div total (Some limitNum) = Some pages ∧
            ((pages - 1) * limitNum < total <= pages * limitNum)%Z) ∧
  num_json (ceil_div total (Some 0%Z)) = JNull ∧
  num_json (ceil_div total None) = JNull.
Proof.
  intros Hl. split; [| done].
  exists (- ((- total) / limitNum))%Z. split.
  - unfold ceil_div. by destruct limitNum.
  - pose proof (Z.div_mod (- total) limitNum ltac:(lia)).
    pose proof (Z.mod_pos_bound (- total) limitNum Hl). nia.
Qed.

End Handlers.

(** Toy collaborators for the examples: a database of one user. *)
Definition ann : User := mkUser 7 "Ann" "ann@example.com" "$2a$12$hash" None None 0 0.

Definition ann_by_email (db : unit) (mail : option json) : Exn + option User :=
  match mail with
  | Some (JStr "ann@example.com") => inr (Some ann)
  | _ => inr None
  end.

Definition never_matches (given : option json) (stored : string) : Exn + bool := inr false.
Definition toy_token (userId : Z) (mail : string) : string := "tok".

Lemma login_does_not_tell_witness :
  login unit ann_by_email never_matches toy_token tt
    [("email", JStr "bob@example.com"); ("password", JStr "guess")] =
  login unit ann_by_email never_matches toy_token tt
    [("email", JStr "ann@example.com"); ("password", JStr "guess")] ∧
  (login unit ann_by_email never_matches toy_token tt
     [("email", JStr "bob@example.com"); ("password", JStr "guess")]).2
  = mkReply 401 (JObj [("success", JBool false);
                       ("message", JStr "Invalid email or password")]).
Proof.
  apply (login_does_not_tell unit ann_by_email never_matches toy_token tt
           [("email", JStr "bob@example.com"); ("password", JStr "guess")]
           [("email", JStr "ann@example.com"); ("password", JStr "guess")] ann);
    reflexivity.
Defined.

Lemma totalPages_covers_witness :
  (∃ pages, ceil_div 25 (Some 10%Z) = Some pages ∧
            ((pages - 1) * 10 < 25 <= pages * 10)%Z) ∧
  num_json (ceil_div 25 (Some 0%Z)) = JNull ∧
  num_json (ceil_div 25 None) = JNull.
Proof. apply (totalPages_covers 25 10). reflexivity. Defined.

End Controllers.

(** ** routes/userRoutes.ts

    The router.  [router.use(authenticateToken)] runs for every request that
    enters the router, whatever its method and path; the five routes follow.
    The path is the list of segments below the mount point: [[]] is ['/'] and
    [[id]] is ['/:id'].  A request no route takes leaves the router without a
    reply of its own. *)

Module UserRoutes.
Import Auth Controllers.

(** The methods of a request.  Express hands a HEAD request to the GET
    route when the path has no HEAD route of its own.  [OtherMethod] stands
    for a method that no route takes and the router does not answer itself
    (PATCH, for one); OPTIONS, which the router answers itself from the
    routes that match the path, is not modelled. *)
Inductive Method := GET | HEAD | POST | PUT | DELETE | OtherMethod.

Record Request := mkRequest {
  method : Method;
  path : list string;
  authorization : option string;
  req_body : object;
  req_query : list (string * string)
}.

Section Router.

Variable env_JWT_SECRET : option string.
Variable jwt_verify : string → string → Exn + (Z * string).
Variable DB : Type.
Variable validate : object → list (list string).
Variable parseInt : string → option Z.
Variable repo_save : DB → object → Exn + (DB * User).
Variable repo_update : DB → option Z → object → Exn + DB.
Variable repo_remove : DB → User → Exn + DB.
Variable findOne_by_id : DB → option Z → Exn + option User.
Variable getManyAndCount :
  DB → list (string * string) → option Z → option Z → Exn + (list User * Z).

Definition answered (out : DB * Reply) : DB * option Reply := (out.1, Some out.2).

(** The five routes, in the order of the file. *)
Definition routes (db : DB) (req : Request) : DB * option Reply :=
  match method req, path req with
  | POST, [] => answered (createUser DB validate repo_save db (req_body req))
  | GET, [] | HEAD, [] =>
      answered (getUsers DB parseInt getManyAndCount db (req_query req))
  | GET, [id] | HEAD, [id] => answered (getUserById DB parseInt findOne_by_id db id)
  | PUT, [id] =>
      answered (updateUser DB validate parseInt repo_update findOne_by_id db id (req_body req))
  | DELETE, [id] => answered (deleteUser DB parseInt findOne_by_id repo_remove db id)
  | _, _ => (db, None)
  end.

(** The middleware looks the user of the token up in the same repository. *)
Definition user_of_token (db : DB) (userId : Z) : Exn + option User :=
  findOne_by_id db (Some userId).

Definition router (db : DB) (req : Request) : DB * option Reply :=
  match protected_route env_JWT_SECRET jwt_verify (user_of_token db)
          (λ _, routes db req) (authorization req) with
  | inl refusal => (db, Some refusal)
  | inr out => out
  end.

Definition is_authenticated (db : DB) (req : Request) : Prop :=
  ∃ user, authenticated env_JWT_SECRET jwt_verify (user_of_token db) (authorization req) user.

Lemma auth_catch_refusal e :
  ∃ code fields,
    auth_catch e = respond code (JObj (("success", JBool false) :: fields)) ∧
    In code [401; 403; 500]%Z.
Proof.
  unfold auth_catch. destruct (instanceof_JsonWebTokenError e);
    eexists _, _; (split; [reflexivity | cbn; intuition]).
Qed.

Lemma authenticateToken_refusal (find : Z → Exn + option User) authHeader :
  next_called (authenticateToken env_JWT_SECRET jwt_verify find authHeader) = false →
  ∃ code fields,
    reply (authenticateToken env_JWT_SECRET jwt_verify find authHeader) =
      Some (mkReply code (JObj (("success", JBool false) :: fields))) ∧
    In code [401; 403; 500]%Z.
Proof.
  unfold authenticateToken. cbv zeta.
  destruct (negb _); [intros _; eexists _, _; split; [reflexivity | cbn; intuition] |].
  destruct (jwt_verify _ _) as [e | [uid mail]].
  { intros _. destruct (auth_catch_refusal e) as (c & f & -> & Hc). by exists c, f. }
  destruct (find uid) as [e | [u |]].
  - intros _. destruct (auth_catch_refusal e) as (c & f & -> & Hc). by exists c, f.
  - done.
  - intros _. eexists _, _; split; [reflexivity | cbn; intuition].
Qed.

(** X11: a request that is not authenticated reaches no controller: the
    router leaves the database as it was, whatever the method, the path and
    the body, and answers 401, 403 or 500 with [success: false]. *)
Theorem unauthenticated_request_changes_nothing (db : DB) (req : Request) :
  (∀ user, ¬ authenticated env_JWT_SECRET jwt_verify (user_of_token db)
               (authorization req) user) →
  (router db req).1 = db ∧
  ∃ r, (router db req).2 = Some r ∧ In (status r) [401; 403; 500]%Z ∧
       is_success r = false.
Proof.
  intros Hno. unfold router, protected_route. cbv zeta.
  destruct (next_called _) eqn:Hn.
  - apply authenticateToken_next_iff in Hn as (user & Ha & _). by destruct (Hno user).
  - apply authenticateToken_refusal in Hn as (code & fields & -> & Hc).
    split; [done |]. eexists. split; [reflexivity |]. by split.
Qed.

Lemma createUser_write db body :
  (createUser DB validate repo_save db body).1 ≠ db →
  is_success (createUser DB validate repo_save db body).2 = true.
Proof.
  unfold createUser. cbv zeta. destruct (0 <? length _)%nat; [done |].
  by destruct (repo_save _ _) as [e | [db' u]].
Qed.

Lemma deleteUser_write db id :
  (deleteUser DB parseInt findOne_by_id repo_remove db id).1 ≠ db →
  is_success (deleteUser DB parseInt findOne_by_id repo_remove db id).2 = true.
Proof.
  unfold deleteUser. destruct (findOne_by_id _ _) as [e | [u |]]; [done | | done].
  by destruct (repo_remove _ _) as [e | db'].
Qed.

Lemma getUsers_reads db q : (getUsers DB parseInt getManyAndCount db q).1 = db.
Proof.
  unfold getUsers. cbv zeta. by destruct (getManyAndCount _ _ _ _) as [e | [users total]].
Qed.

Lemma getUserById_reads db id : (getUserById DB parseInt findOne_by_id db id).1 = db.
Proof. unfold getUserById. by destruct (findOne_by_id _ _) as [e | [u |]]. Qed.

(** X12: a request changes the database only if it is authenticated and is
    a POST to ['/'] or a DELETE to ['/:id'] that the controller answered with
    success, or a PUT to ['/:id']; every GET, every other method and every
    other path leave the database as it was. *)
Theorem router_writes_only_for (db : DB) (req : Request) :
  (router db req).1 ≠ db →
  is_authenticated db req ∧
  ((method req = POST ∧ path req = [] ∧
    ∃ r, (router db req).2 = Some r ∧ is_success r = true) ∨
   (∃ id, method req = DELETE ∧ path req = [id] ∧
    ∃ r, (router db req).2 = Some r ∧ is_success r = true) ∨
   (∃ id, method req = PUT ∧ path req = [id])).
Proof.
  unfold router, protected_route, is_authenticated. cbv zeta.
  destruct (next_called _) eqn:Hn; [| done].
  apply authenticateToken_next_iff in Hn as (user & Ha & _).
  intros Hch. split; [by exists user |]. revert Hch. unfold routes.
  destruct (method req) eqn:Hm, (path req) as [| id [| id' rest]] eqn:Hp;
    cbn [answered fst snd]; try done; intros Hch.
  - by destruct Hch; apply getUsers_reads.
  - by destruct Hch; apply getUserById_reads.
  - by destruct Hch; apply getUsers_reads.
  - by destruct Hch; apply getUserById_reads.
  - left. split_and!; [done | done |]. eexists. split; [reflexivity |].
    by apply createUser_write.
  - right. right. by exists id.
  - right. left. exists id. split_and!; [done | done |]. eexists.
    split; [reflexivity |]. by apply deleteUser_write.
Qed.

(** X13: an update can be written and still be answered with an error: when
    the read after [userRepository.update] throws or finds nothing, the
    router answers 400 or 500 with [success: false] although the database is
    the updated one. *)
Theorem update_written_but_refused (db db' : DB) (req : Request) (id : string)
    (stored : User) :
  is_authenticated db req →
  method req = PUT → path req = [id] →
  findOne_by_id db (parseInt id) = inr (Some stored) →
  validate (spread (entity_object stored) (req_body req)) = [] →
  repo_update db (parseInt id) (req_body req) = inr db' →
  (∀ u, findOne_by_id db' (parseInt id) ≠ inr (Some u)) →
  (router db req).1 = db' ∧
  ∃ r, (router db req).2 = Some r ∧ is_success r = false ∧
       In (status r) [400; 500]%Z.
Proof.
  intros (user & Ha) Hm Hp Hfind Hval Hupd Hre.
  assert (Hn : next_called (authenticateToken env_JWT_SECRET jwt_verify (user_of_token db)
                              (authorization req)) = true).
  { apply authenticateToken_next_iff.
    unfold authenticated in Ha. destruct Ha as (t & uid & mail & Ht & Hne & Hv & Hf).
    unfold authenticateToken. cbv zeta.
    assert (truthy_string (bearer_token (authorization req)) = true) as Htr
      by (apply truthy_string_Some; eauto).
    rewrite Htr, Ht. cbn [negb the_string]. rewrite Hv, Hf. cbn. eexists. split; [| done].
    by exists t, uid, mail. }
  unfold router, protected_route. cbv zeta. rewrite Hn. unfold routes.
  rewrite Hm, Hp. unfold updateUser. cbv zeta. rewrite Hfind, Hval. cbn [length Nat.ltb Nat.leb].
  rewrite Hupd.
  destruct (findOne_by_id db' (parseInt id)) as [e | [u |]] eqn:Hf2.
  - cbn [answered fst snd]. split; [done |]. eexists. split; [reflexivity |].
    split; [apply unique_or_not_success |].
    unfold unique_or. case_decide; cbn; intuition.
  - by destruct (Hre u).
  - cbn [answered fst snd]. split; [done |]. eexists. split; [reflexivity |].
    split; [done | cbn; intuition].
Qed.

End Router.

(** Toy collaborators for the examples.  The database is the number of
    writes made so far; user 7 is stored, and the connection is lost after
    the first write. *)
Definition toy_validate (o : object) : list (list string) := [].
Definition toy_parseInt (s : string) : option Z :=
  if String.eqb s "7" then Some 7%Z else None.
Definition toy_save (db : nat) (o : object) : Exn + (nat * User) := inr (S db, toy_user).
Definition toy_update (db : nat) (id : option Z) (o : object) : Exn + nat := inr (S db).
Definition toy_remove (db : nat) (u : User) : Exn + nat := inr (S db).
Definition toy_findOne (db : nat) (id : option Z) : Exn + option User :=
  match db, id with
  | O, Some 7%Z => inr (Some toy_user)
  | O, _ => inr None
  | S _, _ => inl (OtherError None "connection lost")
  end.
Definition toy_many (db : nat) (q : list (string * string)) (p l : option Z) :
    Exn + (list User * Z) := inr ([], 0%Z).

Definition toy_router : nat → Request → nat * option Reply :=
  router None toy_verify nat toy_validate toy_parseInt toy_save toy_update toy_remove
    toy_findOne toy_many.

Definition toy_authenticated : nat → Request → Prop :=
  is_authenticated None toy_verify nat toy_findOne.

Lemma toy_authenticated_bearer m p b q :
  toy_authenticated 0 (mkRequest m p (Some "Bearer tok.7") b q).
Proof.
  exists toy_user, "tok.7", 7%Z, "ann@example.com". split_and!; done.
Qed.

Lemma unauthenticated_request_changes_nothing_witness :
  (toy_router 0 (mkRequest DELETE ["7"] None [] [])).1 = 0%nat ∧
  ∃ r, (toy_router 0 (mkRequest DELETE ["7"] None [] [])).2 = Some r ∧
       In (status r) [401; 403; 500]%Z ∧ is_success r = false.
Proof.
  apply (unauthenticated_request_changes_nothing None toy_verify nat toy_validate
           toy_parseInt toy_save toy_update toy_remove toy_findOne toy_many 0%nat
           (mkRequest DELETE ["7"] None [] [])).
  intros user (t & uid & mail & Ht & _). discriminate Ht.
Defined.

Lemma router_writes_only_for_witness :
  let req := mkRequest POST [] (Some "Bearer tok.7") [("name", JStr "Bob")] [] in
  toy_authenticated 0 req ∧
  ((method req = POST ∧ path req = [] ∧
    ∃ r, (toy_router 0 req).2 = Some r ∧ is_success r = true) ∨
   (∃ id, method req = DELETE ∧ path req = [id] ∧
    ∃ r, (toy_router 0 req).2 = Some r ∧ is_success r = true) ∨
   (∃ id, method req = PUT ∧ path req = [id])).
Proof.
  apply (router_writes_only_for None toy_verify nat toy_validate toy_parseInt toy_save
           toy_update toy_remove toy_findOne toy_many 0%nat
           (mkRequest POST [] (Some "Bearer tok.7") [("name", JStr "Bob")] [])).
  vm_compute. discriminate.
Defined.

Lemma update_written_but_refused_witness :
  let req := mkRequest PUT ["7"] (Some "Bearer tok.7") [("name", JStr "Bob")] [] in
  (toy_router 0 req).1 = 1%nat ∧
  ∃ r, (toy_router 0 req).2 = Some r ∧ is_success r = false ∧
       In (status r) [400; 500]%Z.
Proof.
  apply (update_written_but_refused None toy_verify nat toy_validate toy_parseInt toy_save
           toy_update toy_remove toy_findOne toy_many 0%nat 1%nat
           (mkRequest PUT ["7"] (Some "Bearer tok.7") [("name", JStr "Bob")] []) "7"
           toy_user);
    [apply toy_authenticated_bearer | reflexivity | reflexivity | reflexivity
    | reflexivity | reflexivity | discriminate].
Defined.

End UserRoutes.

End Problem5.

(** * Problem 6: the score board service (README.md) *)

Module ScoreBoard.

Local Open Scope string_scope.
Local Open Scope Z_scope.

(** ** The durable store *)

(** A row of [actions], with the columns the handler's INSERT names. *)
Record Action := mkAction {
  action_id : string;
  a_user_id : string;
  action_type : string;
  score_value : Z;
  action_timestamp : Z
}.

(** A row of [scores]. *)
Record Score := mkScore {
  user_id : string;
  current_score : Z;
  total_actions : Z;
  last_action_at : option Z
}.

Record Db := mkDb { actions : list Action; scores : list Score }.

(** The README gives two alternative uniqueness rules for [actions]:
    the unique index [idx_actions_unique_per_user] on (action_id, user_id),
    or the constraint [unique_action_id] on action_id alone. *)
Inductive Uniqueness := UniquePerUser | UniqueGlobal.

Definition constraint_name (sch : Uniqueness) : string :=
  match sch with
  | UniquePerUser => "idx_actions_unique_per_user"
  | UniqueGlobal => "unique_action_id"
  end.

Definition conflicts (sch : Uniqueness) (r r' : Action) : bool :=
  match sch with
  | UniquePerUser =>
      String.eqb (action_id r') (action_id r) && String.eqb (a_user_id r') (a_user_id r)
  | UniqueGlobal => String.eqb (action_id r') (action_id r)
  end.

(** What a statement can fail with: a violated constraint (the error carries
    its name in [error.constraint]) or a value outside the column's type. *)
Inductive DbError :=
| UniqueViolation (constraint : string)
| NumericOutOfRange.

(** The columns [score_value], [current_score] and [total_actions] are INT:
    PostgreSQL rejects a value outside 32 bits, it does not wrap. *)
Definition int4 (z : Z) : bool := (- 2 ^ 31 <=? z) && (z <=? 2 ^ 31 - 1).

(** [SELECT id FROM actions WHERE action_id = $1 AND user_id = $2] *)
Definition select_existing (actionId userId : string) (acts : list Action) : list Action :=
  List.filter (λ r, String.eqb (action_id r) actionId && String.eqb (a_user_id r) userId) acts.

(** [INSERT INTO actions (...) VALUES ($1, $2, $3, $4, $5)] *)
Definition insert_action (sch : Uniqueness) (r : Action) (acts : list Action)
  : DbError + list Action :=
  if negb (int4 (score_value r)) then inl NumericOutOfRange
  else if existsb (conflicts sch r) acts then inl (UniqueViolation (constraint_name sch))
  else inr (acts ++ [r])%list.

Definition bump (v t : Z) (s : Score) : Score :=
  {| user_id := user_id s;
     current_score := current_score s + v;
     total_actions := total_actions s + 1;
     last_action_at := Some t |}.

(** [UPDATE scores SET current_score = current_score + $1,
     total_actions = total_actions + 1, last_action_at = $2
     WHERE user_id = $3 RETURNING current_score, total_actions]:
    the new table and the returned rows. *)
Definition update_scores (v t : Z) (userId : string) (scs : list Score)
  : DbError + (list Score * list Score) :=
  let hit s := String.eqb (user_id s) userId in
  let returning := List.map (bump v t) (List.filter hit scs) in
  if forallb (λ s, int4 (current_score s) && int4 (total_actions s)) returning
  then inr (List.map (λ s, if hit s then bump v t s else s) scs, returning)
  else inl NumericOutOfRange.

(** ** The lock service (Redis) *)

Definition lockKey (userId actionId : string) : string :=
  "action_lock:" ++ userId ++ ":" ++ actionId.

(** [redis.set(lockKey, '1', 'EX', ttl, 'NX')]: sets the key only when it is
    absent.  The set of keys present is the state; the expiry of a key is a
    step of the environment (see [Expire] below). *)
Definition acquireLock (userId actionId : string) (locks : gset string)
  : bool * gset string :=
  let k := lockKey userId actionId in
  if decide (k ∈ locks) then (false, locks) else (true, {[k]} ∪ locks).

(** [redis.del(lockKey)] *)
Definition releaseLock (userId actionId : string) (locks : gset string) : gset string :=
  locks ∖ {[lockKey userId actionId]}.

(** ** POST /api/v1/scores/update *)

Record Store := mkStore { db : Db; locks : gset string }.

(** One call of the handler: [req.user.id], the request body, and the
    reading of [new Date()] while it runs. *)
Record Call := mkCall {
  userId : string;
  actionId : string;
  actionType : string;
  scoreIncrement : Z;
  clock : Z
}.

Inductive Failure :=
| DbFailure (e : DbError)
| TypeError.

(** How a call ends: the success body, a 409 with an error code, or an
    error thrown out of the handler. *)
Inductive Response :=
| Ok (newScore scoreIncrement : Z)
| Conflict (code : string)
| Thrown (e : Failure).

Definition row_of (c : Call) : Action :=
  mkAction (actionId c) (userId c) (actionType c) (scoreIncrement c) (clock c).

(** The [catch] block, after its ROLLBACK:
    [error.constraint === 'unique_action_id'] answers 409, anything else is
    thrown again. *)
Definition handler_catch (e : Failure) : Response :=
  match e with
  | DbFailure (UniqueViolation "unique_action_id") => Conflict "DUPLICATE_ACTION"
  | _ => Thrown e
  end.

(** Step 3, BEGIN to COMMIT, and the success body built from
    [result.rows[0]].  [db] is one session of the store for the call, so
    BEGIN and COMMIT bracket one transaction, which the store runs
    atomically: a statement that fails leaves, after the ROLLBACK, the
    database as it was.  When the UPDATE returns no row, reading
    [rows[0].current_score] throws after the COMMIT, and the ROLLBACK of the
    catch block has nothing to undo. *)
Definition transaction (sch : Uniqueness) (c : Call) (d : Db) : Response * Db :=
  match insert_action sch (row_of c) (actions d) with
  | inl e => (handler_catch (DbFailure e), d)
  | inr acts' =>
      match update_scores (scoreIncrement c) (clock c) (userId c) (scores d) with
      | inl e => (handler_catch (DbFailure e), d)
      | inr (scs', rows) =>
          let d' := mkDb acts' scs' in
          match rows with
          | [] => (handler_catch TypeError, d')
          | row :: _ => (Ok (current_score row) (scoreIncrement c), d')
          end
      end
  end.

(** Steps 2 and 3: the body of the [try]. *)
Definition try_body (sch : Uniqueness) (c : Call) (d : Db) : Response * Db :=
  if (0 <? length (select_existing (actionId c) (userId c) (actions d)))%nat
  then (Conflict "DUPLICATE_ACTION", d)
  else transaction sch c d.

(** The handler, run without interruption. *)
Definition update_handler (sch : Uniqueness) (c : Call) (st : Store) : Response * Store :=
  let '(lockAcquired, locks1) := acquireLock (userId c) (actionId c) (locks st) in
  if negb lockAcquired then (Conflict "CONCURRENT_REQUEST", st)
  else
    let '(r, d') := try_body sch c (db st) in
    (r, mkStore d' (releaseLock (userId c) (actionId c) locks1)).

(** ** Concurrent calls

    Each [await] of the handler is a point where another call can run.  A
    call in flight is at one of these points.  The statements from BEGIN to
    COMMIT, with the ROLLBACK of the catch block, are taken as one step.
    That is what they do when no statement of another call comes between
    them ([Statements.alone_is_transaction] below), as for the calls that
    race for one lock while the lock does not expire.  When the statements
    of two calls mix on the connection they share, the calls can do what no
    order of these steps does ([Statements.mixed_statements_split_the_pair]).
    The uniqueness of the action ids and the growth of the tables do not
    rest on the grouping ([Statements.statements_keep_ids_unique_and_rows]). *)
Inductive Pc :=
| AtAcquire
| AtCheck
| AtTransaction
| AtRelease (r : Response)
| Finished (r : Response).

Definition step (sch : Uniqueness) (c : Call) (pc : Pc) (st : Store) : Pc * Store :=
  match pc with
  | AtAcquire =>
      let '(lockAcquired, locks1) := acquireLock (userId c) (actionId c) (locks st) in
      if negb lockAcquired then (Finished (Conflict "CONCURRENT_REQUEST"), st)
      else (AtCheck, mkStore (db st) locks1)
  | AtCheck =>
      if (0 <? length (select_existing (actionId c) (userId c) (actions (db st))))%nat
      then (AtRelease (Conflict "DUPLICATE_ACTION"), st)
      else (AtTransaction, st)
  | AtTransaction =>
      let '(r, d') := transaction sch c (db st) in
      (AtRelease r, mkStore d' (locks st))
  | AtRelease r =>
      (Finished r, mkStore (db st) (releaseLock (userId c) (actionId c) (locks st)))
  | Finished r => (Finished r, st)
  end.

(** The calls in flight with the store they share. *)
Record System := mkSystem { calls : list (Call * Pc); store : Store }.

(** What happens next: call number [i] takes its next step, or the TTL of a
    lock key runs out. *)
Inductive Event :=
| Run (i : nat)
| Expire (key : string).

Definition fire (sch : Uniqueness) (sys : System) (ev : Event) : System :=
  match ev with
  | Run i =>
      match calls sys !! i with
      | Some (c, pc) =>
          let '(pc', st') := step sch c pc (store sys) in
          mkSystem (<[i := (c, pc')]> (calls sys)) st'
      | None => sys
      end
  | Expire key =>
      mkSystem (calls sys) (mkStore (db (store sys)) (locks (store sys) ∖ {[key]}))
  end.

Definition run (sch : Uniqueness) (sys : System) (schedule : list Event) : System :=
  fold_left (fire sch) schedule sys.

Definition response_of (pc : Pc) : option Response :=
  match pc with Finished r => Some r | _ => None end.

Definition quiescent (sys : System) : bool :=
  forallb (λ cp, bool_decide (is_Some (response_of cp.2))) (calls sys).

Definition is_ok (r : Response) : bool :=
  match r with Ok _ _ => true | _ => false end.

(** ** The ledger invariant *)

(** The sum of the values of the actions committed for a principal. *)
Fixpoint score_sum (u : string) (acts : list Action) : Z :=
  match acts with
  | [] => 0
  | r :: acts' =>
      if String.eqb (a_user_id r) u then score_value r + score_sum u acts'
      else score_sum u acts'
  end.

Definition ledger_inv (d : Db) : bool :=
  forallb (λ s, current_score s =? score_sum (user_id s) (actions d)) (scores d).

(** The table [scores] after a committed update for [c]. *)
Definition scores_after (c : Call) (scs : list Score) : list Score :=
  List.map (λ s, if String.eqb (user_id s) (userId c)
                 then bump (scoreIncrement c) (clock c) s else s) scs.

(** ** Proofs: the transaction *)

Lemma score_sum_app u (acts acts' : list Action) :
  score_sum u (acts ++ acts')%list = score_sum u acts + score_sum u acts'.
Proof.
  induction acts as [| r acts IH]; cbn [app score_sum]; [lia |].
  destruct (String.eqb _ _); lia.
Qed.

Lemma score_sum_snoc u acts c :
  score_sum u (acts ++ [row_of c])%list =
  score_sum u acts + (if String.eqb (userId c) u then scoreIncrement c else 0).
Proof.
  rewrite score_sum_app. cbn [score_sum row_of a_user_id score_value].
  destruct (String.eqb _ _); lia.
Qed.

(** What [transaction] can do: roll back, or commit the row and the bumped
    scores; it answers success exactly when it commits and the UPDATE
    returned a row. *)
Lemma transaction_cases sch c d :
  (∃ e, transaction sch c d = (handler_catch (DbFailure e), d)) ∨
  (insert_action sch (row_of c) (actions d) = inr (actions d ++ [row_of c])%list ∧
   ((List.filter (λ s, String.eqb (user_id s) (userId c)) (scores d) = [] ∧
     transaction sch c d =
       (Thrown TypeError, mkDb (actions d ++ [row_of c])%list (scores_after c (scores d)))) ∨
    (∃ s rest,
       List.filter (λ s, String.eqb (user_id s) (userId c)) (scores d) = s :: rest ∧
       int4 (current_score s + scoreIncrement c) = true ∧
       transaction sch c d =
         (Ok (current_score s + scoreIncrement c) (scoreIncrement c),
          mkDb (actions d ++ [row_of c])%list (scores_after c (scores d)))))).
Proof.
  unfold transaction, insert_action.
  destruct (negb (int4 _)); [left; eauto |].
  destruct (existsb _ _); [left; eauto |].
  unfold update_scores. cbv zeta.
  destruct (forallb _ _) eqn:Hrange; [| left; eauto].
  right. split; [done |].
  destruct (List.filter _ (scores d)) as [| s rest] eqn:Hf; cbn [List.map].
  - left. done.
  - right. exists s, rest. split; [done |]. split; [| done].
    cbn in Hrange. by destruct (int4 (current_score s + scoreIncrement c)).
Qed.

Lemma handler_catch_not_ok e : is_ok (handler_catch e) = false.
Proof. destruct e as [[k |] |]; cbn; try done. by repeat case_match. Qed.

Lemma ledger_inv_commit c d :
  ledger_inv d = true →
  ledger_inv (mkDb (actions d ++ [row_of c])%list (scores_after c (scores d))) = true.
Proof.
  unfold ledger_inv, scores_after. cbn [actions scores].
  rewrite !forallb_forall. intros Hinv s' Hin.
  apply in_map_iff in Hin as (s & <- & Hin). specialize (Hinv s Hin).
  apply Z.eqb_eq in Hinv. apply Z.eqb_eq.
  destruct (String.eqb_spec (user_id s) (userId c)) as [Heq | Hne].
  - cbn. rewrite score_sum_snoc, Heq, String.eqb_refl. rewrite <- Heq. lia.
  - rewrite score_sum_snoc.
    destruct (String.eqb_spec (userId c) (user_id s)); [congruence | lia].
Qed.

Lemma transaction_ledger_inv sch c d :
  ledger_inv d = true → ledger_inv (transaction sch c d).2 = true.
Proof.
  intros Hinv.
  destruct (transaction_cases sch c d) as [[e ->] | [_ [[_ ->] | (s & rest & _ & _ & ->)]]];
    cbn [snd]; auto using ledger_inv_commit.
Qed.

Lemma try_body_ledger_inv sch c d :
  ledger_inv d = true → ledger_inv (try_body sch c d).2 = true.
Proof.
  intros Hinv. unfold try_body.
  destruct (0 <? _)%nat; [done | by apply transaction_ledger_inv].
Qed.

Lemma update_handler_db sch c st :
  db (update_handler sch c st).2 = db st ∨
  db (update_handler sch c st).2 = (try_body sch c (db st)).2.
Proof.
  unfold update_handler, acquireLock. cbv zeta.
  case_decide; cbn [negb]; [by left |].
  destruct (try_body sch c (db st)). by right.
Qed.

Lemma update_handler_ledger_inv sch c st :
  ledger_inv (db st) = true → ledger_inv (db (update_handler sch c st).2) = true.
Proof.
  intros Hinv. destruct (update_handler_db sch c st) as [-> | ->];
    [done | by apply try_body_ledger_inv].
Qed.


(** ** Proofs: replays *)

Lemma select_existing_app a u (acts acts' : list Action) :
  select_existing a u (acts ++ acts')%list =
  (select_existing a u acts ++ select_existing a u acts')%list.
Proof. unfold select_existing. apply List.filter_app. Qed.

Lemma select_existing_row c :
  select_existing (actionId c) (userId c) [row_of c] = [row_of c].
Proof.
  unfold select_existing. cbn. by rewrite !String.eqb_refl.
Qed.

(** A call that finds a row for its (action_id, user_id) answers 409
    DUPLICATE_ACTION, or CONCURRENT_REQUEST when the lock is taken, and
    changes neither table. *)
Lemma update_handler_existing sch c st :
  select_existing (actionId c) (userId c) (actions (db st)) ≠ [] →
  db (update_handler sch c st).2 = db st ∧
  (lockKey (userId c) (actionId c) ∉ locks st →
   update_handler sch c st = (Conflict "DUPLICATE_ACTION", st)) ∧
  (lockKey (userId c) (actionId c) ∈ locks st →
   update_handler sch c st = (Conflict "CONCURRENT_REQUEST", st)).
Proof.
  intros Hex. unfold update_handler, acquireLock, try_body. cbv zeta.
  destruct (select_existing _ _ _) as [| r l]; [done |]. cbn [length Nat.ltb Nat.leb].
  case_decide as Hlock; cbn [negb snd db].
  - split; [done |]. split; [done |]. done.
  - split; [done |]. split; [| done]. intros _. f_equal.
    destruct st as [d lk]. cbn [db locks] in *. f_equal.
    unfold releaseLock. set_solver.
Qed.


(** ** Proofs: uniqueness of action ids *)

Lemma conflicts_global_iff r (acts : list Action) :
  existsb (conflicts UniqueGlobal r) acts = true ↔ action_id r ∈ action_id <$> acts.
Proof.
  rewrite existsb_exists, list_elem_of_fmap. unfold conflicts. split.
  - intros (r' & Hin & Heq). apply String.eqb_eq in Heq.
    exists r'. split; [done | by apply list_elem_of_In].
  - intros (r' & Heq & Hin). exists r'. split; [by apply list_elem_of_In |].
    by apply String.eqb_eq.
Qed.

Lemma insert_action_global_NoDup r (acts acts' : list Action) :
  NoDup (action_id <$> acts) →
  insert_action UniqueGlobal r acts = inr acts' →
  NoDup (action_id <$> acts').
Proof.
  intros Hnd. unfold insert_action.
  destruct (negb (int4 _)); [done |].
  destruct (existsb _ _) eqn:Hex; [done |]. intros [= <-].
  rewrite fmap_app. apply NoDup_app. split; [done |]. split; [| apply NoDup_singleton].
  intros x Hx Hx'. apply list_elem_of_singleton in Hx' as ->.
  apply conflicts_global_iff in Hx. congruence.
Qed.

Lemma transaction_global_NoDup c d :
  NoDup (action_id <$> actions d) →
  NoDup (action_id <$> actions (transaction UniqueGlobal c d).2).
Proof.
  intros Hnd.
  destruct (transaction_cases UniqueGlobal c d)
    as [[e ->] | [Hins [[_ ->] | (s & rest & _ & _ & ->)]]]; cbn [snd actions]; [done | |];
    by eapply insert_action_global_NoDup.
Qed.

Lemma step_global_NoDup c pc st :
  NoDup (action_id <$> actions (db st)) →
  NoDup (action_id <$> actions (db (step UniqueGlobal c pc st).2)).
Proof.
  intros Hnd. destruct pc; cbn [step]; try done.
  - unfold acquireLock. cbv zeta. by case_decide.
  - by destruct (0 <? _)%nat.
  - pose proof (transaction_global_NoDup c (db st) Hnd) as H.
    by destruct (transaction UniqueGlobal c (db st)).
Qed.

Lemma run_global_NoDup schedule : ∀ sys,
  NoDup (action_id <$> actions (db (store sys))) →
  NoDup (action_id <$> actions (db (store (run UniqueGlobal sys schedule)))).
Proof.
  unfold run. induction schedule as [| ev schedule IH]; intros sys Hnd; [done |].
  cbn [fold_left]. apply IH. destruct ev as [i | key]; cbn [fire]; [| done].
  destruct (calls sys !! i) as [[c pc] |]; [| done].
  pose proof (step_global_NoDup c pc (store sys) Hnd) as H.
  by destruct (step UniqueGlobal c pc (store sys)).
Qed.

Lemma update_handler_global_NoDup c st :
  NoDup (action_id <$> actions (db st)) →
  NoDup (action_id <$> actions (db (update_handler UniqueGlobal c st).2)).
Proof.
  intros Hnd. destruct (update_handler_db UniqueGlobal c st) as [-> | ->]; [done |].
  unfold try_body. destruct (0 <? _)%nat; [done |]. by apply transaction_global_NoDup.
Qed.

(** Under either rule the pair (action_id, user_id) stays unique. *)
Lemma conflicts_pair sch r (acts : list Action) :
  existsb (conflicts sch r) acts = false →
  (action_id r, a_user_id r) ∉ (λ r', (action_id r', a_user_id r')) <$> acts.
Proof.
  intros Hex Hin. apply list_elem_of_fmap in Hin as (r' & [= Ha Hu] & Hin).
  assert (existsb (conflicts sch r) acts = true); [| congruence].
  apply existsb_exists. exists r'. split; [by apply list_elem_of_In |].
  unfold conflicts. rewrite Ha, Hu, !String.eqb_refl. by destruct sch.
Qed.

Lemma update_handler_pair_NoDup sch c st :
  NoDup ((λ r, (action_id r, a_user_id r)) <$> actions (db st)) →
  NoDup ((λ r, (action_id r, a_user_id r)) <$> actions (db (update_handler sch c st).2)).
Proof.
  intros Hnd. destruct (update_handler_db sch c st) as [-> | ->]; [done |].
  unfold try_body. destruct (0 <? _)%nat; [done |].
  assert (Hins : ∀ acts', insert_action sch (row_of c) (actions (db st)) = inr acts' →
            NoDup ((λ r, (action_id r, a_user_id r)) <$> acts')).
  { unfold insert_action. intros acts'.
    destruct (negb (int4 _)); [done |].
    destruct (existsb _ _) eqn:Hex; [done |]. intros [= <-].
    rewrite fmap_app. apply NoDup_app. split; [done |]. split; [| apply NoDup_singleton].
    intros x Hx Hx'. apply list_elem_of_singleton in Hx' as ->.
    by apply (conflicts_pair sch (row_of c) (actions (db st))). }
  destruct (transaction_cases sch c (db st))
    as [[e ->] | [Hi [[_ ->] | (s & rest & _ & _ & ->)]]]; cbn [snd actions]; auto.
Qed.

(** An action id already committed, by whichever principal: under the
    global constraint the transaction rolls back. *)
Lemma transaction_global_taken c d :
  actionId c ∈ action_id <$> actions d →
  (transaction UniqueGlobal c d).2 = d ∧
  is_ok (transaction UniqueGlobal c d).1 = false ∧
  (int4 (scoreIncrement c) = true →
   (transaction UniqueGlobal c d).1 = Conflict "DUPLICATE_ACTION").
Proof.
  intros Hin. unfold transaction, insert_action.
  destruct (int4 (score_value (row_of c))) eqn:Hv; cbn [negb].
  - assert (existsb (conflicts UniqueGlobal (row_of c)) (actions d) = true) as ->
      by by apply conflicts_global_iff.
    done.
  - cbn in Hv. rewrite Hv. done.
Qed.

(** A store for the examples: Alice has committed action a1 for 50
    points; Bob has committed nothing. *)
Definition alice_a1 : Action := mkAction "a1" "alice" "task_completion" 50 1000.

Definition example_store : Store :=
  mkStore (mkDb [alice_a1]
                [mkScore "alice" 50 1 (Some 1000); mkScore "bob" 0 0 None])
          ∅.

Definition bob_replays_a1 : Call := mkCall "bob" "a1" "task_completion" 50 2000.

(** C4, as stated, fails under the per-user index: Bob's call with Alice's
    action id commits, and two action rows carry the id a1. *)
Lemma per_user_index_admits_foreign_replay :
  (update_handler UniquePerUser bob_replays_a1 example_store).1 = Ok 50 50 ∧
  action_id <$> actions (db (update_handler UniquePerUser bob_replays_a1 example_store).2)
    = ["a1"; "a1"] ∧
  a_user_id <$> actions (db (update_handler UniquePerUser bob_replays_a1 example_store).2)
    = ["alice"; "bob"].
Proof. vm_compute. done. Qed.

(** C4, amended: with the constraint [unique_action_id] in force, no two
    action rows ever share an action id, across all principals, through
    every call and every interleaving of calls; and a call whose action id
    has been committed by any principal never succeeds and changes neither
    table: it answers DUPLICATE_ACTION when it gets the lock and its increment
    fits the column. *)
Theorem action_id_global_under_constraint (c : Call) (st : Store)
    (inflight : list (Call * Pc)) (schedule : list Event) :
  NoDup (action_id <$> actions (db st)) →
  NoDup (action_id <$> actions (db (update_handler UniqueGlobal c st).2)) ∧
  NoDup (action_id <$> actions (db (store (run UniqueGlobal (mkSystem inflight st) schedule)))) ∧
  (actionId c ∈ action_id <$> actions (db st) →
   is_ok (update_handler UniqueGlobal c st).1 = false ∧
   db (update_handler UniqueGlobal c st).2 = db st ∧
   (lockKey (userId c) (actionId c) ∉ locks st → int4 (scoreIncrement c) = true →
    (update_handler UniqueGlobal c st).1 = Conflict "DUPLICATE_ACTION")).
Proof.
  intros Hnd. split; [by apply update_handler_global_NoDup |].
  split; [by apply run_global_NoDup |].
  intros Hin.
  destruct (transaction_global_taken c (db st) Hin) as (Hdb & Hnok & Hdup).
  unfold update_handler, acquireLock, try_body. cbv zeta.
  case_decide as Hlock; cbn [negb fst snd db]; [done |].
  destruct (0 <? _)%nat; cbn [fst snd db]; [done |].
  destruct (transaction UniqueGlobal c (db st)) as [r d'].
  cbn [fst snd db] in *. subst d'. auto.
Qed.

Lemma action_id_global_under_constraint_witness :
  NoDup (action_id <$> actions (db (update_handler UniqueGlobal bob_replays_a1 example_store).2)) ∧
  NoDup (action_id <$> actions (db (store (run UniqueGlobal
           (mkSystem [(bob_replays_a1, AtAcquire)] example_store) [Run 0%nat; Run 0%nat])))) ∧
  (actionId bob_replays_a1 ∈ action_id <$> actions (db example_store) →
   is_ok (update_handler UniqueGlobal bob_replays_a1 example_store).1 = false ∧
   db (update_handler UniqueGlobal bob_replays_a1 example_store).2 = db example_store ∧
   (lockKey (userId bob_replays_a1) (actionId bob_replays_a1) ∉ locks example_store →
    int4 (scoreIncrement bob_replays_a1) = true →
    (update_handler UniqueGlobal bob_replays_a1 example_store).1 = Conflict "DUPLICATE_ACTION")).
Proof.
  apply (action_id_global_under_constraint bob_replays_a1 example_store).
  cbn. apply NoDup_singleton.
Defined.

Definition alice_next : Call := mkCall "alice" "a2" "task_completion" 10 3000.


(** ** The missing bound on the increment *)

Definition alice_oversized : Call := mkCall "alice" "a2" "task_completion" 5000 3000.

(** C6: the handler applies an increment of 5000, five times the documented
    maximum of 1000, under either uniqueness rule: the action row is
    inserted and the score moves from 50 to 5050. *)
Theorem oversized_increment_commits (sch : Uniqueness) :
  (update_handler sch alice_oversized example_store).1 = Ok 5050 5000 ∧
  actions (db (update_handler sch alice_oversized example_store).2)
    = [alice_a1; mkAction "a2" "alice" "task_completion" 5000 3000] ∧
  scores (db (update_handler sch alice_oversized example_store).2)
    = [mkScore "alice" 5050 2 (Some 3000); mkScore "bob" 0 0 None].
Proof. destruct sch; vm_compute; done. Qed.

(** ** Proofs: concurrent calls for one action *)

(** A call started on its own runs to its end in four steps, and the four
    steps together are the handler. *)
Lemma four_steps_are_the_handler sch c st :
  run sch (mkSystem [(c, AtAcquire)] st) [Run 0%nat; Run 0%nat; Run 0%nat; Run 0%nat]
  = mkSystem [(c, Finished (update_handler sch c st).1)] (update_handler sch c st).2.
Proof.
  unfold run, update_handler, try_body. cbn [fold_left fire calls store lookup list_lookup].
  cbn [step]. destruct (acquireLock (userId c) (actionId c) (locks st)) as [[|] locks1] eqn:Hacq;
    cbn [negb]; cbn [fire calls store lookup list_lookup insert list_insert step db locks].
  - destruct (0 <? _)%nat; cbn [fire calls store lookup list_lookup insert list_insert step db locks].
    + done.
    + destruct (transaction sch c (db st)) as [r d'].
      cbn [fire calls store lookup list_lookup insert list_insert step db locks fst snd]. done.
  - by destruct st.
Qed.

Section Race.

(** The calls race for one action: the same principal [u], action id [a]
    and increment [v], from the store [st0]. *)
Variable sch : Uniqueness.
Variables (u a : string) (v : Z).
Variable st0 : Store.

Definition same_action (c : Call) : Prop :=
  userId c = u ∧ actionId c = a ∧ scoreIncrement c = v.

Definition hit (s : Score) : bool := String.eqb (user_id s) u.

(** The action id is free under the uniqueness rule in force. *)
Definition taken (acts : list Action) : bool :=
  existsb (conflicts sch (mkAction a u "" v 0)) acts.

(** The bumped rows fit their INT columns. *)
Definition fits (scs : list Score) : bool :=
  int4 v &&
  forallb (λ s, int4 (current_score s + v) && int4 (total_actions s + 1)) (List.filter hit scs).

Definition first_score : Z :=
  match List.filter hit (scores (db st0)) with
  | s :: _ => current_score s
  | [] => 0
  end.

Definition db_after (c : Call) : Db :=
  mkDb (actions (db st0) ++ [row_of c])%list (scores_after c (scores (db st0))).

Definition concurrent : Response := Conflict "CONCURRENT_REQUEST".
Definition duplicate : Response := Conflict "DUPLICATE_ACTION".

Hypothesis Hfree : taken (actions (db st0)) = false.
Hypothesis Hrow : List.filter hit (scores (db st0)) ≠ [].
Hypothesis Hfits : fits (scores (db st0)) = true.

Lemma conflicts_same c r : same_action c →
  conflicts sch (row_of c) r = conflicts sch (mkAction a u "" v 0) r.
Proof. intros (Hu & Ha & _). unfold conflicts. cbn. by rewrite Hu, Ha. Qed.

Lemma taken_same c acts : same_action c →
  existsb (conflicts sch (row_of c)) acts = taken acts.
Proof.
  intros Hc. unfold taken. induction acts as [| r acts IH]; [done |].
  cbn [existsb]. by rewrite IH, (conflicts_same c r Hc).
Qed.

Lemma conflicts_row c c' : same_action c → same_action c' →
  conflicts sch (row_of c) (row_of c') = true.
Proof.
  intros (Hu & Ha & _) (Hu' & Ha' & _). unfold conflicts. cbn.
  rewrite Hu, Ha, Hu', Ha', !String.eqb_refl. by destruct sch.
Qed.

Lemma select_existing_free : select_existing a u (actions (db st0)) = [].
Proof.
  unfold taken in Hfree. unfold select_existing.
  induction (actions (db st0)) as [| r acts IH]; [done |].
  cbn [existsb] in Hfree. apply orb_false_iff in Hfree as [Hr Hacts].
  cbn [List.filter]. rewrite (IH Hacts).
  destruct (String.eqb (action_id r) a && String.eqb (a_user_id r) u) eqn:Hm; [| done].
  apply andb_true_iff in Hm as [Ha Hu]. unfold conflicts in Hr. cbn in Hr.
  rewrite Ha, Hu in Hr. by destruct sch.
Qed.

Lemma select_existing_after c : same_action c →
  select_existing a u (actions (db_after c)) = [row_of c].
Proof.
  intros (Hu & Ha & _). unfold db_after. cbn [actions].
  rewrite select_existing_app, select_existing_free.
  rewrite <- Hu, <- Ha. apply select_existing_row.
Qed.

(** The first transaction to run commits and answers success. *)
Lemma transaction_first c : same_action c →
  transaction sch c (db st0) = (Ok (first_score + v) v, db_after c).
Proof.
  intros Hc. pose proof Hc as (Hu & Ha & Hv).
  unfold fits in Hfits. apply andb_true_iff in Hfits as [Hv4 Hrows].
  unfold transaction, insert_action.
  change (score_value (row_of c)) with (scoreIncrement c). rewrite Hv, Hv4. cbn [negb].
  rewrite (taken_same c _ Hc), Hfree.
  unfold update_scores. cbv zeta. rewrite Hu. fold hit.
  assert (Hrange : forallb (λ s, int4 (current_score s) && int4 (total_actions s))
                     (List.map (bump v (clock c)) (List.filter hit (scores (db st0)))) = true).
  { rewrite forallb_forall in Hrows. apply forallb_forall. intros s' Hin.
    apply in_map_iff in Hin as (s & <- & Hin). by apply Hrows. }
  rewrite Hrange. unfold first_score.
  destruct (List.filter hit (scores (db st0))) as [| s rest]; [done |].
  cbn [List.map current_score bump]. unfold db_after, scores_after, row_of.
  rewrite Hu, Hv. done.
Qed.

(** A transaction that runs after another call has committed violates the
    uniqueness rule and rolls back. *)
Lemma transaction_second c cw : same_action c → same_action cw →
  transaction sch c (db_after cw) =
    (handler_catch (DbFailure (UniqueViolation (constraint_name sch))), db_after cw).
Proof.
  intros Hc Hw. pose proof Hc as (Hu & Ha & Hv).
  unfold fits in Hfits. apply andb_true_iff in Hfits as [Hv4 _].
  unfold transaction, insert_action.
  change (score_value (row_of c)) with (scoreIncrement c). rewrite Hv, Hv4. cbn [negb].
  assert (existsb (conflicts sch (row_of c)) (actions (db_after cw)) = true) as ->; [| done].
  unfold db_after. cbn [actions]. rewrite existsb_app. apply orb_true_iff. right.
  cbn [existsb]. rewrite orb_false_r. by apply conflicts_row.
Qed.

(** *** The invariant of the race *)

Definition key : string := lockKey u a.

(** What the handler makes of the violated uniqueness rule: under
    [unique_action_id] the 409 DUPLICATE_ACTION, under the per-user index the
    error thrown again. *)
Definition violation : Response :=
  handler_catch (DbFailure (UniqueViolation (constraint_name sch))).

(** A call that has no answer from the store yet, or was refused the lock. *)
Inductive waiting : Pc → Prop :=
| waiting_acquire : waiting AtAcquire
| waiting_check : waiting AtCheck
| waiting_transaction : waiting AtTransaction
| waiting_refused : waiting (Finished concurrent).

(** The answer of a call that came after the commit: it found the row in
    its check, or its INSERT met the uniqueness rule. *)
Definition late (r : Response) : Prop := r = duplicate ∨ r = violation.

Inductive lost : Pc → Prop :=
| lost_release r : late r → lost (AtRelease r)
| lost_finished r : late r → lost (Finished r).

(** The call whose transaction committed. *)
Inductive won : Pc → Prop :=
| won_release : won (AtRelease (Ok (first_score + v) v))
| won_finished : won (Finished (Ok (first_score + v) v)).

(** Between acquiring the lock and releasing it. *)
Definition in_cs (pc : Pc) : bool :=
  match pc with
  | AtCheck | AtTransaction | AtRelease _ => true
  | _ => false
  end.

Definition acquired (pc : Pc) : Prop := pc ≠ AtAcquire ∧ pc ≠ Finished concurrent.

Definition call_at (sys : System) (i : nat) (c : Call) (pc : Pc) : Prop :=
  calls sys !! i = Some (c, pc).

Definition some_acquired (sys : System) : Prop :=
  ∃ i c pc, call_at sys i c pc ∧ acquired pc.

(** Either nothing is committed and every call is waiting, or one call has
    won, its row and its increment are in the store, and every other call
    is waiting or has lost.  The key is held only if some call has acquired
    it, and a call has acquired it as soon as any call has moved. *)
Record Inv (sys : System) : Prop := mkInv {
  inv_same : ∀ i c pc, call_at sys i c pc → same_action c;
  inv_phase :
    (db (store sys) = db st0 ∧ ∀ i c pc, call_at sys i c pc → waiting pc) ∨
    (∃ w cw pcw, call_at sys w cw pcw ∧ won pcw ∧ db (store sys) = db_after cw ∧
       ∀ j c pc, j ≠ w → call_at sys j c pc → waiting pc ∨ lost pc);
  inv_lock : key ∈ locks (store sys) → some_acquired sys;
  inv_moved : (∀ i c pc, call_at sys i c pc → pc = AtAcquire) ∨ some_acquired sys
}.

(** While no lock expires, the lock excludes: one call at most is between
    acquire and release, it holds the key, it reaches its transaction
    before anything is committed, and so no INSERT meets the uniqueness
    rule. *)
Record Mutex (sys : System) : Prop := mkMutex {
  mx_one : ∀ i j ci pci cj pcj,
    call_at sys i ci pci → call_at sys j cj pcj →
    in_cs pci = true → in_cs pcj = true → i = j;
  mx_lock : ∀ i c pc, call_at sys i c pc → in_cs pc = true → key ∈ locks (store sys);
  mx_tx : ∀ i c, call_at sys i c AtTransaction → db (store sys) = db st0;
  mx_dup : ∀ i c r, call_at sys i c (AtRelease r) ∨ call_at sys i c (Finished r) →
                    late r → r = duplicate
}.

(** Call [i] moves to [pc'], the store becomes [st']. *)
Definition upd (sys : System) (i : nat) (c : Call) (pc' : Pc) (st' : Store) : System :=
  mkSystem (<[i := (c, pc')]> (calls sys)) st'.

Lemma call_at_upd sys i c pc pc' st' j cj pcj :
  call_at sys i c pc → call_at (upd sys i c pc' st') j cj pcj →
  (j = i ∧ cj = c ∧ pcj = pc') ∨ (j ≠ i ∧ call_at sys j cj pcj).
Proof.
  unfold call_at, upd. cbn [calls]. intros Hi Hj.
  apply list_lookup_insert_Some in Hj as [(-> & [= -> ->] & _) | [Hne Hj]]; auto.
Qed.

Lemma call_at_upd_self sys i c pc pc' st' :
  call_at sys i c pc → call_at (upd sys i c pc' st') i c pc'.
Proof.
  unfold call_at, upd. cbn [calls]. intros Hi.
  apply list_lookup_insert_eq. by eapply lookup_lt_Some.
Qed.

Lemma call_at_upd_other sys i c pc' st' j cj pcj :
  j ≠ i → call_at sys j cj pcj → call_at (upd sys i c pc' st') j cj pcj.
Proof.
  unfold call_at, upd. cbn [calls]. intros Hne Hj.
  by rewrite list_lookup_insert_ne.
Qed.

Lemma call_at_inj sys i c pc c' pc' :
  call_at sys i c pc → call_at sys i c' pc' → c = c' ∧ pc = pc'.
Proof. unfold call_at. intros H1 H2. rewrite H1 in H2. by injection H2. Qed.

Lemma some_acquired_upd sys i c pc pc' st' :
  call_at sys i c pc → (acquired pc → acquired pc') →
  some_acquired sys → some_acquired (upd sys i c pc' st').
Proof.
  intros Hi Himp (k & ck & pck & Hk & Hacq).
  destruct (decide (k = i)) as [-> | Hne].
  - destruct (call_at_inj _ _ _ _ _ _ Hi Hk) as [<- <-].
    exists i, c, pc'. split; [by eapply call_at_upd_self | auto].
  - exists k, ck, pck. split; [by apply call_at_upd_other | done].
Qed.

Lemma db_after_ne c : db_after c ≠ db st0.
Proof.
  unfold db_after. intros H. apply (f_equal (λ d, length (actions d))) in H.
  cbn [actions] in H. rewrite length_app in H. cbn in H. lia.
Qed.

Lemma late_not_concurrent r : late r → r ≠ concurrent.
Proof. intros [-> | ->]; [done |]. unfold violation. by destruct sch. Qed.

Lemma late_not_ok r : late r → is_ok r = false.
Proof. intros [-> | ->]; [done |]. apply handler_catch_not_ok. Qed.

Lemma violation_global : sch = UniqueGlobal → violation = duplicate.
Proof. unfold violation. by intros ->. Qed.

Lemma same_action_key c : same_action c → lockKey (userId c) (actionId c) = key.
Proof. intros (-> & -> & _). done. Qed.

Lemma store_eta (st : Store) : mkStore (db st) (locks st) = st.
Proof. by destruct st. Qed.

(** *** Each step keeps the invariant *)

Ltac moved H Hi :=
  eapply call_at_upd in H; [| exact Hi];
  destruct H as [(? & ? & ?) | [? H]]; [subst |].

(** The phase is kept when a call other than the winner moves between
    states that are waiting or lost. *)
Lemma phase_kept sys i c pc pc' st' :
  call_at sys i c pc → ¬ won pc → db st' = db (store sys) →
  (db (store sys) = db st0 → waiting pc') →
  (db (store sys) ≠ db st0 → waiting pc' ∨ lost pc') →
  ((db (store sys) = db st0 ∧ ∀ i c pc, call_at sys i c pc → waiting pc) ∨
   (∃ w cw pcw, call_at sys w cw pcw ∧ won pcw ∧ db (store sys) = db_after cw ∧
      ∀ j c pc, j ≠ w → call_at sys j c pc → waiting pc ∨ lost pc)) →
  let sys' := upd sys i c pc' st' in
  (db (store sys') = db st0 ∧ ∀ i c pc, call_at sys' i c pc → waiting pc) ∨
  (∃ w cw pcw, call_at sys' w cw pcw ∧ won pcw ∧ db (store sys') = db_after cw ∧
     ∀ j c pc, j ≠ w → call_at sys' j c pc → waiting pc ∨ lost pc).
Proof.
  intros Hi Hnw Hst' Hwait Hlate [[Hdb Hall] | (w & cw & pcw & Hw & Hwon & Hdb & Hothers)];
    cbv zeta; cbn [upd store]; rewrite Hst'.
  - left. split; [done |]. intros j cj pcj Hj. moved Hj Hi; eauto.
  - right. assert (w ≠ i) as Hwi.
    { intros ->. destruct (call_at_inj _ _ _ _ _ _ Hi Hw) as [_ <-]. done. }
    exists w, cw, pcw. split; [by apply call_at_upd_other |]. split; [done |].
    split; [done |]. intros j cj pcj Hjw Hj. moved Hj Hi; [| eauto].
    apply Hlate. rewrite Hdb. apply db_after_ne.
Qed.

Lemma same_kept sys i c pc pc' st' :
  call_at sys i c pc →
  (∀ i c pc, call_at sys i c pc → same_action c) →
  ∀ j cj pcj, call_at (upd sys i c pc' st') j cj pcj → same_action cj.
Proof. intros Hi Hsame j cj pcj Hj. moved Hj Hi; eauto. Qed.

(** The mutual exclusion is kept when a call stays inside, or stays
    outside, the section it is in, the key stays, and the call does not
    end on a violated uniqueness rule. *)
Lemma mutex_kept sys i c pc pc' st' :
  call_at sys i c pc → Mutex sys →
  (in_cs pc' = true → in_cs pc = true) →
  (key ∈ locks (store sys) → in_cs pc' = true → key ∈ locks st') →
  (∀ j cj pcj, j ≠ i → call_at sys j cj pcj → in_cs pcj = true → key ∈ locks st') →
  (pc' = AtTransaction → db st' = db st0) →
  (∀ j cj, j ≠ i → call_at sys j cj AtTransaction → db st' = db st0) →
  (∀ r, pc' = AtRelease r ∨ pc' = Finished r → late r → r = duplicate) →
  Mutex (upd sys i c pc' st').
Proof.
  intros Hi [Hone Hlock Htx Hdup] Hcs Hkey Hkey' Hmine Hothers Hmydup. split.
  - intros j1 j2 c1 pc1 c2 pc2 H1 H2 Hcs1 Hcs2.
    moved H1 Hi; moved H2 Hi; eauto.
  - intros j cj pcj Hj Hcsj. cbn [upd store]. moved Hj Hi; eauto.
  - intros j cj Hj. cbn [upd store]. moved Hj Hi; eauto.
  - intros j cj r [Hj | Hj] Hlate; moved Hj Hi; eauto.
Qed.

(** AtAcquire, the key is taken: the call is refused. *)
Lemma keep_refused sys i c :
  Inv sys → call_at sys i c AtAcquire → key ∈ locks (store sys) →
  let sys' := upd sys i c (Finished concurrent) (store sys) in
  Inv sys' ∧ (Mutex sys → Mutex sys').
Proof.
  intros HI Hi Hk. cbv zeta.
  assert (Hsome : some_acquired (upd sys i c (Finished concurrent) (store sys))).
  { eapply some_acquired_upd; [done | | by apply inv_lock]. by intros [? _]. }
  split; [split |].
  - eapply same_kept; [done | apply HI].
  - eapply phase_kept; [done | inversion 1 | done | constructor | left; constructor | apply HI].
  - done.
  - by right.
  - intros Hmx.
    eapply mutex_kept; [exact Hi | exact Hmx | done | done | done | done | |].
    + intros j cj _ Hj. by eapply (mx_tx _ Hmx).
    + intros r [[=] | [= <-]] Hlate. by apply late_not_concurrent in Hlate.
Qed.

(** AtAcquire, the key is free: the call takes the lock. *)
Lemma keep_acquire sys i c :
  Inv sys → call_at sys i c AtAcquire → key ∉ locks (store sys) →
  let sys' := upd sys i c AtCheck (mkStore (db (store sys)) ({[key]} ∪ locks (store sys))) in
  Inv sys' ∧ (Mutex sys → Mutex sys').
Proof.
  intros HI Hi Hk. cbv zeta.
  assert (Hsome : some_acquired (upd sys i c AtCheck
            (mkStore (db (store sys)) ({[key]} ∪ locks (store sys))))).
  { exists i, c, AtCheck. split; [by eapply call_at_upd_self | by split]. }
  split; [split |].
  - eapply same_kept; [done | apply HI].
  - eapply phase_kept; [done | inversion 1 | done | constructor | left; constructor | apply HI].
  - done.
  - by right.
  - intros Hmx. split.
    + intros j1 j2 c1 pc1 c2 pc2 H1 H2 Hcs1 Hcs2.
      moved H1 Hi; moved H2 Hi; try done.
      * exfalso. apply Hk. by eapply (mx_lock _ Hmx).
      * exfalso. apply Hk. by eapply (mx_lock _ Hmx).
      * by eapply (mx_one _ Hmx).
    + intros j cj pcj _ _. cbn [upd store locks]. set_solver.
    + intros j cj Hj. cbn [upd store db]. moved Hj Hi; [done |]. by eapply (mx_tx _ Hmx).
    + intros j cj r [Hj | Hj] Hlate; moved Hj Hi; try done;
        eapply (mx_dup _ Hmx); eauto.
Qed.

(** AtCheck: the call goes on to its transaction, or finds the action. *)
Lemma keep_check sys i c :
  Inv sys → call_at sys i c AtCheck →
  let sys' := upd sys i c (step sch c AtCheck (store sys)).1 (step sch c AtCheck (store sys)).2 in
  Inv sys' ∧ (Mutex sys → Mutex sys').
Proof.
  intros HI Hi. cbv zeta.
  pose proof (inv_same _ HI _ _ _ Hi) as (Hu & Ha & Hv).
  cbn [step]. rewrite Hu, Ha.
  destruct (inv_phase _ HI) as [[Hdb Hall] | (w & cw & pcw & Hw & Hwon & Hdb & Hothers)].
  - rewrite Hdb, select_existing_free. cbn [length Nat.ltb Nat.leb fst snd].
    assert (Hsome : some_acquired (upd sys i c AtTransaction (store sys))).
    { exists i, c, AtTransaction. split; [by eapply call_at_upd_self | by split]. }
    split; [split |].
    + eapply same_kept; [done | apply HI].
    + eapply phase_kept;
        [done | inversion 1 | done | constructor | left; constructor | apply HI].
    + done.
    + by right.
    + intros Hmx.
      eapply mutex_kept; [exact Hi | exact Hmx | done | done | | done | | ].
      * intros j cj pcj _ Hj Hcs. by eapply (mx_lock _ Hmx).
      * intros j cj _ Hj. by eapply (mx_tx _ Hmx).
      * by intros r [[=] | [=]].
  - pose proof (inv_same _ HI _ _ _ Hw) as Hcw.
    rewrite Hdb, (select_existing_after cw Hcw). cbn [length Nat.ltb Nat.leb fst snd].
    fold duplicate.
    assert (Hsome : some_acquired (upd sys i c (AtRelease duplicate) (store sys))).
    { exists i, c, (AtRelease duplicate). split; [by eapply call_at_upd_self | by split]. }
    split; [split |].
    + eapply same_kept; [done | apply HI].
    + eapply phase_kept; [done | inversion 1 | done | | | apply HI].
      * intros Hdb0. rewrite Hdb in Hdb0. by apply db_after_ne in Hdb0.
      * intros _. right. constructor. by left.
    + done.
    + by right.
    + intros Hmx.
      eapply mutex_kept; [exact Hi | exact Hmx | done | done | | done | | ].
      * intros j cj pcj _ Hj Hcs. by eapply (mx_lock _ Hmx).
      * intros j cj _ Hj. by eapply (mx_tx _ Hmx).
      * by intros r [[= <-] | [=]].
Qed.

(** AtTransaction: the first transaction commits, a later one rolls back. *)
Lemma keep_transaction sys i c :
  Inv sys → call_at sys i c AtTransaction →
  let sys' := upd sys i c (step sch c AtTransaction (store sys)).1
                          (step sch c AtTransaction (store sys)).2 in
  Inv sys' ∧ (Mutex sys → Mutex sys').
Proof.
  intros HI Hi. cbv zeta.
  pose proof (inv_same _ HI _ _ _ Hi) as Hc.
  cbn [step].
  destruct (inv_phase _ HI) as [[Hdb Hall] | (w & cw & pcw & Hw & Hwon & Hdb & Hothers)].
  - rewrite Hdb, (transaction_first c Hc). cbn [fst snd].
    set (st' := mkStore (db_after c) (locks (store sys))).
    assert (Hsome : some_acquired (upd sys i c (AtRelease (Ok (first_score + v) v)) st')).
    { eexists i, c, _. split; [by eapply call_at_upd_self | by split]. }
    split; [split |].
    + eapply same_kept; [done | apply HI].
    + right. eexists i, c, _. split; [by eapply call_at_upd_self |].
      split; [constructor |]. split; [done |].
      intros j cj pcj Hne Hj. moved Hj Hi; [done |]. left. eauto.
    + done.
    + by right.
    + intros Hmx.
      eapply mutex_kept; [exact Hi | exact Hmx | done | | | done | | ].
      * intros Hk _. apply Hk.
      * intros j cj pcj _ Hj Hcs. by eapply (mx_lock _ Hmx).
      * intros j cj Hne Hj. exfalso. apply Hne. by eapply (mx_one _ Hmx).
      * intros r [[= <-] | [=]] Hlate. by apply late_not_ok in Hlate.
  - pose proof (inv_same _ HI _ _ _ Hw) as Hcw.
    rewrite Hdb, (transaction_second c cw Hc Hcw). cbn [fst snd]. fold violation.
    rewrite <- Hdb, store_eta.
    assert (Hsome : some_acquired (upd sys i c (AtRelease violation) (store sys))).
    { exists i, c, (AtRelease violation). split; [by eapply call_at_upd_self | by split]. }
    split; [split |].
    + eapply same_kept; [done | apply HI].
    + eapply phase_kept; [done | inversion 1 | done | | | apply HI].
      * intros Hdb0. rewrite Hdb in Hdb0. by apply db_after_ne in Hdb0.
      * intros _. right. constructor. by right.
    + done.
    + by right.
    + intros Hmx. pose proof (mx_tx _ Hmx _ _ Hi) as Hdb0. rewrite Hdb in Hdb0.
      by apply db_after_ne in Hdb0.
Qed.

(** AtRelease: the call gives the key back and ends. *)
Lemma keep_release sys i c r :
  Inv sys → call_at sys i c (AtRelease r) →
  let sys' := upd sys i c (Finished r)
                (mkStore (db (store sys)) (locks (store sys) ∖ {[key]})) in
  Inv sys' ∧ (Mutex sys → Mutex sys').
Proof.
  intros HI Hi. cbv zeta.
  set (st' := mkStore (db (store sys)) (locks (store sys) ∖ {[key]})).
  assert (Hr : (r = Ok (first_score + v) v ∧ won (AtRelease r)) ∨
               (late r ∧ ¬ won (AtRelease r))).
  { destruct (inv_phase _ HI) as [[_ Hall] | (w & cw & pcw & Hw & Hwon & _ & Hothers)].
    - specialize (Hall _ _ _ Hi). inversion Hall.
    - destruct (decide (i = w)) as [-> | Hne].
      + destruct (call_at_inj _ _ _ _ _ _ Hi Hw) as [_ <-].
        inversion Hwon; subst. left. split; [done | constructor].
      + destruct (Hothers _ _ _ Hne Hi) as [Hq | Hl]; [inversion Hq |].
        inversion Hl as [r' Hlate |]; subst. right. split; [done |].
        inversion 1; subst. by apply late_not_ok in Hlate. }
  assert (Hsome : some_acquired (upd sys i c (Finished r) st')).
  { exists i, c, (Finished r). split; [by eapply call_at_upd_self |].
    split; [done |]. destruct Hr as [[-> _] | [Hlate _]]; [done |].
    intros [= ->]. by apply late_not_concurrent in Hlate. }
  split; [split |].
  - eapply same_kept; [done | apply HI].
  - destruct Hr as [[-> Hwon] | [Hlate Hnw]].
    + destruct (inv_phase _ HI) as [[_ Hall] | (w & cw & pcw & Hw & Hwon' & Hdb & Hothers)].
      { specialize (Hall _ _ _ Hi). inversion Hall. }
      assert (i = w) as ->.
      { destruct (decide (i = w)) as [| Hne]; [done |].
        destruct (Hothers _ _ _ Hne Hi) as [Hq | Hl]; [inversion Hq |].
        inversion Hl as [r' Hlate |]; subst. by apply late_not_ok in Hlate. }
      destruct (call_at_inj _ _ _ _ _ _ Hi Hw) as [<- _].
      right. eexists w, c, _. split; [by eapply call_at_upd_self |].
      split; [constructor |]. split; [done |].
      intros j cj pcj Hne Hj. moved Hj Hi; [done |]. eauto.
    + eapply phase_kept; [done | done | done | | | apply HI].
      * intros Hdb0.
        destruct (inv_phase _ HI) as [[_ Hall] | (w & cw & pcw & _ & _ & Hdb & _)].
        -- specialize (Hall _ _ _ Hi). inversion Hall.
        -- rewrite Hdb in Hdb0. by apply db_after_ne in Hdb0.
      * intros _. right. by constructor.
  - cbn [upd store locks st']. set_solver.
  - by right.
  - intros Hmx.
    eapply mutex_kept; [exact Hi | exact Hmx | done | done | | done | | ].
    + intros j cj pcj Hne Hj Hcs. exfalso. apply Hne. by eapply (mx_one _ Hmx).
    + intros j cj _ Hj. by eapply (mx_tx _ Hmx).
    + intros r' [[=] | [= <-]] Hlate. eapply (mx_dup _ Hmx); eauto.
Qed.

(** Every step of a call keeps the invariant, and the exclusion with it. *)
Lemma step_keeps sys i c pc :
  Inv sys → call_at sys i c pc →
  let sys' := upd sys i c (step sch c pc (store sys)).1 (step sch c pc (store sys)).2 in
  Inv sys' ∧ (Mutex sys → Mutex sys').
Proof.
  intros HI Hi.
  pose proof (same_action_key c (inv_same _ HI _ _ _ Hi)) as Hkey.
  destruct pc as [| | | r | r].
  - cbv zeta. cbn [step]. unfold acquireLock. rewrite Hkey. cbv zeta.
    case_decide as Hk; cbn [negb fst snd].
    + by apply keep_refused.
    + by apply keep_acquire.
  - by apply keep_check.
  - by apply keep_transaction.
  - cbv zeta. cbn [step fst snd]. unfold releaseLock. rewrite Hkey. by apply keep_release.
  - cbv zeta. cbn [step fst snd]. unfold upd.
    rewrite list_insert_id by exact Hi. by destruct sys.
Qed.

Definition is_run (ev : Event) : bool :=
  match ev with Run _ => true | Expire _ => false end.

(** The expiry of a lock keeps the invariant (not the exclusion). *)
Lemma fire_keeps sys ev :
  Inv sys →
  Inv (fire sch sys ev) ∧ (Mutex sys → is_run ev = true → Mutex (fire sch sys ev)).
Proof.
  intros HI. destruct ev as [i | k]; cbn [fire].
  - destruct (calls sys !! i) as [[c pc] |] eqn:Hi; [| done].
    pose proof (step_keeps sys i c pc HI Hi) as [H1 H2]. cbv zeta in H1, H2.
    destruct (step sch c pc (store sys)). split; [done | auto].
  - split; [| done].
    destruct HI as [Hsame Hphase Hlock Hmoved]. split; try done.
    cbn [store locks]. intros Hk. apply Hlock. set_solver.
Qed.

Lemma run_keeps schedule : ∀ sys,
  Inv sys →
  Inv (run sch sys schedule) ∧
  (Mutex sys → forallb is_run schedule = true → Mutex (run sch sys schedule)).
Proof.
  unfold run. induction schedule as [| ev schedule IH]; intros sys HI; [done |].
  cbn [fold_left forallb].
  destruct (fire_keeps sys ev HI) as [HI' Hmx'].
  destruct (IH _ HI') as [HI'' Hmx'']. split; [done |].
  intros Hmx Hruns. apply andb_true_iff in Hruns as [Hev Hruns]. auto.
Qed.

(** *** The outcome *)

Definition succeeded (cp : Call * Pc) : bool :=
  match cp.2 with Finished r => is_ok r | _ => false end.

Definition rejected (cp : Call * Pc) : bool :=
  match cp.2 with
  | Finished (Conflict code) =>
      String.eqb code "DUPLICATE_ACTION" || String.eqb code "CONCURRENT_REQUEST"
  | _ => false
  end.

Lemma filter_none {A} (P : A → bool) (l : list A) :
  (∀ j y, l !! j = Some y → P y = false) → List.filter P l = [].
Proof.
  induction l as [| y l IH]; intros H; [done |]. cbn [List.filter].
  rewrite (H 0%nat y) by done. apply IH. intros j z Hj. by apply (H (S j)).
Qed.

Lemma filter_one {A} (P : A → bool) (l : list A) w x :
  l !! w = Some x → P x = true →
  (∀ j y, j ≠ w → l !! j = Some y → P y = false) →
  length (List.filter P l) = 1%nat.
Proof.
  revert w. induction l as [| y l IH]; intros w Hw Hx Hothers; [done |].
  cbn [List.filter]. destruct w as [| w].
  - injection Hw as ->. rewrite Hx. cbn [length]. f_equal.
    rewrite filter_none; [done |]. intros j z Hj. by apply (Hothers (S j)).
  - rewrite (Hothers 0%nat y) by done.
    apply (IH w); [done | done |]. intros j z Hne Hj. apply (Hothers (S j)); [lia | done].
Qed.

Lemma filter_split {A} (P Q : A → bool) (l : list A) :
  (∀ j y, l !! j = Some y → Q y = negb (P y)) →
  (length (List.filter P l) + length (List.filter Q l) = length l)%nat.
Proof.
  induction l as [| y l IH]; intros H; [done |]. cbn [List.filter].
  rewrite (H 0%nat y) by done.
  assert (IH' := IH (λ j z Hj, H (S j) z Hj)).
  destruct (P y); cbn [negb length]; lia.
Qed.

Lemma fire_length sys ev : length (calls (fire sch sys ev)) = length (calls sys).
Proof.
  destruct ev as [i | k]; cbn [fire]; [| done].
  destruct (calls sys !! i) as [[c pc] |]; [| done].
  destruct (step sch c pc (store sys)). cbn [calls]. apply length_insert.
Qed.

Lemma run_length schedule : ∀ sys,
  length (calls (run sch sys schedule)) = length (calls sys).
Proof.
  unfold run. induction schedule as [| ev schedule IH]; intros sys; [done |].
  cbn [fold_left]. by rewrite IH, fire_length.
Qed.

Lemma inv_initial calls0 :
  Forall (λ cp, same_action cp.1 ∧ cp.2 = AtAcquire) calls0 →
  key ∉ locks st0 →
  Inv (mkSystem calls0 st0) ∧ Mutex (mkSystem calls0 st0).
Proof.
  intros Hcalls Hk. rewrite Forall_lookup in Hcalls.
  assert (Hat : ∀ i c pc, call_at (mkSystem calls0 st0) i c pc →
                          same_action c ∧ pc = AtAcquire)
    by (intros i c pc Hi; apply (Hcalls i (c, pc) Hi)).
  split; split.
  - intros i c pc Hi. by apply Hat in Hi as [? _].
  - left. split; [done |]. intros i c pc Hi. apply Hat in Hi as [_ ->]. constructor.
  - done.
  - left. intros i c pc Hi. by apply Hat in Hi as [_ ->].
  - intros i j ci pci cj pcj Hi _ Hcs. by apply Hat in Hi as [_ ->].
  - intros i c pc Hi Hcs. by apply Hat in Hi as [_ ->].
  - intros i c Hi. by apply Hat in Hi as [_ ?].
  - intros i c r [Hi | Hi] _; by apply Hat in Hi as [_ ?].
Qed.

Lemma scores_after_current c (scs : list Score) : same_action c →
  current_score <$> scores_after c scs =
  (λ s, if hit s then current_score s + v else current_score s) <$> scs.
Proof.
  intros (Hu & _ & Hv). unfold scores_after, hit. rewrite Hu, Hv.
  change (List.map ?f scs) with (f <$> scs). rewrite <- list_fmap_compose.
  apply list_fmap_ext. intros _ s _. cbn. by destruct (String.eqb _ _).
Qed.

(** Once all calls have ended, with the steps grouped as in [step]: one
    success, one commit; and the others were all answered DUPLICATE_ACTION or
    CONCURRENT_REQUEST under the global constraint, or when no lock expired.
    Only without expiry does the lock keep the statements of the calls
    apart ([race_excludes]), and only then is the outcome that of the
    handler's statements. *)
Lemma race_outcome (calls0 : list (Call * Pc)) (schedule : list Event) :
  (1 ≤ length calls0)%nat →
  Forall (λ cp, same_action cp.1 ∧ cp.2 = AtAcquire) calls0 →
  key ∉ locks st0 →
  quiescent (run sch (mkSystem calls0 st0) schedule) = true →
  let sys := run sch (mkSystem calls0 st0) schedule in
  length (List.filter succeeded (calls sys)) = 1%nat ∧
  (∃ w cw, calls sys !! w = Some (cw, Finished (Ok (first_score + v) v)) ∧
           actions (db (store sys)) = (actions (db st0) ++ [row_of cw])%list) ∧
  current_score <$> scores (db (store sys)) =
    (λ s, if hit s then current_score s + v else current_score s) <$> scores (db st0) ∧
  (sch = UniqueGlobal ∨ forallb is_run schedule = true →
   length (List.filter rejected (calls sys)) = (length calls0 - 1)%nat).
Proof.
  intros HN Hcalls Hk Hq. cbv zeta.
  destruct (inv_initial calls0 Hcalls Hk) as [HI0 Hmx0].
  destruct (run_keeps schedule _ HI0) as [HI Hmx].
  pose proof (run_length schedule (mkSystem calls0 st0)) as Hlen. cbn [calls] in Hlen.
  set (sys := run sch (mkSystem calls0 st0) schedule) in *.
  assert (Hfin : ∀ i c pc, call_at sys i c pc → ∃ r, pc = Finished r).
  { intros i c pc Hi. unfold quiescent in Hq. rewrite forallb_forall in Hq.
    assert (Hin : In (c, pc) (calls sys)).
    { apply list_elem_of_In. by eapply list_elem_of_lookup_2. }
    apply Hq in Hin. apply bool_decide_eq_true in Hin as [r Hr].
    destruct pc; try done. by eexists. }
  destruct (inv_phase _ HI) as [[_ Hall] | (w & cw & pcw & Hw & Hwon & Hdb & Hothers)].
  { exfalso. destruct (inv_moved _ HI) as [Hstart | (k & ck & pck & Hk' & Hacq)].
    - destruct (calls sys) as [| [c0 pc0] rest] eqn:Hcs; [cbn in Hlen; lia |].
      assert (H0 : call_at sys 0%nat c0 pc0) by (unfold call_at; by rewrite Hcs).
      destruct (Hfin _ _ _ H0) as [r ->]. by specialize (Hstart _ _ _ H0).
    - destruct (Hfin _ _ _ Hk') as [r ->]. specialize (Hall _ _ _ Hk').
      inversion Hall; subst. by destruct Hacq as [_ ?]. }
  destruct (Hfin _ _ _ Hw) as [rw ->]. inversion Hwon; subst rw.
  assert (Hrest : ∀ j c pc, j ≠ w → call_at sys j c pc →
            pc = Finished concurrent ∨ ∃ r, pc = Finished r ∧ late r).
  { intros j cj pcj Hne Hj. destruct (Hfin _ _ _ Hj) as [r ->].
    destruct (Hothers _ _ _ Hne Hj) as [H | H]; inversion H; subst; eauto. }
  assert (Hsucc : length (List.filter succeeded (calls sys)) = 1%nat).
  { eapply (filter_one succeeded _ w); [exact Hw | done |].
    intros j [cj pcj] Hne Hj.
    destruct (Hrest j cj pcj Hne Hj) as [-> | (r & -> & Hlate)]; [done |].
    by apply late_not_ok. }
  split; [done |]. split.
  { exists w, cw. split; [done |]. by rewrite Hdb. }
  split.
  { rewrite Hdb. cbn [db_after scores]. apply scores_after_current.
    by apply (inv_same _ HI _ _ _ Hw). }
  intros Hmode.
  assert (Hdup : ∀ j c r, call_at sys j c (Finished r) → late r → r = duplicate).
  { intros j cj r Hj Hlate. destruct Hmode as [Hsch | Hruns].
    - destruct Hlate as [-> | ->]; [done | by apply violation_global].
    - eapply (mx_dup _ (Hmx Hmx0 Hruns)); eauto. }
  assert (Hsplit := filter_split succeeded rejected (calls sys)).
  rewrite Hsucc, Hlen in Hsplit. rewrite <- Hsplit; [lia |].
  intros j [cj pcj] Hj. destruct (decide (j = w)) as [-> | Hne].
  - unfold call_at in Hw. rewrite Hw in Hj. by injection Hj as <- <-.
  - destruct (Hrest j cj pcj Hne Hj) as [-> | (r & -> & Hlate)]; [done |].
    by rewrite (Hdup j cj r Hj Hlate).
Qed.



End Race.

(** *** Every call ends *)










(** The scenario: principal A at score 100, two calls for action a1 with
    increment 50. *)
Definition scenario_store : Store := mkStore (mkDb [] [mkScore "A" 100 0 None]) ∅.

Definition scenario_calls : list (Call * Pc) :=
  [(mkCall "A" "a1" "task_completion" 50 1, AtAcquire);
   (mkCall "A" "a1" "task_completion" 50 2, AtAcquire)].

Definition scenario_schedule : list Event :=
  [Run 0; Run 1; Run 0; Run 1; Run 0; Run 1; Run 0; Run 1]%nat.


(** The run of the scenario, step by step: the second call is refused the
    lock while the first is at work. *)
Example scenario_run :
  let sys := run UniqueGlobal (mkSystem scenario_calls scenario_store) scenario_schedule in
  snd <$> calls sys = [Finished (Ok 150 50); Finished (Conflict "CONCURRENT_REQUEST")] ∧
  scores (db (store sys)) = [mkScore "A" 150 1 (Some 1)] ∧
  action_id <$> actions (db (store sys)) = ["a1"].
Proof. vm_compute. done. Qed.

(** In the scenario the score ends at 150, not 200, with one success and
    one refusal, on every schedule that lets both calls end and on which no
    lock expires, under either uniqueness rule. *)
Lemma scenario_score_150 (sch : Uniqueness) (schedule : list Event) :
  forallb is_run schedule = true →
  quiescent (run sch (mkSystem scenario_calls scenario_store) schedule) = true →
  let sys := run sch (mkSystem scenario_calls scenario_store) schedule in
  current_score <$> scores (db (store sys)) = [150] ∧
  length (List.filter succeeded (calls sys)) = 1%nat ∧
  length (List.filter rejected (calls sys)) = 1%nat.
Proof.
  intros Hruns Hq.
  assert (Hfree : taken sch "A" "a1" 50 (actions (db scenario_store)) = false)
    by by destruct sch.
  assert (Hrow : List.filter (hit "A") (scores (db scenario_store)) ≠ []) by done.
  assert (Hcalls : Forall (λ cp, same_action "A" "a1" 50 cp.1 ∧ cp.2 = AtAcquire)
                     scenario_calls) by (repeat constructor).
  assert (Hk : key "A" "a1" ∉ locks scenario_store) by (cbn; set_solver).
  pose proof (race_outcome sch "A" "a1" 50 scenario_store Hfree Hrow eq_refl
                scenario_calls schedule ltac:(cbn; lia) Hcalls Hk Hq) as H.
  cbv zeta in H. destruct H as (H1 & _ & H3 & H4).
  split_and!; [exact H3 | exact H1 | by apply H4; right].
Qed.


(** ** Further properties of the handler and of the lock service *)

Lemma handler_catch_DbFailure e :
  handler_catch (DbFailure e) = Conflict "DUPLICATE_ACTION" ∨
  handler_catch (DbFailure e) = Thrown (DbFailure e).
Proof. destruct e as [k |]; cbn; [| by right]. repeat case_match; auto. Qed.

Lemma scores_after_no_row c (scs : list Score) :
  List.filter (λ s, String.eqb (user_id s) (userId c)) scs = [] →
  scores_after c scs = scs.
Proof.
  unfold scores_after. induction scs as [| s scs IH]; [done |].
  cbn [List.filter List.map]. destruct (String.eqb _ _); [done |].
  intros H. by rewrite IH.
Qed.

(** X14: the handler leaves the set of locks as it found it, however the
    call ends: the [finally] releases the lock the call acquired, and a call
    refused at the lock does not delete the lock of the call that holds it. *)
Theorem lock_is_released (sch : Uniqueness) (c : Call) (st : Store) :
  locks (update_handler sch c st).2 = locks st.
Proof.
  unfold update_handler, acquireLock. cbv zeta.
  case_decide as Hlock; cbn [negb]; [done |].
  destruct (try_body sch c (db st)) as [r d']. cbn [snd locks].
  unfold releaseLock. set_solver.
Qed.

(** X15: the response tells what was committed.  After a success the
    action row and the bumped scores are in the database; after a 409 or a
    database error thrown, the database is as it was; after the TypeError of
    reading the first row of an UPDATE that returned none, the action row is
    committed and the scores are as they were. *)
Theorem response_tells_the_commit (sch : Uniqueness) (c : Call) (st : Store) :
  let st' := (update_handler sch c st).2 in
  match (update_handler sch c st).1 with
  | Ok new inc =>
      db st' = mkDb (actions (db st) ++ [row_of c])%list (scores_after c (scores (db st)))
  | Thrown TypeError =>
      db st' = mkDb (actions (db st) ++ [row_of c])%list (scores (db st)) ∧
      List.filter (λ s, String.eqb (user_id s) (userId c)) (scores (db st)) = []
  | Conflict _ | Thrown (DbFailure _) => db st' = db st
  end.
Proof.
  cbv zeta. unfold update_handler, acquireLock. cbv zeta.
  case_decide as Hlock; cbn [negb fst snd]; [done |].
  unfold try_body. destruct (0 <? _)%nat; [done |].
  destruct (transaction_cases sch c (db st))
    as [[e ->] | [_ [[Hno ->] | (s & rest & _ & _ & ->)]]]; cbn [fst snd db].
  - by destruct (handler_catch_DbFailure e) as [-> | ->].
  - by rewrite scores_after_no_row.
  - done.
Qed.

Lemma fresh_action_id sch c (acts : list Action) :
  Forall (λ r, action_id r ≠ actionId c) acts →
  select_existing (actionId c) (userId c) acts = [] ∧
  existsb (conflicts sch (row_of c)) acts = false.
Proof.
  intros Hfresh. split.
  - unfold select_existing. induction Hfresh as [| r acts Hr _ IH]; [done |].
    cbn [List.filter]. by destruct (String.eqb_spec (action_id r) (actionId c)).
  - induction Hfresh as [| r acts Hr _ IH]; [done |]. cbn [existsb]. rewrite IH.
    destruct sch; cbn [conflicts row_of action_id];
      by destruct (String.eqb_spec (action_id r) (actionId c)).
Qed.

(** X16: a principal without a row in [scores] burns the action id: the
    first call commits the action row, moves no score and ends in a
    TypeError; every later call for the same principal and action id is
    answered DUPLICATE_ACTION, so the points are never granted. *)
Theorem action_without_score_row_is_burnt
    (sch : Uniqueness) (c retry : Call) (st : Store) :
  lockKey (userId c) (actionId c) ∉ locks st →
  List.filter (λ s, String.eqb (user_id s) (userId c)) (scores (db st)) = [] →
  Forall (λ r, action_id r ≠ actionId c) (actions (db st)) →
  int4 (scoreIncrement c) = true →
  userId retry = userId c → actionId retry = actionId c →
  let st1 := (update_handler sch c st).2 in
  (update_handler sch c st).1 = Thrown TypeError ∧
  st1 = mkStore (mkDb (actions (db st) ++ [row_of c])%list (scores (db st))) (locks st) ∧
  update_handler sch retry st1 = (Conflict "DUPLICATE_ACTION", st1).
Proof.
  intros Hlock Hno Hfresh Hfits Hu Ha. cbv zeta.
  destruct (fresh_action_id sch c _ Hfresh) as [Hsel Hconf].
  assert (Hfirst : update_handler sch c st =
    (Thrown TypeError,
     mkStore (mkDb (actions (db st) ++ [row_of c])%list (scores (db st))) (locks st))).
  { unfold update_handler, acquireLock. cbv zeta. case_decide; [done |]. cbn [negb].
    unfold try_body. rewrite Hsel. cbn [length Nat.ltb Nat.leb].
    unfold transaction, insert_action. cbn [row_of score_value]. rewrite Hfits.
    cbn [negb]. change (mkAction _ _ _ _ _) with (row_of c). rewrite Hconf.
    unfold update_scores. cbv zeta. rewrite Hno. cbn [List.map forallb handler_catch].
    f_equal. f_equal.
    - f_equal. change (List.map _ (scores (db st))) with (scores_after c (scores (db st))).
      by apply scores_after_no_row.
    - unfold releaseLock. set_solver. }
  rewrite Hfirst. cbn [fst snd]. split; [done |]. split; [done |].
  apply update_handler_existing.
  - cbn [db actions]. rewrite Hu, Ha, select_existing_app, select_existing_row.
    by destruct (select_existing _ _ _).
  - cbn [locks]. by rewrite Hu, Ha.
Qed.

(** Carol has no row in [scores]. *)
Definition carol_first : Call := mkCall "carol" "c1" "task_completion" 10 3000.
Definition carol_retry : Call := mkCall "carol" "c1" "task_completion" 10 4000.

Lemma action_without_score_row_is_burnt_witness :
  let st1 := (update_handler UniqueGlobal carol_first example_store).2 in
  (update_handler UniqueGlobal carol_first example_store).1 = Thrown TypeError ∧
  st1 = mkStore (mkDb (actions (db example_store) ++ [row_of carol_first])%list
                      (scores (db example_store))) (locks example_store) ∧
  update_handler UniqueGlobal carol_retry st1 = (Conflict "DUPLICATE_ACTION", st1).
Proof.
  apply (action_without_score_row_is_burnt UniqueGlobal carol_first carol_retry example_store);
    [set_solver | reflexivity | by repeat constructor | reflexivity | reflexivity
    | reflexivity].
Defined.

(** *** The ledger equality *)

Definition has_aggregate (scs : list Score) (p : string) : bool :=
  existsb (λ s, String.eqb (user_id s) p) scs.

(** The ledger equality as the claim states it, for every principal: every
    row of [scores] holds the sum of the values of its principal's action
    rows, and every principal with an action row has a row in [scores]. *)
Definition ledger_for_every_principal (d : Db) : bool :=
  ledger_inv d && forallb (λ r, has_aggregate (scores d) (a_user_id r)) (actions d).

(** C1: the handler breaks the ledger equality it sets out to keep.  Carol
    has no row in [scores]; the equality holds for every principal before her
    call.  The INSERT succeeds, the UPDATE matches no row and is no error, the
    COMMIT goes through, and only then reading [result.rows[0]] throws: the
    call ends, the lock is released, and the action row of 10 points is
    committed while no score has moved.  Under either uniqueness rule. *)
Theorem action_committed_without_its_score (sch : Uniqueness) :
  let out := update_handler sch carol_first example_store in
  ledger_for_every_principal (db example_store) = true ∧
  out.1 = Thrown TypeError ∧
  locks out.2 = locks example_store ∧
  actions (db out.2) = [alice_a1; mkAction "c1" "carol" "task_completion" 10 3000] ∧
  scores (db out.2) = scores (db example_store) ∧
  score_sum "carol" (actions (db out.2)) = 10 ∧
  has_aggregate (scores (db out.2)) "carol" = false ∧
  ledger_for_every_principal (db out.2) = false.
Proof. destruct sch; vm_compute; done. Qed.

(** *** The tables only grow *)

(** The tables of [d'] extend those of [d]: the action rows of [d] are
    still there, in place and unaltered, followed by rows of the given calls,
    and [scores] holds the same principals in the same order. *)
Definition extends (cs : list Call) (d d' : Db) : Prop :=
  (∃ added, actions d' = (actions d ++ added)%list ∧
            Forall (λ r, ∃ c, In c cs ∧ r = row_of c) added) ∧
  user_id <$> scores d' = user_id <$> scores d.

Lemma extends_refl cs d : extends cs d d.
Proof. split; [| done]. exists []. by rewrite app_nil_r. Qed.

Lemma extends_trans cs d1 d2 d3 : extends cs d1 d2 → extends cs d2 d3 → extends cs d1 d3.
Proof.
  intros [(a1 & H1 & F1) U1] [(a2 & H2 & F2) U2]. split; [| congruence].
  exists (a1 ++ a2)%list. split; [by rewrite H2, H1, <- app_assoc |].
  by apply Forall_app.
Qed.

Lemma scores_after_user_id c (scs : list Score) :
  user_id <$> scores_after c scs = user_id <$> scs.
Proof.
  unfold scores_after. induction scs as [| s scs IH]; [done |].
  cbn [List.map fmap list_fmap]. f_equal; [by destruct (String.eqb _ _) | exact IH].
Qed.

Lemma transaction_extends sch cs c d :
  In c cs → extends cs d (transaction sch c d).2.
Proof.
  intros Hin.
  assert (Hcommit : extends cs d
            (mkDb (actions d ++ [row_of c])%list (scores_after c (scores d)))).
  { split; [| apply scores_after_user_id]. exists [row_of c]. split; [done |].
    constructor; [by exists c | constructor]. }
  destruct (transaction_cases sch c d) as [[e ->] | [_ [[_ ->] | (s & rest & _ & _ & ->)]]];
    cbn [snd]; [apply extends_refl | done | done].
Qed.

Lemma step_extends sch cs c pc st :
  In c cs → extends cs (db st) (db (step sch c pc st).2).
Proof.
  intros Hin. destruct pc; cbn [step]; try apply extends_refl.
  - unfold acquireLock. cbv zeta. case_decide; apply extends_refl.
  - destruct (0 <? _)%nat; apply extends_refl.
  - pose proof (transaction_extends sch cs c (db st) Hin) as H.
    by destruct (transaction sch c (db st)).
Qed.

Lemma fire_calls sch sys ev : fst <$> calls (fire sch sys ev) = fst <$> calls sys.
Proof.
  destruct ev as [i | key]; cbn [fire]; [| done].
  destruct (calls sys !! i) as [[c pc] |] eqn:Hi; [| done].
  destruct (step sch c pc (store sys)) as [pc' st']. cbn [calls].
  rewrite list_fmap_insert. cbn [fst]. apply list_insert_id.
  by rewrite list_lookup_fmap, Hi.
Qed.

Lemma fire_extends sch sys ev :
  extends (fst <$> calls sys) (db (store sys)) (db (store (fire sch sys ev))).
Proof.
  destruct ev as [i | key]; cbn [fire]; [| apply extends_refl].
  destruct (calls sys !! i) as [[c pc] |] eqn:Hi; [| apply extends_refl].
  assert (Hin : In c (fst <$> calls sys)).
  { apply list_elem_of_In, list_elem_of_fmap. exists (c, pc). split; [done |].
    by eapply list_elem_of_lookup_2. }
  pose proof (step_extends sch _ c pc (store sys) Hin) as H.
  by destruct (step sch c pc (store sys)).
Qed.

(** X17: the tables only grow.  Whatever the calls in flight do, in
    whatever order, and whatever locks expire, every action row committed
    before is still there afterwards, in place and unaltered; every row added
    is the row of one of the calls; and no row of [scores] is added, removed
    or given to another principal. *)
Theorem ledger_is_append_only (sch : Uniqueness) (sys : System) (schedule : list Event) :
  (∃ added,
     actions (db (store (run sch sys schedule))) =
       (actions (db (store sys)) ++ added)%list ∧
     Forall (λ r, ∃ c, In c (fst <$> calls sys) ∧ r = row_of c) added) ∧
  user_id <$> scores (db (store (run sch sys schedule))) =
  user_id <$> scores (db (store sys)).
Proof.
  change (extends (fst <$> calls sys) (db (store sys)) (db (store (run sch sys schedule)))).
  unfold run. revert sys. induction schedule as [| ev schedule IH]; intros sys;
    [apply extends_refl |].
  cbn [fold_left]. eapply extends_trans; [apply fire_extends |].
  rewrite <- (fire_calls sch sys ev). apply IH.
Qed.

(** *** The count of actions *)

(** [total_actions] of a row of [scores] is the number of action rows of
    its principal. *)
Definition count_inv (d : Db) : bool :=
  forallb (λ s, total_actions s =?
                Z.of_nat (length (List.filter (λ r, String.eqb (a_user_id r) (user_id s))
                                    (actions d))))
          (scores d).

Lemma count_inv_commit c d :
  count_inv d = true →
  count_inv (mkDb (actions d ++ [row_of c])%list (scores_after c (scores d))) = true.
Proof.
  unfold count_inv, scores_after. cbn [actions scores].
  rewrite !forallb_forall. intros Hinv s' Hin.
  apply in_map_iff in Hin as (s & <- & Hin). specialize (Hinv s Hin).
  apply Z.eqb_eq in Hinv. apply Z.eqb_eq.
  rewrite List.filter_app, length_app. cbn [List.filter row_of a_user_id].
  destruct (String.eqb_spec (user_id s) (userId c)) as [Heq | Hne].
  - cbn [bump user_id total_actions]. rewrite Heq, String.eqb_refl. cbn [length].
    rewrite <- Heq. lia.
  - destruct (String.eqb_spec (userId c) (user_id s)); [congruence |]. cbn [length]. lia.
Qed.

Lemma transaction_count_inv sch c d :
  count_inv d = true → count_inv (transaction sch c d).2 = true.
Proof.
  intros Hinv.
  destruct (transaction_cases sch c d) as [[e ->] | [_ [[_ ->] | (s & rest & _ & _ & ->)]]];
    cbn [snd]; auto using count_inv_commit.
Qed.

Lemma update_handler_count_inv sch c st :
  count_inv (db st) = true → count_inv (db (update_handler sch c st).2) = true.
Proof.
  intros Hinv. destruct (update_handler_db sch c st) as [-> | ->]; [done |].
  unfold try_body. destruct (0 <? _)%nat; [done | by apply transaction_count_inv].
Qed.

(** Calls handled one after the other, each from its start to its end. *)
Definition handle_in_turn (sch : Uniqueness) (cs : list Call) (st : Store) : Store :=
  fold_left (λ st c, (update_handler sch c st).2) cs st.

(** X18: [total_actions] counts the committed actions of calls handled one
    at a time: when every row of [scores] holds the number of action rows of
    its principal, it still does after any number of calls of the handler,
    each run from its start to its end, whatever their outcomes. *)
Theorem total_actions_counts_the_ledger (sch : Uniqueness) (cs : list Call) (st : Store) :
  count_inv (db st) = true →
  count_inv (db (handle_in_turn sch cs st)) = true.
Proof.
  unfold handle_in_turn. revert st.
  induction cs as [| c cs IH]; intros st Hinv; [done |].
  cbn [fold_left]. apply IH. by apply update_handler_count_inv.
Qed.

Lemma total_actions_counts_the_ledger_witness :
  count_inv (db (handle_in_turn UniqueGlobal
                   [alice_next; bob_replays_a1; carol_first; alice_next] example_store))
  = true.
Proof.
  apply (total_actions_counts_the_ledger UniqueGlobal
           [alice_next; bob_replays_a1; carol_first; alice_next] example_store).
  reflexivity.
Defined.

(** *** The lock key *)

Fixpoint no_colon (s : string) : bool :=
  match s with
  | EmptyString => true
  | String c s' => negb (Ascii.eqb c ":") && no_colon s'
  end.

Lemma append_cons c (s t : string) : String c s ++ t = String c (s ++ t).
Proof. reflexivity. Qed.

Lemma append_nil (t : string) : "" ++ t = t.
Proof. reflexivity. Qed.

Lemma append_assoc (s1 s2 s3 : string) : (s1 ++ s2) ++ s3 = s1 ++ s2 ++ s3.
Proof.
  induction s1 as [| c s1 IH]; [done |]. by rewrite !append_cons, IH.
Qed.

Lemma colon_separates (u1 u2 a1 a2 : string) :
  no_colon u1 = true → no_colon u2 = true →
  u1 ++ ":" ++ a1 = u2 ++ ":" ++ a2 → u1 = u2 ∧ a1 = a2.
Proof.
  revert u2. induction u1 as [| c1 u1 IH]; intros [| c2 u2];
    rewrite ?append_cons, ?append_nil; cbn [no_colon].
  - intros _ _ [= ->]. done.
  - intros _ Hc [= <- _]. done.
  - intros Hc _ [= -> _]. done.
  - intros [_ H1]%andb_true_iff [_ H2]%andb_true_iff [= -> Heq].
    destruct (IH u2 H1 H2 Heq) as [-> ->]. done.
Qed.

(** X19: the lock key tells the calls apart as long as principal ids hold
    no colon: two calls share a lock only when they are for the same
    principal and the same action id. *)
Theorem lockKey_injective (u1 u2 a1 a2 : string) :
  no_colon u1 = true → no_colon u2 = true →
  lockKey u1 a1 = lockKey u2 a2 → u1 = u2 ∧ a1 = a2.
Proof.
  intros H1 H2 Heq. unfold lockKey in Heq.
  apply (String.app_inj "action_lock:") in Heq. by apply colon_separates.
Qed.

Lemma lockKey_injective_witness : "alice" = "alice" ∧ "a1" = "a1".
Proof.
  apply (lockKey_injective "alice" "alice" "a1" "a1"); reflexivity.
Defined.

(** X20: the lock key does not tell the calls apart in general: the key
    is the concatenation of the two ids around a colon, so the principal
    [u:x] with the action id [y] and the principal [u] with the action id
    [x:y] take the same lock, and while one holds it the other is refused. *)
Theorem lockKey_collides (u x y : string) (held : gset string) :
  lockKey (u ++ ":" ++ x) y = lockKey u (x ++ ":" ++ y) ∧
  (acquireLock u (x ++ ":" ++ y) (acquireLock (u ++ ":" ++ x) y held).2).1 = false.
Proof.
  assert (Hkey : lockKey (u ++ ":" ++ x) y = lockKey u (x ++ ":" ++ y)).
  { unfold lockKey. by rewrite !append_assoc. }
  split; [exact Hkey |].
  unfold acquireLock. cbv zeta. rewrite Hkey.
  destruct (decide (lockKey u (x ++ ":" ++ y) ∈ held)) as [Hin | Hout]; cbn [snd].
  - by rewrite decide_True.
  - rewrite decide_True; [done | set_solver].
Qed.

(** ** The statements of the transaction, one by one

    [step] above takes BEGIN, INSERT, UPDATE and COMMIT, with the ROLLBACK
    of the catch block, as one step.  The handler awaits each of them on
    [db], which all requests share.  This module takes [db] as one
    connection and follows each statement on its own, with the transaction
    block of the connection as PostgreSQL keeps it: it shows that the
    statements of a call that no other call interrupts do what [transaction]
    does, and what happens when the statements of two calls mix. *)

Module Statements.

(** The transaction block of the connection: none, one in progress, or one
    that a failed statement has aborted; with the database at its BEGIN. *)
Inductive Tx := Idle | Open (snapshot : Db) | Aborted (snapshot : Db).

Record Session := mkSession { table : Db; tx : Tx }.

(** What a statement can raise: its own error, or the refusal of every
    statement but COMMIT and ROLLBACK in an aborted block. *)
Inductive StmtError := Raised (e : DbError) | InFailedTransaction.

(** BEGIN: a second BEGIN inside a block is a warning and no more. *)
Definition begin (σ : Session) : option StmtError * Session :=
  match tx σ with
  | Idle => (None, mkSession (table σ) (Open (table σ)))
  | Open _ => (None, σ)
  | Aborted _ => (Some InFailedTransaction, σ)
  end.

(** A statement that writes.  Outside a block it commits on its own; inside
    a block its error aborts the block. *)
Definition write {R} (f : Db → DbError + (Db * R)) (σ : Session)
  : (StmtError + R) * Session :=
  match tx σ with
  | Aborted _ => (inl InFailedTransaction, σ)
  | Idle =>
      match f (table σ) with
      | inl e => (inl (Raised e), σ)
      | inr (d', rows) => (inr rows, mkSession d' Idle)
      end
  | Open snapshot =>
      match f (table σ) with
      | inl e => (inl (Raised e), mkSession (table σ) (Aborted snapshot))
      | inr (d', rows) => (inr rows, mkSession d' (Open snapshot))
      end
  end.

(** COMMIT: of an aborted block it is a ROLLBACK, and raises nothing. *)
Definition commit (σ : Session) : Session :=
  match tx σ with
  | Idle => σ
  | Open _ => mkSession (table σ) Idle
  | Aborted snapshot => mkSession snapshot Idle
  end.

Definition rollback (σ : Session) : Session :=
  match tx σ with
  | Idle => σ
  | Open snapshot | Aborted snapshot => mkSession snapshot Idle
  end.

Definition insert_stmt (sch : Uniqueness) (c : Call) (d : Db) : DbError + (Db * unit) :=
  match insert_action sch (row_of c) (actions d) with
  | inl e => inl e
  | inr acts' => inr (mkDb acts' (scores d), tt)
  end.

Definition update_stmt (c : Call) (d : Db) : DbError + (Db * list Score) :=
  match update_scores (scoreIncrement c) (clock c) (userId c) (scores d) with
  | inl e => inl e
  | inr (scs', rows) => inr (mkDb (actions d) scs', rows)
  end.

(** How a call ends: with a response of the handler, or with the refusal
    of the aborted block thrown on. *)
Inductive Answer := Replied (r : Response) | ThrownOn (e : StmtError).

Definition catch (e : StmtError + Failure) : Answer :=
  match e with
  | inl (Raised e) => Replied (handler_catch (DbFailure e))
  | inl InFailedTransaction => ThrownOn InFailedTransaction
  | inr f => Replied (handler_catch f)
  end.

(** Where a call is between its statements, past the lock and the check. *)
Inductive Point :=
| AtBegin
| AtInsert
| AtUpdate
| AtCommit (rows : list Score)
| AtRollback (e : StmtError + Failure)
| Done (a : Answer).

Definition next (sch : Uniqueness) (c : Call) (pt : Point) (σ : Session) : Point * Session :=
  match pt with
  | AtBegin =>
      match begin σ with
      | (None, σ') => (AtInsert, σ')
      | (Some e, σ') => (AtRollback (inl e), σ')
      end
  | AtInsert =>
      match write (insert_stmt sch c) σ with
      | (inr _, σ') => (AtUpdate, σ')
      | (inl e, σ') => (AtRollback (inl e), σ')
      end
  | AtUpdate =>
      match write (update_stmt c) σ with
      | (inr rows, σ') => (AtCommit rows, σ')
      | (inl e, σ') => (AtRollback (inl e), σ')
      end
  | AtCommit rows =>
      match rows with
      | [] => (AtRollback (inr TypeError), commit σ)
      | row :: _ => (Done (Replied (Ok (current_score row) (scoreIncrement c))), commit σ)
      end
  | AtRollback e => (Done (catch e), rollback σ)
  | Done a => (Done a, σ)
  end.

(** The calls past their checks, with the connection they share; a
    schedule names the call that sends its next statement. *)
Definition send (sch : Uniqueness) (sys : list (Call * Point) * Session) (i : nat)
  : list (Call * Point) * Session :=
  match sys.1 !! i with
  | Some (c, pt) =>
      let '(pt', σ') := next sch c pt sys.2 in (<[i := (c, pt')]> sys.1, σ')
  | None => sys
  end.

Definition send_all (sch : Uniqueness) (sys : list (Call * Point) * Session)
    (schedule : list nat) : list (Call * Point) * Session :=
  fold_left (send sch) schedule sys.

(** The statements of one call, sent with nothing in between. *)
Definition alone (sch : Uniqueness) (c : Call) (σ : Session) : Point * Session :=
  let again (ps : Point * Session) := next sch c ps.1 ps.2 in
  again (again (again (again (again (AtBegin, σ))))).

(** On a connection with no block open, the statements of a call that
    nothing interrupts do what [transaction] does, and leave no block open. *)
Lemma alone_is_transaction (sch : Uniqueness) (c : Call) (d : Db) :
  alone sch c (mkSession d Idle) =
    (Done (Replied (transaction sch c d).1), mkSession (transaction sch c d).2 Idle).
Proof.
  unfold transaction.
  cbv [alone next begin write insert_stmt update_stmt commit rollback catch tx table fst snd].
  destruct (insert_action sch (row_of c) (actions d)) as [e | acts']; [done |].
  cbv [scores actions].
  destruct (update_scores _ _ _ _) as [e | [scs' rows]]; [done |].
  by destruct rows.
Qed.

(** Alice stands one step below the top of the INT column, and sends two
    actions of 40 points at once.  Their lock keys differ, so both calls pass
    the lock and the check. *)
Definition alice_top : Db :=
  mkDb [mkAction "a0" "alice" "bonus_action" 2147483600 1000]
       [mkScore "alice" 2147483600 1 (Some 1000)].

Definition alice_a : Call := mkCall "alice" "a2" "task_completion" 40 2000.
Definition alice_b : Call := mkCall "alice" "a3" "task_completion" 40 2001.

(** Run one after the other, the first action is granted and the second,
    which would overflow the score, is rolled back whole. *)
Example one_after_the_other :
  let first := transaction UniqueGlobal alice_a alice_top in
  let second := transaction UniqueGlobal alice_b first.2 in
  first.1 = Ok 2147483640 40 ∧
  second.1 = Thrown (DbFailure NumericOutOfRange) ∧
  action_id <$> actions second.2 = ["a0"; "a2"] ∧
  ledger_inv second.2 = true.
Proof. vm_compute. done. Qed.

(** With their statements mixed, the COMMIT of the first call commits the
    INSERT of the second as well; the UPDATE of the second then runs outside
    any block and fails, and its ROLLBACK has nothing left to undo: the
    second action row stays, with no score for it. *)
Example mixed_statements_split_the_pair :
  let sys := send_all UniqueGlobal
               ([(alice_a, AtBegin); (alice_b, AtBegin)], mkSession alice_top Idle)
               [0; 1; 0; 1; 0; 0; 1; 1]%nat in
  ledger_inv alice_top = true ∧
  snd <$> sys.1 =
    [Done (Replied (Ok 2147483640 40));
     Done (Replied (Thrown (DbFailure NumericOutOfRange)))] ∧
  tx sys.2 = Idle ∧
  action_id <$> actions (table sys.2) = ["a0"; "a2"; "a3"] ∧
  current_score <$> scores (table sys.2) = [2147483640] ∧
  score_sum "alice" (actions (table sys.2)) = 2147483680 ∧
  ledger_inv (table sys.2) = false.
Proof. vm_compute. done. Qed.

(** *** What does not rest on the grouping

    The uniqueness of the action ids under [unique_action_id] and the growth
    of the committed action rows hold of the statements one by one, however
    the statements of the calls mix. *)

(** The database as committed: the tables outside a block, the snapshot
    inside one. *)
Definition committed (σ : Session) : Db :=
  match tx σ with
  | Idle => table σ
  | Open snapshot | Aborted snapshot => snapshot
  end.

(** No two action rows share an id, in the tables and in the snapshot; and
    the action rows of the tables are those committed, followed by those the
    block has inserted. *)
Definition sound (σ : Session) : Prop :=
  NoDup (action_id <$> actions (table σ)) ∧
  NoDup (action_id <$> actions (committed σ)) ∧
  ∃ pending, actions (table σ) = (actions (committed σ) ++ pending)%list.

Definition grows (σ σ' : Session) : Prop :=
  ∃ added, actions (committed σ') = (actions (committed σ) ++ added)%list.

Lemma grows_refl σ : grows σ σ.
Proof. exists []. by rewrite app_nil_r. Qed.

Lemma grows_trans σ1 σ2 σ3 : grows σ1 σ2 → grows σ2 σ3 → grows σ1 σ3.
Proof.
  intros [a1 H1] [a2 H2]. exists (a1 ++ a2)%list. by rewrite H2, H1, <- app_assoc.
Qed.

Lemma insert_action_appends sch r (acts acts' : list Action) :
  insert_action sch r acts = inr acts' → acts' = (acts ++ [r])%list.
Proof.
  unfold insert_action. destruct (negb _); [done |]. destruct (existsb _ _); [done |].
  by intros [= <-].
Qed.

Lemma update_scores_actions c d d' rows :
  update_stmt c d = inr (d', rows) → actions d' = actions d.
Proof.
  unfold update_stmt. destruct (update_scores _ _ _ _) as [e | [scs' rows']]; [done |].
  by intros [= <- _].
Qed.

Ltac settle :=
  split; unfold sound, grows, committed; cbn [table tx actions snd];
  split_and?; eauto; try (exists []; by rewrite ?app_nil_r).

Lemma next_sound c pt σ :
  sound σ → sound (next UniqueGlobal c pt σ).2 ∧ grows σ (next UniqueGlobal c pt σ).2.
Proof.
  intros (Htable & Hcommitted & pending & Hpending).
  destruct σ as [d t]. unfold committed in *. cbn [table tx] in *.
  destruct pt as [| | | rows | e | a]; cbn [next].
  - (* BEGIN *)
    unfold begin. cbn [tx table]. destruct t; settle.
  - (* INSERT *)
    unfold write, insert_stmt. cbn [tx table].
    destruct (insert_action UniqueGlobal (row_of c) (actions d)) as [e | acts'] eqn:Hins.
    { destruct t; settle. }
    pose proof (insert_action_global_NoDup _ _ _ Htable Hins) as Hnd.
    apply insert_action_appends in Hins as ->.
    destruct t; [| | settle].
    + split; unfold sound, grows, committed; cbn [table tx actions snd].
      * split_and!; [done | done |]. exists []. by rewrite app_nil_r.
      * by exists [row_of c].
    + split; unfold sound, grows, committed; cbn [table tx actions snd].
      * split_and!; [done | done |].
        exists (pending ++ [row_of c])%list. by rewrite Hpending, <- app_assoc.
      * exists []. by rewrite app_nil_r.
  - (* UPDATE *)
    unfold write. cbn [tx table].
    destruct (update_stmt c d) as [e | [d' rows]] eqn:Hupd.
    { destruct t; settle. }
    apply update_scores_actions in Hupd.
    destruct t; [| | settle].
    + split; unfold sound, grows, committed; cbn [table tx actions snd]; rewrite Hupd.
      * split_and!; [done | done |]. exists []. by rewrite app_nil_r.
      * exists []. by rewrite app_nil_r.
    + split; unfold sound, grows, committed; cbn [table tx actions snd]; rewrite ?Hupd.
      * split_and!; eauto.
      * exists []. by rewrite app_nil_r.
  - (* COMMIT *)
    assert (Hcommit : sound (commit (mkSession d t)) ∧
                      grows (mkSession d t) (commit (mkSession d t))).
    { unfold commit. cbn [tx table]. destruct t; settle. }
    by destruct rows.
  - (* ROLLBACK *)
    unfold rollback. cbn [tx table]. destruct t; settle.
  - settle.
Qed.

(** However the statements of the calls mix: under [unique_action_id] no
    two action rows ever share an id, and every action row once committed
    stays, in place and unaltered. *)
Lemma statements_keep_ids_unique_and_rows
    (sys : list (Call * Point) * Session) (schedule : list nat) :
  sound sys.2 →
  sound (send_all UniqueGlobal sys schedule).2 ∧
  grows sys.2 (send_all UniqueGlobal sys schedule).2.
Proof.
  unfold send_all. revert sys.
  induction schedule as [| i schedule IH]; intros sys Hsound;
    [split; [done | apply grows_refl] |].
  cbn [fold_left].
  assert (Hsend : sound (send UniqueGlobal sys i).2 ∧ grows sys.2 (send UniqueGlobal sys i).2).
  { unfold send. destruct (sys.1 !! i) as [[c pt] |]; [| split; [done | apply grows_refl]].
    pose proof (next_sound c pt sys.2 Hsound) as H.
    by destruct (next UniqueGlobal c pt sys.2). }
  destruct Hsend as [Hs Hg]. destruct (IH _ Hs) as [Hs' Hg'].
  split; [done | by eapply grows_trans].
Qed.

End Statements.

(** ** Rate limiting per action type *)

Module RateLimit.

Record Limits := mkLimits { window : Z; max : Z }.

(** [actionRateLimits]: the action types with their window (ms) and
    maximum. *)
Definition actionRateLimits (actionType : string) : option Limits :=
  if String.eqb actionType "task_completion" then Some (mkLimits 60000 5)
  else if String.eqb actionType "achievement_unlock" then Some (mkLimits 300000 2)
  else if String.eqb actionType "bonus_action" then Some (mkLimits 3600000 10)
  else None.

(** A Redis key holding a counter: the integer INCR maintains (kept as a
    decimal string by Redis, hence truthy in JS whenever present) and the
    instant, in seconds, at which the key expires, if a TTL is set. *)
Record Entry := mkEntry { value : Z; expires_at : option Z }.

Definition live (now : Z) (e : Entry) : bool :=
  match expires_at e with
  | Some t => now <? t
  | None => true
  end.

(** [redis.get(key)] at time [now]. *)
Definition redis_get (now : Z) (key : string) (m : gmap string Entry) : option Z :=
  match m !! key with
  | Some e => if live now e then Some (value e) else None
  | None => None
  end.

(** [INCR key]: a missing or expired key counts from zero and has no TTL. *)
Definition redis_incr (now : Z) (key : string) (m : gmap string Entry) : gmap string Entry :=
  match m !! key with
  | Some e => if live now e then <[key := mkEntry (value e + 1) (expires_at e)]> m
              else <[key := mkEntry 1 None]> m
  | None => <[key := mkEntry 1 None]> m
  end.

(** [EXPIRE key seconds] *)
Definition redis_expire (now : Z) (key : string) (seconds : Z) (m : gmap string Entry)
  : gmap string Entry :=
  match m !! key with
  | Some e =>
      if live now e then
        if seconds <=? 0 then delete key m
        else <[key := mkEntry (value e) (Some (now + seconds))]> m
      else m
  | None => m
  end.

Inductive Verdict :=
| Reject (status : Z) (code : string)
| Next.

Definition rateKey (actionType userId : string) : string :=
  "rate_limit:" ++ actionType ++ ":" ++ userId.

(** [actionRateLimits] is an object literal, and [actionRateLimits[actionType]]
    also finds what the literal inherits from [Object.prototype].  For these
    names the lookup yields a function or an object: it is truthy, and its
    [max] and [window] are undefined. *)
Definition inherited (actionType : string) : bool :=
  existsb (String.eqb actionType)
    ["constructor"; "__proto__"; "hasOwnProperty"; "isPrototypeOf";
     "propertyIsEnumerable"; "toLocaleString"; "toString"; "valueOf";
     "__defineGetter__"; "__defineSetter__"; "__lookupGetter__"; "__lookupSetter__"].

(** The middleware [actionRateLimit], called at time [now] (in seconds).
    For an inherited name no count compares as [>= undefined], so the
    request always passes; INCR runs, and EXPIRE, given NaN seconds, is
    refused by Redis and sets no TTL. *)
Definition actionRateLimit (now : Z) (userId actionType : string) (m : gmap string Entry)
  : Verdict * gmap string Entry :=
  match actionRateLimits actionType with
  | None =>
      if inherited actionType
      then (Next, redis_incr now (rateKey actionType userId) m)
      else (Reject 400 "INVALID_ACTION_TYPE", m)
  | Some limits =>
      let key := rateKey actionType userId in
      let current := redis_get now key m in
      if match current with Some n => max limits <=? n | None => false end
      then (Reject 429 "ACTION_RATE_LIMIT", m)
      else
        (* redis.multi().incr(key).expire(key, Math.ceil(limits.window / 1000)).exec() *)
        (Next, redis_expire now key (- ((- window limits) / 1000)) (redis_incr now key m))
  end.

(** Submissions of one principal and action type, one after the other, at
    the given instants. *)
Fixpoint submit_all (times : list Z) (userId actionType : string) (m : gmap string Entry)
  : list Verdict * gmap string Entry :=
  match times with
  | [] => ([], m)
  | t :: times' =>
      let '(v, m') := actionRateLimit t userId actionType m in
      let '(vs, m'') := submit_all times' userId actionType m' in
      (v :: vs, m'')
  end.

(** The instant [t] lies in the window of the counter that [m] holds. *)
Definition in_window (t : Z) (key : string) (m : gmap string Entry) : bool :=
  bool_decide (is_Some (redis_get t key m)).

Lemma actionRateLimit_full now userId actionType m limits n :
  actionRateLimits actionType = Some limits →
  redis_get now (rateKey actionType userId) m = Some n →
  max limits <= n →
  actionRateLimit now userId actionType m = (Reject 429 "ACTION_RATE_LIMIT", m).
Proof.
  intros Hl Hget Hn. unfold actionRateLimit. rewrite Hl. cbv zeta. rewrite Hget.
  destruct (Z.leb_spec (max limits) n); [done | lia].
Qed.

(** The count a live key shows does not depend on the instant. *)
Lemma redis_get_in_window t now key m n :
  redis_get now key m = Some n → in_window t key m = true → redis_get t key m = Some n.
Proof.
  unfold in_window, redis_get. intros Hn Ht. apply bool_decide_eq_true in Ht as [n' Ht].
  destruct (m !! key) as [e |]; [| done].
  destruct (live now e); [| done]. destruct (live t e); [| done]. congruence.
Qed.

(** C5: when the live count of the (action type, principal) key has reached
    the maximum configured for the action type, the middleware answers 429
    ACTION_RATE_LIMIT and leaves the Redis state, the counter included, as it
    was; and so does every further submission made while that window lasts. *)
Theorem rate_limited_at_maximum (now : Z) (userId actionType : string)
    (m : gmap string Entry) (limits : Limits) (n : Z) (later : list Z) :
  actionRateLimits actionType = Some limits →
  redis_get now (rateKey actionType userId) m = Some n →
  max limits <= n →
  Forall (λ t, in_window t (rateKey actionType userId) m = true) later →
  actionRateLimit now userId actionType m = (Reject 429 "ACTION_RATE_LIMIT", m) ∧
  submit_all later userId actionType m =
    (replicate (length later) (Reject 429 "ACTION_RATE_LIMIT"), m).
Proof.
  intros Hl Hget Hn Hlater. split; [by eapply actionRateLimit_full |].
  induction Hlater as [| t later Ht _ IH]; [done |].
  cbn [submit_all length replicate].
  rewrite (actionRateLimit_full t userId actionType m limits n Hl); [| | done].
  - by rewrite IH.
  - by eapply redis_get_in_window.
Qed.

(** Five task completions of Bob within a minute have filled the window. *)
Definition bob_five : gmap string Entry :=
  (submit_all [0; 10; 20; 30; 40] "bob" "task_completion" ∅).2.

Lemma rate_limited_at_maximum_witness :
  actionRateLimit 50 "bob" "task_completion" bob_five
    = (Reject 429 "ACTION_RATE_LIMIT", bob_five) ∧
  submit_all [55; 70; 99] "bob" "task_completion" bob_five
    = (replicate (length [55; 70; 99]) (Reject 429 "ACTION_RATE_LIMIT"), bob_five).
Proof.
  apply (rate_limited_at_maximum 50 "bob" "task_completion" bob_five (mkLimits 60000 5) 5).
  - reflexivity.
  - vm_compute. reflexivity.
  - vm_compute. discriminate.
  - repeat constructor.
Defined.

(** An action type named like a member of [Object.prototype] is not
    refused as invalid: every submission passes, and the counter it
    increments never expires. *)
Example inherited_name_is_never_limited :
  (submit_all [0; 1; 2; 3; 4; 5; 6] "bob" "constructor" ∅).1 = replicate 7 Next ∧
  (submit_all [0; 1; 2; 3; 4; 5; 6] "bob" "constructor" ∅).2
    !! rateKey "constructor" "bob" = Some (mkEntry 7 None).
Proof. vm_compute. done. Qed.

(** The first five submissions pass and the sixth is refused; once the key
    has expired the counter starts again. *)
Example five_pass_sixth_refused :
  (submit_all [0; 10; 20; 30; 40; 50] "bob" "task_completion" ∅).1
    = [Next; Next; Next; Next; Next; Reject 429 "ACTION_RATE_LIMIT"] ∧
  (actionRateLimit 100 "bob" "task_completion" bob_five).1 = Next ∧
  (actionRateLimit 50 "bob" "no_such_type" bob_five).1 = Reject 400 "INVALID_ACTION_TYPE".
Proof. vm_compute. done. Qed.

(** *** Further properties: the window and the keys *)

(** [Math.ceil(limits.window / 1000)]: the TTL, in seconds, that every
    passing submission sets on the key. *)
Definition ttl (limits : Limits) : Z := - ((- window limits) / 1000).

(** Every instant of [ts] is less than [w] after the one before it,
    starting from [prev]. *)
Fixpoint spaced (w prev : Z) (ts : list Z) : bool :=
  match ts with
  | [] => true
  | t :: ts' => (t <? prev + w) && spaced w t ts'
  end.

Lemma configured actionType limits :
  actionRateLimits actionType = Some limits →
  (actionType = "task_completion" ∨ actionType = "achievement_unlock" ∨
   actionType = "bonus_action") ∧ 0 < max limits ∧ 0 < ttl limits.
Proof.
  unfold actionRateLimits.
  destruct (String.eqb_spec actionType "task_completion") as [-> | _];
    [intros [= <-]; split; [auto | by vm_compute] |].
  destruct (String.eqb_spec actionType "achievement_unlock") as [-> | _];
    [intros [= <-]; split; [auto | by vm_compute] |].
  destruct (String.eqb_spec actionType "bonus_action") as [-> | _];
    [intros [= <-]; split; [auto | by vm_compute] | done].
Qed.

Lemma pass_fresh now userId actionType m limits :
  actionRateLimits actionType = Some limits →
  redis_get now (rateKey actionType userId) m = None →
  actionRateLimit now userId actionType m =
    (Next, <[rateKey actionType userId := mkEntry 1 (Some (now + ttl limits))]> m).
Proof.
  intros Hl Hget. destruct (configured _ _ Hl) as (_ & _ & Httl).
  unfold actionRateLimit. rewrite Hl. cbv zeta. rewrite Hget. f_equal.
  fold (ttl limits).
  assert (redis_incr now (rateKey actionType userId) m =
          <[rateKey actionType userId := mkEntry 1 None]> m) as ->.
  { unfold redis_incr, redis_get in *.
    destruct (m !! rateKey actionType userId) as [e |]; [| done].
    by destruct (live now e). }
  unfold redis_expire. rewrite lookup_insert_eq. cbn [live expires_at value].
  destruct (Z.leb_spec (ttl limits) 0); [lia |]. by rewrite insert_insert_eq.
Qed.

Lemma pass_live now userId actionType m limits n e :
  actionRateLimits actionType = Some limits →
  m !! rateKey actionType userId = Some (mkEntry n (Some e)) →
  now < e → n < max limits →
  actionRateLimit now userId actionType m =
    (Next, <[rateKey actionType userId := mkEntry (n + 1) (Some (now + ttl limits))]> m).
Proof.
  intros Hl Hm Hnow Hn. destruct (configured _ _ Hl) as (_ & _ & Httl).
  unfold actionRateLimit. rewrite Hl. cbv zeta. fold (ttl limits).
  unfold redis_get, redis_incr. rewrite Hm. cbn [live expires_at value].
  destruct (Z.ltb_spec now e); [| lia].
  destruct (Z.leb_spec (max limits) n); [lia |]. f_equal.
  unfold redis_expire. rewrite lookup_insert_eq. cbn [live expires_at value].
  destruct (Z.ltb_spec now e); [| lia].
  destruct (Z.leb_spec (ttl limits) 0); [lia |]. by rewrite insert_insert_eq.
Qed.

Lemma submit_all_app ts ts' userId actionType m :
  submit_all (ts ++ ts')%list userId actionType m =
  ((submit_all ts userId actionType m).1 ++
   (submit_all ts' userId actionType (submit_all ts userId actionType m).2).1,
   (submit_all ts' userId actionType (submit_all ts userId actionType m).2).2)%list.
Proof.
  revert m. induction ts as [| t ts IH]; intros m.
  - cbn. by destruct (submit_all ts' userId actionType m).
  - cbn [app submit_all]. destruct (actionRateLimit t userId actionType m) as [v m'].
    rewrite IH. destruct (submit_all ts userId actionType m') as [vs m''].
    cbn [fst snd]. by destruct (submit_all ts' userId actionType m'').
Qed.

Lemma last_from (t prev : Z) (ts : list Z) : List.last (t :: ts) prev = List.last ts t.
Proof.
  revert t prev. induction ts as [| t' ts IH]; intros t prev; [done |].
  change (List.last (t :: t' :: ts) prev) with (List.last (t' :: ts) prev).
  by rewrite !IH.
Qed.

(** Submissions spaced less than the TTL apart all pass, as long as the
    maximum is not reached, and each moves the expiry. *)
Lemma submit_spaced userId actionType limits :
  actionRateLimits actionType = Some limits →
  ∀ ts n prev m,
    m !! rateKey actionType userId = Some (mkEntry n (Some (prev + ttl limits))) →
    spaced (ttl limits) prev ts = true →
    n + Z.of_nat (length ts) <= max limits →
    (submit_all ts userId actionType m).1 = replicate (length ts) Next ∧
    (submit_all ts userId actionType m).2 !! rateKey actionType userId =
      Some (mkEntry (n + Z.of_nat (length ts)) (Some (List.last ts prev + ttl limits))).
Proof.
  intros Hl. induction ts as [| t ts IH]; intros n prev m Hm Hsp Hn.
  - cbn. split; [done |]. rewrite Hm. do 2 f_equal. lia.
  - cbn [spaced] in Hsp. apply andb_true_iff in Hsp as [Ht Hsp].
    apply Z.ltb_lt in Ht. cbn [length] in Hn. cbn [submit_all].
    rewrite (pass_live t userId actionType m limits n (prev + ttl limits) Hl Hm Ht);
      [| lia].
    destruct (IH (n + 1) t
                (<[rateKey actionType userId :=
                     mkEntry (n + 1) (Some (t + ttl limits))]> m))
      as [Hv Hm']; [by rewrite lookup_insert_eq | done | lia |].
    destruct (submit_all ts userId actionType _) as [vs m'']. cbn [fst snd] in *.
    split; [by rewrite Hv |]. rewrite Hm', last_from. do 2 f_equal. cbn [length]. lia.
Qed.

(** X21: the window restarts at every submission that passes, because each
    one sets the TTL anew.  Starting from no live counter, submissions that
    each come less than a window after the one before are counted together,
    however long they go on: the first [max] pass, and every submission less
    than a window after the last of them is refused with 429. *)
Theorem window_restarts_at_every_pass (userId actionType : string)
    (m : gmap string Entry) (limits : Limits) (t0 : Z) (ts later : list Z) :
  actionRateLimits actionType = Some limits →
  redis_get t0 (rateKey actionType userId) m = None →
  spaced (ttl limits) t0 ts = true →
  Z.of_nat (length (t0 :: ts)) = max limits →
  Forall (λ t, t < List.last ts t0 + ttl limits) later →
  (submit_all ((t0 :: ts) ++ later) userId actionType m).1 =
    (replicate (length (t0 :: ts)) Next ++
     replicate (length later) (Reject 429 "ACTION_RATE_LIMIT"))%list.
Proof.
  intros Hl Hget Hsp Hlen Hlater. rewrite submit_all_app. cbn [fst].
  assert (Hfirst :
    (submit_all (t0 :: ts) userId actionType m).1 = replicate (length (t0 :: ts)) Next ∧
    (submit_all (t0 :: ts) userId actionType m).2 !! rateKey actionType userId =
      Some (mkEntry (max limits) (Some (List.last ts t0 + ttl limits)))).
  { cbn [submit_all]. rewrite (pass_fresh t0 userId actionType m limits Hl Hget).
    destruct (submit_spaced userId actionType limits Hl ts 1 t0
                (<[rateKey actionType userId := mkEntry 1 (Some (t0 + ttl limits))]> m))
      as [Hv Hm']; [by rewrite lookup_insert_eq | done | cbn [length] in Hlen; lia |].
    destruct (submit_all ts userId actionType _) as [vs m'']. cbn [fst snd] in *.
    split; [by rewrite Hv |]. rewrite Hm'. do 2 f_equal. cbn [length] in Hlen. lia. }
  destruct Hfirst as [-> Hfull]. f_equal.
  set (m1 := (submit_all (t0 :: ts) userId actionType m).2) in *.
  clearbody m1. induction Hlater as [| t later Ht _ IH]; [done |].
  cbn [submit_all length replicate].
  rewrite (actionRateLimit_full t userId actionType m1 limits (max limits) Hl); [| | lia].
  - destruct (submit_all later userId actionType m1) as [vs m2]. cbn [fst] in *.
    by rewrite IH.
  - unfold redis_get. rewrite Hfull. cbn [live expires_at value].
    by destruct (Z.ltb_spec t (List.last ts t0 + ttl limits)); [| lia].
Qed.

(** Bob completes a task every 59 seconds: never more than two in any
    minute, and the sixth is refused. *)
Lemma window_restarts_at_every_pass_witness :
  (submit_all ([0; 59; 118; 177; 236] ++ [295]) "bob" "task_completion" ∅).1 =
    (replicate (length [0; 59; 118; 177; 236]) Next ++
     replicate (length [295]) (Reject 429 "ACTION_RATE_LIMIT"))%list.
Proof.
  apply (window_restarts_at_every_pass "bob" "task_completion" ∅ (mkLimits 60000 5) 0
           [59; 118; 177; 236] [295]);
    [reflexivity | reflexivity | reflexivity | reflexivity |].
  constructor; [vm_compute; reflexivity | constructor].
Defined.

Lemma actionRateLimit_frame now userId actionType m k :
  k ≠ rateKey actionType userId →
  (actionRateLimit now userId actionType m).2 !! k = m !! k.
Proof.
  intros Hk.
  assert (Hincr : redis_incr now (rateKey actionType userId) m !! k = m !! k).
  { unfold redis_incr. destruct (m !! rateKey actionType userId) as [e |];
      [destruct (live now e) |]; by rewrite lookup_insert_ne. }
  unfold actionRateLimit.
  destruct (actionRateLimits actionType) as [limits |];
    [| by destruct (inherited actionType)]. cbv zeta.
  destruct (match redis_get _ _ _ with Some n => _ | None => false end); [done |].
  cbn [snd].
  unfold redis_expire.
  destruct (redis_incr now _ m !! rateKey actionType userId) as [e |]; [| done].
  destruct (live now e); [| done].
  destruct (_ <=? 0); [by rewrite lookup_delete_ne | by rewrite lookup_insert_ne].
Qed.

(** The key of an inherited name is the key of no configured pair. *)
Lemma rateKey_inherited actionType userId actionType' userId' limits' :
  inherited actionType = true →
  actionRateLimits actionType' = Some limits' →
  rateKey actionType userId ≠ rateKey actionType' userId'.
Proof.
  intros Hin Hl' Heq. unfold inherited in Hin.
  apply existsb_exists in Hin as (name & Hname & Heqb).
  apply String.eqb_eq in Heqb as ->.
  unfold rateKey in Heq. apply (String.app_inj "rate_limit:") in Heq.
  destruct (configured _ _ Hl') as ([-> | [-> | ->]] & _);
    repeat (destruct Hname as [<- | Hname]; [by cbv in Heq |]);
    destruct Hname.
Qed.

Lemma rateKey_apart actionType userId actionType' userId' limits limits' :
  actionRateLimits actionType = Some limits →
  actionRateLimits actionType' = Some limits' →
  rateKey actionType userId = rateKey actionType' userId' →
  actionType = actionType' ∧ userId = userId'.
Proof.
  intros Hl Hl' Heq.
  destruct (configured _ _ Hl) as ([-> | [-> | ->]] & _),
           (configured _ _ Hl') as ([-> | [-> | ->]] & _);
    unfold rateKey in Heq; apply (String.app_inj "rate_limit:") in Heq;
    cbv in Heq; by simplify_eq.
Qed.

(** X22: each principal and each action type has a counter of its own: a
    submission, whatever its verdict, leaves the counter of every other pair
    of a configured action type and a principal as it was. *)
Theorem counters_are_kept_apart (now : Z) (userId actionType userId' actionType' : string)
    (limits' : Limits) (m : gmap string Entry) :
  actionRateLimits actionType' = Some limits' →
  (actionType, userId) ≠ (actionType', userId') →
  (actionRateLimit now userId actionType m).2 !! rateKey actionType' userId' =
  m !! rateKey actionType' userId'.
Proof.
  intros Hl' Hne.
  destruct (actionRateLimits actionType) as [limits |] eqn:Hl.
  - apply actionRateLimit_frame. intros Heq.
    destruct (rateKey_apart _ _ _ _ _ _ Hl Hl' (eq_sym Heq)) as [-> ->]. done.
  - destruct (inherited actionType) eqn:Hin.
    + apply actionRateLimit_frame. intros Heq.
      by apply (rateKey_inherited _ _ _ _ _ Hin Hl' (eq_sym Heq)).
    + unfold actionRateLimit. by rewrite Hl, Hin.
Qed.

Lemma counters_are_kept_apart_witness :
  (actionRateLimit 50 "alice" "task_completion" bob_five).2 !! rateKey "task_completion" "bob" =
  bob_five !! rateKey "task_completion" "bob".
Proof.
  apply (counters_are_kept_apart 50 "alice" "task_completion" "bob" "task_completion"
           (mkLimits 60000 5) bob_five); [reflexivity | discriminate].
Defined.

End RateLimit.

(** ** Monitoring of suspicious activity *)

Module Monitor.

(** An element of the Redis list [user_actions:<userId>], as [JSON.parse]
    reads back what the function pushed. *)
Record Logged := mkLogged {
  l_actionType : string;
  l_scoreIncrement : Z;
  l_timestamp : Z
}.

Definition listKey (userId : string) : string := "user_actions:" ++ userId.

(** The list held under a key; a key that is absent holds the empty list. *)
Definition held (key : string) (m : gmap string (list Logged)) : list Logged :=
  match m !! key with Some l => l | None => [] end.

(** [LRANGE key 0 stop] *)
Definition lrange (key : string) (stop : nat) (m : gmap string (list Logged))
  : list Logged := take (S stop) (held key m).

(** [LPUSH key x] *)
Definition lpush (key : string) (x : Logged) (m : gmap string (list Logged))
  : gmap string (list Logged) := <[key := x :: held key m]> m.

(** [LTRIM key 0 stop] *)
Definition ltrim (key : string) (stop : nat) (m : gmap string (list Logged))
  : gmap string (list Logged) :=
  match m !! key with
  | Some l => <[key := take (S stop) l]> m
  | None => m
  end.

Definition high_value (now : Z) (a : Logged) : bool :=
  (500 <? l_scoreIncrement a) && (now - l_timestamp a <? 60000).

(** [monitorUserActivity], called when [Date.now()] reads [now]: the
    patterns flagged for the principal, and the lists afterwards. *)
Definition monitorUserActivity (now : Z) (userId actionType : string) (scoreIncrement : Z)
    (m : gmap string (list Logged)) : list (string * string) * gmap string (list Logged) :=
  let recentActions := lrange (listKey userId) 9 m in
  let highValueCount := length (List.filter (high_value now) recentActions) in
  let flags :=
    if (3 <? highValueCount)%nat then [(userId, "RAPID_HIGH_VALUE_ACTIONS")] else [] in
  (flags,
   ltrim (listKey userId) 9
     (lpush (listKey userId) (mkLogged actionType scoreIncrement now) m)).

(** The calls made for one principal, one after the other: the instant,
    the action type and the increment of each; for each call, whether it
    flagged the principal. *)
Fixpoint monitor_all (calls : list (Z * string * Z)) (userId : string)
    (m : gmap string (list Logged)) : list bool * gmap string (list Logged) :=
  match calls with
  | [] => ([], m)
  | (now, actionType, scoreIncrement) :: calls' =>
      let '(flags, m') := monitorUserActivity now userId actionType scoreIncrement m in
      let '(rest, m'') := monitor_all calls' userId m' in
      ((0 <? length flags)%nat :: rest, m'')
  end.

Lemma monitor_held now userId actionType scoreIncrement m :
  held (listKey userId) (monitorUserActivity now userId actionType scoreIncrement m).2 =
  take 10 (mkLogged actionType scoreIncrement now :: held (listKey userId) m).
Proof.
  unfold monitorUserActivity, ltrim, lpush. cbv zeta. cbn [snd].
  rewrite lookup_insert_eq. unfold held at 1. by rewrite lookup_insert_eq.
Qed.

Lemma monitor_frame now userId actionType scoreIncrement m k :
  k ≠ listKey userId →
  (monitorUserActivity now userId actionType scoreIncrement m).2 !! k = m !! k.
Proof.
  intros Hk. unfold monitorUserActivity, ltrim, lpush. cbv zeta. cbn [snd].
  rewrite lookup_insert_eq. rewrite !lookup_insert_ne by done. done.
Qed.

(** X23: the list of a principal never holds more than ten actions after a
    call, the newest first, and a call for one principal leaves the list of
    every other principal as it was. *)
Theorem history_is_bounded_and_private (now : Z) (userId actionType other : string)
    (scoreIncrement : Z) (m : gmap string (list Logged)) :
  other ≠ userId →
  let m' := (monitorUserActivity now userId actionType scoreIncrement m).2 in
  (length (held (listKey userId) m') <= 10)%nat ∧
  head (held (listKey userId) m') = Some (mkLogged actionType scoreIncrement now) ∧
  m' !! listKey other = m !! listKey other.
Proof.
  intros Hne. cbv zeta. rewrite monitor_held. split_and!.
  - rewrite length_take. lia.
  - done.
  - apply monitor_frame. intros Heq. apply (String.app_inj "user_actions:") in Heq. done.
Qed.

Lemma history_is_bounded_and_private_witness :
  let m' := (monitorUserActivity 1000 "alice" "task_completion" 600 ∅).2 in
  (length (held (listKey "alice") m') <= 10)%nat ∧
  head (held (listKey "alice") m') = Some (mkLogged "task_completion" 600 1000) ∧
  m' !! listKey "bob" = (∅ : gmap string (list Logged)) !! listKey "bob".
Proof.
  apply (history_is_bounded_and_private 1000 "alice" "task_completion" "bob" 600 ∅).
  discriminate.
Defined.

(** A call of a burst: worth more than 500 points, made within the minute
    that starts at [start]. *)
Definition in_burst (start : Z) (call : Z * string * Z) : bool :=
  let '(now, _, scoreIncrement) := call in
  (500 <? scoreIncrement) && (start <=? now) && (now <? start + 60000).

Definition burst_entry (start : Z) (a : Logged) : bool :=
  (500 <? l_scoreIncrement a) && (start <=? l_timestamp a).

Lemma filter_all {A} (f : A → bool) (l : list A) :
  forallb f l = true → List.filter f l = l.
Proof.
  induction l as [| x l IH]; [done |]. cbn [forallb List.filter].
  intros [-> H]%andb_true_iff. by rewrite IH.
Qed.

Lemma forallb_take {A} (f : A → bool) (n : nat) (l : list A) :
  forallb f l = true → forallb f (take n l) = true.
Proof.
  revert n. induction l as [| x l IH]; intros [| n]; try done.
  cbn [forallb take]. intros [-> H]%andb_true_iff. by apply IH.
Qed.

Lemma monitor_burst start userId : ∀ calls m,
  forallb (in_burst start) calls = true →
  forallb (burst_entry start) (held (listKey userId) m) = true →
  (length (held (listKey userId) m) <= 10)%nat →
  (monitor_all calls userId m).1 =
    (λ i, (3 <? length (held (listKey userId) m) + i)%nat) <$> seq 0 (length calls).
Proof.
  intros cs. induction cs as [| [[now ty] inc] calls IH]; intros m Hcalls Hheld Hlen;
    [done |].
  cbn [forallb] in Hcalls. apply andb_true_iff in Hcalls as [Hc Hcalls].
  unfold in_burst in Hc. apply andb_true_iff in Hc as [Hc Hhi].
  apply andb_true_iff in Hc as [Hinc Hlo].
  apply Z.ltb_lt in Hinc, Hhi. apply Z.leb_le in Hlo.
  cbn [monitor_all length seq fmap list_fmap].
  pose proof (monitor_held now userId ty inc m) as Hnext.
  pose proof (IH (monitorUserActivity now userId ty inc m).2 Hcalls) as IH'.
  destruct (monitorUserActivity now userId ty inc m) as [flags m'] eqn:Hm.
  cbn [snd] in *.
  assert (Hflags : (0 <? length flags)%nat = (3 <? length (held (listKey userId) m) + 0)%nat).
  { unfold monitorUserActivity in Hm. cbv zeta in Hm. injection Hm as <- _.
    unfold lrange. rewrite firstn_all2 by lia.
    rewrite filter_all.
    - rewrite Nat.add_0_r. by destruct (3 <? _)%nat.
    - rewrite forallb_forall in Hheld |- *. intros a Ha. specialize (Hheld a Ha).
      unfold burst_entry in Hheld. apply andb_true_iff in Hheld as [H1 H2].
      apply Z.leb_le in H2. unfold high_value. rewrite H1. cbn [andb].
      apply Z.ltb_lt. lia. }
  destruct (monitor_all calls userId m') as [rest m''] eqn:Hrest. cbn [fst] in *.
  rewrite Hflags. f_equal.
  rewrite IH'.
  - rewrite <- seq_shift, <- list_fmap_compose. apply list_fmap_ext. intros _ i _.
    unfold compose. cbv beta. rewrite Hnext, length_take. cbn [length].
    destruct (Nat.ltb_spec 3 (10 `min` S (length (held (listKey userId) m)) + i));
      destruct (Nat.ltb_spec 3 (length (held (listKey userId) m) + S i)); try done; lia.
  - rewrite Hnext. apply forallb_take. cbn [forallb]. rewrite Hheld, andb_true_r.
    unfold burst_entry. cbn [l_scoreIncrement l_timestamp].
    apply andb_true_iff. split; [by apply Z.ltb_lt | by apply Z.leb_le].
  - rewrite Hnext, length_take. lia.
Qed.

(** X24: in a burst of actions worth more than 500 points each, made
    within one minute by a principal with no recorded actions, the first four
    calls flag nothing and every call from the fifth on flags the principal:
    [highValueCount > 3] counts the actions recorded before the call, not the
    call itself. *)
Theorem burst_is_flagged_from_the_fifth (start : Z) (userId : string)
    (calls : list (Z * string * Z)) (m : gmap string (list Logged)) :
  m !! listKey userId = None →
  forallb (in_burst start) calls = true →
  (monitor_all calls userId m).1 = (λ i, (4 <=? i)%nat) <$> seq 0 (length calls).
Proof.
  intros Hm Hcalls.
  rewrite (monitor_burst start userId calls m Hcalls); unfold held; rewrite Hm;
    [| done | cbn; lia].
  apply list_fmap_ext. intros _ i _. cbn [length Nat.add].
  destruct (Nat.ltb_spec 3 i); destruct (Nat.leb_spec 4 i); try done; lia.
Qed.

Lemma burst_is_flagged_from_the_fifth_witness :
  (monitor_all [(1000, "task_completion", 600); (2000, "task_completion", 600);
                (3000, "bonus_action", 900); (4000, "task_completion", 600);
                (5000, "task_completion", 600); (6000, "task_completion", 501)]
     "alice" ∅).1 =
  (λ i, (4 <=? i)%nat) <$> seq 0 6.
Proof.
  apply (burst_is_flagged_from_the_fifth 1000 "alice"
           [(1000, "task_completion", 600); (2000, "task_completion", 600);
            (3000, "bonus_action", 900); (4000, "task_completion", 600);
            (5000, "task_completion", 600); (6000, "task_completion", 501)] ∅);
    reflexivity.
Defined.

End Monitor.

(** ** The leaderboard order *)

Module Leaderboard.

(** Byte-wise lexicographic order on identifiers. *)
Lemma ascii_compare_lt_trans (x y z : ascii) :
  Ascii.compare x y = Lt → Ascii.compare y z = Lt → Ascii.compare x z = Lt.
Proof.
  unfold Ascii.compare. rewrite !N.compare_lt_iff. lia.
Qed.

Lemma string_leb_trans (a b c : string) :
  String.leb a b = true → String.leb b c = true → String.leb a c = true.
Proof.
  unfold String.leb. revert b c.
  induction a as [| x a IH]; intros [| y b] [| z c]; cbn; try done.
  destruct (Ascii.compare x y) eqn:Hxy; [| | done].
  - apply Ascii.compare_eq_iff in Hxy as ->.
    destruct (Ascii.compare y z) eqn:Hyz; [| done | done]. apply IH.
  - destruct (Ascii.compare y z) eqn:Hyz; [| | done].
    + apply Ascii.compare_eq_iff in Hyz as <-. by rewrite Hxy.
    + by rewrite (ascii_compare_lt_trans x y z).
Qed.

(** Modelled from the spec: the order of the leaderboard (section 4.3: top K
    by score, descending; ties broken by ascending principal_id).  The
    repository has no code that builds the leaderboard; the README gives
    only the index on [current_score DESC] and the shape of the reply.  An
    entry is a pair (principal_id, score). *)
Definition ranks_before (a b : string * Z) : Prop :=
  b.2 < a.2 ∨ (a.2 = b.2 ∧ String.leb a.1 b.1 = true).

#[export] Instance ranks_before_dec a b : Decision (ranks_before a b).
Proof. unfold ranks_before. apply _. Defined.

#[export] Instance ranks_before_total : Total ranks_before.
Proof.
  intros [u1 s1] [u2 s2]. unfold ranks_before. cbn.
  destruct (Z.lt_trichotomy s1 s2) as [? | [-> | ?]]; [by right; left | | by left; left].
  destruct (String.leb_total u1 u2); [left | right]; by right.
Qed.

#[export] Instance ranks_before_trans : Transitive ranks_before.
Proof.
  intros [u1 s1] [u2 s2] [u3 s3]. unfold ranks_before. cbn.
  intros [? | [-> H12]] [? | [-> H23]]; [left; lia | by left | by left |].
  right. split; [done |]. by eapply string_leb_trans.
Qed.

#[export] Instance ranks_before_antisym : AntiSymm (=) ranks_before.
Proof.
  intros [u1 s1] [u2 s2]. unfold ranks_before. cbn.
  intros [? | [E12 H12]] [? | [E21 H21]]; try lia.
  subst s2. f_equal. by apply String.leb_antisym.
Qed.

(** Modelled from the spec: an entry of a LeaderboardSnapshot (section 3: an
    ordered sequence of (principal_id, score, rank) of length at most K); the
    repository declares no such type. *)
Record RankedEntry := mkRanked { principal_id : string; score : Z; rank : nat }.

Definition entry_of (e : RankedEntry) : string * Z := (principal_id e, score e).

(** Modelled from the spec: "Recompute re-reads all aggregates ordered by
    score"; the code of the recompute is not in the repository. *)
Definition ranking (aggs : list Score) : list (string * Z) :=
  merge_sort ranks_before ((λ s, (user_id s, current_score s)) <$> aggs).

(** Modelled from the spec: the ranks of a snapshot, counted upwards along
    the order; no code of the repository assigns ranks. *)
Fixpoint rank_from (n : nat) (l : list (string * Z)) : list RankedEntry :=
  match l with
  | [] => []
  | e :: l' => mkRanked e.1 e.2 n :: rank_from (S n) l'
  end.

(** Modelled from the spec: the snapshot a recompute builds, "truncated to
    K", with ranks counted from 1; the code of the recompute is not in the
    repository. *)
Definition recompute (K : nat) (aggs : list Score) : list RankedEntry :=
  rank_from 1 (take K (ranking aggs)).

(** *** Proofs *)

Lemma entry_of_rank_from n l : entry_of <$> rank_from n l = l.
Proof.
  revert n. induction l as [| [u s] l IH]; intros n; [done |].
  cbn. by rewrite IH.
Qed.

Lemma rank_from_lookup n l i e :
  rank_from n l !! i = Some e → rank e = (n + i)%nat ∧ l !! i = Some (entry_of e).
Proof.
  revert n i. induction l as [| [u s] l IH]; intros n i; [done |].
  destruct i as [| i]; cbn.
  - intros [= <-]. cbn. split; [lia | done].
  - intros H. apply IH in H as [-> ?]. split; [lia | done].
Qed.

Lemma ranking_sorted aggs : StronglySorted ranks_before (ranking aggs).
Proof. apply StronglySorted_merge_sort; apply _. Qed.

Lemma StronglySorted_lookup_lt {A} (R : relation A) (l : list A) i j a b :
  StronglySorted R l → (i < j)%nat → l !! i = Some a → l !! j = Some b → R a b.
Proof.
  intros Hs. revert i j. induction Hs as [| x l Hs IH Hx]; intros i j Hij Hi Hj; [done |].
  destruct j as [| j]; [lia |]. cbn in Hj.
  destruct i as [| i]; cbn in Hi.
  - injection Hi as ->. rewrite Forall_forall in Hx. apply Hx.
    by eapply list_elem_of_lookup_2.
  - eapply IH; [| done | done]. lia.
Qed.

Lemma ranking_perm aggs aggs' : aggs' ≡ₚ aggs → ranking aggs' = ranking aggs.
Proof.
  intros Hp. apply (StronglySorted_unique ranks_before); [apply ranking_sorted.. |].
  unfold ranking. rewrite !merge_sort_Permutation. by rewrite Hp.
Qed.

(** C7: a snapshot built by recompute holds at most K entries, ranked
    1, 2, ... in the order of the ranking: score descending, equal scores by
    ascending principal_id; every aggregate left out ranks after every entry
    kept; and the snapshot is the same in whatever order the unchanged
    aggregates are read. *)
Theorem snapshot_order (K : nat) (aggs : list Score) :
  let snap := recompute K aggs in
  (length snap ≤ K)%nat ∧
  entry_of <$> snap = take K (ranking aggs) ∧
  ranking aggs ≡ₚ (λ s, (user_id s, current_score s)) <$> aggs ∧
  (∀ i e, snap !! i = Some e → rank e = S i) ∧
  StronglySorted ranks_before (entry_of <$> snap) ∧
  (∀ i j a b, (i < j)%nat → snap !! i = Some a → snap !! j = Some b →
     score b < score a ∨
     (score a = score b ∧ String.leb (principal_id a) (principal_id b) = true)) ∧
  (∀ e x, e ∈ entry_of <$> snap → x ∈ drop K (ranking aggs) → ranks_before e x) ∧
  (∀ aggs', aggs' ≡ₚ aggs → recompute K aggs' = recompute K aggs).
Proof.
  cbv zeta. unfold recompute.
  pose proof (ranking_sorted aggs) as Hs.
  rewrite <- (take_drop K (ranking aggs)) in Hs.
  rewrite entry_of_rank_from. split_and!.
  - rewrite <- (length_fmap entry_of), entry_of_rank_from, length_take. lia.
  - done.
  - apply merge_sort_Permutation.
  - intros i e H. by apply rank_from_lookup in H as [-> _].
  - by eapply StronglySorted_app_1_l.
  - intros i j a b Hij Ha Hb.
    apply rank_from_lookup in Ha as [_ Ha], Hb as [_ Hb].
    apply StronglySorted_app_1_l in Hs.
    apply (StronglySorted_lookup_lt _ _ _ _ _ _ Hs Hij Ha Hb).
  - intros e x He Hx. by eapply StronglySorted_app_1_elem_of.
  - intros aggs' Hp. by rewrite (ranking_perm aggs aggs').
Qed.

(** Two principals with the same score: the lower id comes first, however
    the rows are stored. *)
Example tie_broken_by_id :
  recompute 2 [mkScore "carol" 70 1 None; mkScore "bob" 90 2 None; mkScore "alice" 90 3 None]
    = [mkRanked "alice" 90 1; mkRanked "bob" 90 2] ∧
  recompute 2 [mkScore "alice" 90 3 None; mkScore "carol" 70 1 None; mkScore "bob" 90 2 None]
    = [mkRanked "alice" 90 1; mkRanked "bob" 90 2].
Proof. vm_compute. done. Qed.

End Leaderboard.

End ScoreBoard.
